(** * Coredrain: correlation of HyperCore transfers with HyperEVM transactions

    A shallow embedding of the finder (services/finder.ts), the anchor store
    (models/system-tx.ts), the transfer store (models/transfer.ts), the
    matcher's producer (services/evm-matcher.ts) and the shared backoff of
    the indexer (services/core-indexer.ts), with the properties of the
    specification stated over them.

    Conventions.  A JavaScript [number] that holds a block number, a count or
    a millisecond timestamp is a [Z]; divisions followed by [Math.round] are
    computed exactly.  A [bigint] is a [Z].  Strings are [string]s of 8-bit
    characters.  [T | null] is [option T].  An Effect that can fail returns a
    sum or a dedicated outcome type. *)

From Stdlib Require Import ZArith Lia Bool Ascii String DecimalString DecimalZ.
From stdpp Require Import base option list gmap strings.

#[local] Open Scope string_scope.
#[local] Open Scope Z_scope.

(* ===================================================================== *)
(** ** JavaScript primitives used by the program *)
(* ===================================================================== *)

Module JS.

(** [String.prototype.toLowerCase] on one character: the letters A-Z are
    mapped to a-z, every other 8-bit character is kept. *)
Definition lower_ascii (c : ascii) : ascii :=
  let n := nat_of_ascii c in
  if ((65 <=? n)%nat && (n <=? 90)%nat)%bool then ascii_of_nat (n + 32) else c.

Fixpoint toLowerCase (s : string) : string :=
  match s with
  | EmptyString => EmptyString
  | String c rest => String (lower_ascii c) (toLowerCase rest)
  end.

(** [BigInt(s)] on a decimal literal: an optional minus sign followed by
    decimal digits; the empty string is [0n].  [None] stands for the
    [SyntaxError] that [BigInt] throws. *)
Definition BigInt (s : string) : option Z :=
  match s with
  | EmptyString => Some 0
  | _ => Z.of_int <$> NilZero.int_of_string s
  end.

(** [n.toString()] for a [bigint]. *)
Definition BigInt_toString (n : Z) : string :=
  NilZero.string_of_int (Z.to_int n).

(** [Math.round(num / den)], for [den <> 0]: the nearest integer, a tie
    going towards plus infinity. *)
Definition round_div (num den : Z) : Z := (2 * num + den) / (2 * den).

End JS.

(* ===================================================================== *)
(** ** Data model *)
(* ===================================================================== *)

(** strategies/types.ts: [SystemTx]. *)
Module SystemTx.
Record t := mk {
  hash : string;
  explorerHash : string;
  from : string;
  assetRecipient : string;
  amountWei : string;
  contractAddress : option string
}.
End SystemTx.

(** strategies/types.ts: [BlockData]. *)
Module BlockData.
Record t := mk {
  number : Z;
  hash : string;
  timestamp : Z;
  systemTxs : list SystemTx.t
}.
End BlockData.

(** models/system-tx.ts: a document of the [system_txs] collection. *)
Module SystemTransaction.
Record t := mk {
  hash : string;
  explorerHash : string;
  blockNumber : Z;
  blockHash : string;
  blockTimestamp : Z;
  from : string;
  assetRecipient : string;
  amountWei : string;
  contractAddress : option string
}.
End SystemTransaction.

(** services/finder.ts: [Anchor]. *)
Module Anchor.
Record t := mk { block : Z; time : Z }.
End Anchor.

(* ===================================================================== *)
(** ** The finder: estimation *)
(* ===================================================================== *)

Module Estimate.

Definition BATCH_SIZE : Z := 5.
Definition MAX_ROUNDS : nat := 20.
Definition DB_SEARCH_WINDOW_MS : Z := 120000.
Definition SEED_ANCHOR : Anchor.t := Anchor.mk 1 1739849780000.
Definition DEFAULT_MS_PER_BLOCK : Z := 1000.

(** [interpolate]: [targetOffset / (timeDelta / blockDelta)] is the exact
    quotient [targetOffset * blockDelta / timeDelta]. *)
Definition interpolate (before after : Anchor.t) (targetTime : Z) : Z :=
  let timeDelta := Anchor.time after - Anchor.time before in
  let blockDelta := Anchor.block after - Anchor.block before in
  if ((blockDelta =? 0) || (timeDelta =? 0))%bool then Anchor.block before
  else
    let targetOffset := targetTime - Anchor.time before in
    let blockOffset := JS.round_div (targetOffset * blockDelta) timeDelta in
    Z.max 1 (Anchor.block before + blockOffset).

Definition extrapolate (anchor : Anchor.t) (targetTime : Z) : Z :=
  let timeDiff := targetTime - Anchor.time anchor in
  let blockDiff := JS.round_div timeDiff DEFAULT_MS_PER_BLOCK in
  Z.max 1 (Anchor.block anchor + blockDiff).

(** The estimate step at the head of each round of [findEvmHash]. *)
Definition estimateStep (lowerBound : Anchor.t) (upperBound : option Anchor.t)
    (targetTime : Z) : Z :=
  match upperBound with
  | Some upper =>
      let estimate := interpolate lowerBound upper targetTime in
      Z.max (Anchor.block lowerBound) (Z.min (Anchor.block upper) estimate)
  | None => extrapolate lowerBound targetTime
  end.

End Estimate.

(* ===================================================================== *)
(** ** lib/utils.ts and cache/assets.ts *)
(* ===================================================================== *)

Definition normalizeAddress (addr : string) : string := JS.toLowerCase addr.

Module SpotAsset.
Record t := mk {
  name : string;
  index : Z;
  weiDecimals : Z;
  evmExtraWeiDecimals : Z;
  evmDecimals : Z;
  systemAddress : string;
  evmContract : option string
}.
End SpotAsset.

(** [getAssetBySystemAddress], with the module-level map [bySystemAddress]
    passed explicitly. *)
Definition getAssetBySystemAddress (bySystemAddress : gmap string SpotAsset.t)
    (systemAddress : string) : option SpotAsset.t :=
  bySystemAddress !! normalizeAddress systemAddress.

(* ===================================================================== *)
(** ** models/transfer.ts: documents of the [transfers] collection *)
(* ===================================================================== *)

Inductive TransferStatus := PENDING | MATCHED | FAILED.

#[global] Instance TransferStatus_eq_dec : EqDecision TransferStatus.
Proof. solve_decision. Defined.

Module Transfer.
Record t := mk {
  hypercoreHash : string;
  hypercoreTime : Z;
  token : string;
  amount : string;
  usdcValue : option string;
  fee : option string;
  nativeTokenFee : option string;
  user : string;
  systemAddress : string;
  watchedAddress : string;
  contractAddress : option string;
  hyperevmHash : option string;
  hyperevmExplorerHash : option string;
  hyperevmBlock : option Z;
  hyperevmBlockHash : option string;
  hyperevmTime : option Z;
  status : TransferStatus;
  failReason : option string
}.
End Transfer.

(* ===================================================================== *)
(** ** models/system-tx.ts: the anchor store *)
(* ===================================================================== *)

Module AnchorStore.

(** The document written for one system transaction of a block. *)
Definition docOfTx (block : BlockData.t) (tx : SystemTx.t) : SystemTransaction.t :=
  {| SystemTransaction.hash := SystemTx.hash tx;
     SystemTransaction.explorerHash := SystemTx.explorerHash tx;
     SystemTransaction.blockNumber := BlockData.number block;
     SystemTransaction.blockHash := BlockData.hash block;
     SystemTransaction.blockTimestamp := BlockData.timestamp block;
     SystemTransaction.from := JS.toLowerCase (SystemTx.from tx);
     SystemTransaction.assetRecipient := JS.toLowerCase (SystemTx.assetRecipient tx);
     SystemTransaction.amountWei := SystemTx.amountWei tx;
     SystemTransaction.contractAddress := JS.toLowerCase <$> SystemTx.contractAddress tx |}.

(** [allDocs] of [storeBlocksSystemTxs]. *)
Definition allDocs (blocks : list BlockData.t) : list SystemTransaction.t :=
  let blocksWithTxs :=
    filter (fun b => (0 < length (BlockData.systemTxs b))%nat) blocks in
  flat_map (fun block => map (docOfTx block) (BlockData.systemTxs block)) blocksWithTxs.

(** [insertMany(docs, { ordered: false })] under the unique index on [hash]:
    a document whose hash is already stored is rejected as a duplicate, the
    others are appended. *)
Fixpoint insertMany (store docs : list SystemTransaction.t) : list SystemTransaction.t :=
  match docs with
  | [] => store
  | d :: rest =>
      if bool_decide (SystemTransaction.hash d ∈ map SystemTransaction.hash store)
      then insertMany store rest
      else insertMany (store ++ [d]) rest
  end.

(** [storeBlocksSystemTxs]; duplicate-key errors are absorbed. *)
Definition storeBlocksSystemTxs (store : list SystemTransaction.t)
    (blocks : list BlockData.t) : list SystemTransaction.t :=
  match allDocs blocks with
  | [] => store
  | docs => insertMany store docs
  end.

(** [storeBlockSystemTxs], the one-block variant used by the seeding code. *)
Definition storeBlockSystemTxs (store : list SystemTransaction.t)
    (block : BlockData.t) : list SystemTransaction.t :=
  match BlockData.systemTxs block with
  | [] => store
  | txs => insertMany store (map (docOfTx block) txs)
  end.

(** Parameters of [findMatchingTx]. *)
Record MatchParams := mkParams {
  from : string;
  assetRecipient : string;
  amountWei : string;
  minTime : Z;
  maxTime : Z
}.

(** The filter document of [findMatchingTx]. *)
Definition matchesQuery (params : MatchParams) (d : SystemTransaction.t) : bool :=
  bool_decide (SystemTransaction.from d = JS.toLowerCase (from params))
  && bool_decide (SystemTransaction.assetRecipient d = JS.toLowerCase (assetRecipient params))
  && bool_decide (SystemTransaction.amountWei d = amountWei params)
  && (minTime params <=? SystemTransaction.blockTimestamp d)
  && (SystemTransaction.blockTimestamp d <=? maxTime params).

(** First document of [docs] in ascending [blockTimestamp] order; among
    equal timestamps the one stored first. *)
Fixpoint earliest (docs : list SystemTransaction.t) : option SystemTransaction.t :=
  match docs with
  | [] => None
  | d :: rest =>
      match earliest rest with
      | None => Some d
      | Some e =>
          if SystemTransaction.blockTimestamp e <? SystemTransaction.blockTimestamp d
          then Some e else Some d
      end
  end.

(** First document of [docs] in descending [blockTimestamp] order. *)
Fixpoint latest (docs : list SystemTransaction.t) : option SystemTransaction.t :=
  match docs with
  | [] => None
  | d :: rest =>
      match latest rest with
      | None => Some d
      | Some e =>
          if SystemTransaction.blockTimestamp d <? SystemTransaction.blockTimestamp e
          then Some e else Some d
      end
  end.

(** [findMatchingTx]: [findOne(filter).sort({ blockTimestamp: 1 })]. *)
Definition findMatchingTx (params : MatchParams) (docs : list SystemTransaction.t)
    : option SystemTransaction.t :=
  earliest (filter (fun d => matchesQuery params d = true) docs).

Record BlockAnchor := mkAnchor { blockNumber : Z; blockTimestamp : Z }.

Definition project (d : SystemTransaction.t) : BlockAnchor :=
  mkAnchor (SystemTransaction.blockNumber d) (SystemTransaction.blockTimestamp d).

(** [findBracketingAnchors]: the closest document at or before the target
    time and the closest one after it. *)
Definition findBracketingAnchors (targetTime : Z) (docs : list SystemTransaction.t)
    : option BlockAnchor * option BlockAnchor :=
  let before :=
    latest (filter (fun d => SystemTransaction.blockTimestamp d <= targetTime) docs) in
  let after :=
    earliest (filter (fun d => SystemTransaction.blockTimestamp d > targetTime) docs) in
  (project <$> before, project <$> after).

End AnchorStore.

(* ===================================================================== *)
(** ** services/finder.ts: the search *)
(* ===================================================================== *)

Module Finder.
Import Estimate.

(** [BlockFetchError] of strategies/types.ts. *)
Record BlockFetchError := mkFetchError { message : string; strategy : string }.

(** [BlockFetcherService].  The answer of [fetchBlocks] may change from one
    call to the next, so the method also receives the number of calls
    already made to it during the search. *)
Record BlockFetcherService := mkFetcher {
  name : string;
  fetchBlocks : nat -> list Z -> BlockFetchError + list BlockData.t
}.

(** [FindResult]; the wall-clock measurement [elapsedMs] is left out. *)
Record FindResult := mkResult {
  hash : string;
  explorerHash : string;
  block : Z;
  blockHash : string;
  blockTime : Z;
  contractAddress : option string;
  blocksSearched : Z;
  rounds : Z
}.

(** The transaction a result was built from: a stored document on the
    cache path, a transaction of a fetched block on the search path. *)
Inductive MatchedTx :=
| FromCache (dbMatch : SystemTransaction.t)
| FromBlock (block : BlockData.t) (tx : SystemTx.t).

(** How a run of [findEvmHash] ends.  [Success] carries the matched
    transaction next to the returned [FindResult]. *)
Inductive Outcome :=
| Success (matched : MatchedTx) (result : FindResult)
| NotFoundError (blocksSearched : Z)
| FetchFailure (e : BlockFetchError)
| RefreshFailure
| Defect.

(** A run: its outcome, the block-number lists passed to
    [fetcher.fetchBlocks] in call order, and the number of rounds of the
    search loop that were entered. *)
Record Run := mkRun {
  outcome : Outcome;
  fetchCalls : list (list Z);
  roundsEntered : nat
}.

(** What the finder reads from its surroundings: the asset cache, what
    [refreshAssetCache] would load ([None]: the refresh fails), and the
    [system_txs] collection as seen by the cache probe and by the
    bracketing query ([None]: the query is rejected). *)
Record Env := mkEnv {
  bySystemAddress : gmap string SpotAsset.t;
  refreshAssetCache : option (gmap string SpotAsset.t);
  probeStore : option (list SystemTransaction.t);
  boundsStore : option (list SystemTransaction.t)
}.

(** [matchesTx]; [None] when [BigInt] throws. *)
Definition matchesTx (tx : SystemTx.t) (user systemAddress : string)
    (expectedAmount : Z) : option bool :=
  if bool_decide (JS.toLowerCase (SystemTx.from tx) ≠ systemAddress) then Some false
  else if bool_decide (JS.toLowerCase (SystemTx.assetRecipient tx) ≠ user) then Some false
  else (fun a => bool_decide (a = expectedAmount)) <$> JS.BigInt (SystemTx.amountWei tx).

Inductive SearchResult :=
| Hit (block : BlockData.t) (tx : SystemTx.t)
| Miss
| Threw.

(** Inner loop of [searchBlocks]. *)
Fixpoint searchTxs (block : BlockData.t) (txs : list SystemTx.t)
    (user systemAddress : string) (expectedAmount : Z) : SearchResult :=
  match txs with
  | [] => Miss
  | tx :: rest =>
      match matchesTx tx user systemAddress expectedAmount with
      | None => Threw
      | Some true => Hit block tx
      | Some false => searchTxs block rest user systemAddress expectedAmount
      end
  end.

Fixpoint searchBlocks (blocks : list BlockData.t) (user systemAddress : string)
    (expectedAmount : Z) : SearchResult :=
  match blocks with
  | [] => Miss
  | block :: rest =>
      match searchTxs block (BlockData.systemTxs block) user systemAddress expectedAmount with
      | Miss => searchBlocks rest user systemAddress expectedAmount
      | r => r
      end
  end.

(** First block number of the batch built around [estimate]. *)
Definition batchStart (lowerBound : Anchor.t) (upperBound : option Anchor.t)
    (estimate : Z) : Z :=
  let halfBatch := BATCH_SIZE / 2 in
  let batchStart := Z.max 1 (estimate - halfBatch) in
  let batchStart :=
    match upperBound with
    | Some upper =>
        if batchStart + BATCH_SIZE >? Anchor.block upper
        then Z.max (Anchor.block lowerBound) (Anchor.block upper - BATCH_SIZE + 1)
        else batchStart
    | None => batchStart
    end in
  Z.max (Anchor.block lowerBound) batchStart.

(** The loop that fills [blockNumbers]: [count] iterations remain, the
    next one has index [i]. *)
Fixpoint pushBlockNumbers (count : nat) (i : Z) (batchStart : Z)
    (upperBound : option Anchor.t) : list Z :=
  match count with
  | O => []
  | S count' =>
      let blockNum := batchStart + i in
      match upperBound with
      | Some upper =>
          if blockNum >? Anchor.block upper then []
          else blockNum :: pushBlockNumbers count' (i + 1) batchStart upperBound
      | None => blockNum :: pushBlockNumbers count' (i + 1) batchStart upperBound
      end
  end.

Definition blockNumbers (lowerBound : Anchor.t) (upperBound : option Anchor.t)
    (targetTime : Z) : list Z :=
  let estimate := estimateStep lowerBound upperBound targetTime in
  pushBlockNumbers (Z.to_nat BATCH_SIZE) 0 (batchStart lowerBound upperBound estimate)
    upperBound.

(** One iteration of the loop that picks the candidate bounds among the
    fetched blocks. *)
Definition candidateStep (targetTime : Z)
    (acc : option BlockData.t * option BlockData.t) (block : BlockData.t)
    : option BlockData.t * option BlockData.t :=
  let '(newLowerBlock, newUpperBlock) := acc in
  let newLowerBlock :=
    if BlockData.timestamp block <=? targetTime then
      match newLowerBlock with
      | None => Some block
      | Some l => if BlockData.number block >? BlockData.number l then Some block
                  else newLowerBlock
      end
    else newLowerBlock in
  let newUpperBlock :=
    if BlockData.timestamp block >? targetTime then
      match newUpperBlock with
      | None => Some block
      | Some u => if BlockData.number block <? BlockData.number u then Some block
                  else newUpperBlock
      end
    else newUpperBlock in
  (newLowerBlock, newUpperBlock).

Definition candidates (targetTime : Z) (blocks : list BlockData.t)
    : option BlockData.t * option BlockData.t :=
  fold_left (candidateStep targetTime) blocks (None, None).

Definition anchorOfBlock (b : BlockData.t) : Anchor.t :=
  Anchor.mk (BlockData.number b) (BlockData.timestamp b).

(** "Tighten bounds". *)
Definition tighten (targetTime : Z) (blocks : list BlockData.t)
    (lowerBound : Anchor.t) (upperBound : option Anchor.t)
    : Anchor.t * option Anchor.t :=
  let '(newLowerBlock, newUpperBlock) := candidates targetTime blocks in
  let lowerBound' :=
    match newLowerBlock with
    | Some b => if BlockData.number b >? Anchor.block lowerBound
                then anchorOfBlock b else lowerBound
    | None => lowerBound
    end in
  let upperBound' :=
    match newUpperBlock with
    | Some b =>
        match upperBound with
        | None => Some (anchorOfBlock b)
        | Some upper => if BlockData.number b <? Anchor.block upper
                        then Some (anchorOfBlock b) else upperBound
        end
    | None => upperBound
    end in
  (lowerBound', upperBound').

(** "Check if bounds have converged". *)
Definition converged (lowerBound : Anchor.t) (upperBound : option Anchor.t) : bool :=
  match upperBound with
  | Some upper => Anchor.block upper <=? Anchor.block lowerBound + 1
  | None => false
  end.

Definition resultOfBlock (b : BlockData.t) (tx : SystemTx.t)
    (blocksSearched : Z) (round : nat) : FindResult :=
  {| hash := SystemTx.hash tx;
     explorerHash := SystemTx.explorerHash tx;
     block := BlockData.number b;
     blockHash := BlockData.hash b;
     blockTime := BlockData.timestamp b;
     contractAddress := SystemTx.contractAddress tx;
     blocksSearched := blocksSearched;
     rounds := Z.of_nat round + 1 |}.

Definition resultOfDoc (dbMatch : SystemTransaction.t) : FindResult :=
  {| hash := SystemTransaction.hash dbMatch;
     explorerHash := SystemTransaction.explorerHash dbMatch;
     block := SystemTransaction.blockNumber dbMatch;
     blockHash := SystemTransaction.blockHash dbMatch;
     blockTime := SystemTransaction.blockTimestamp dbMatch;
     contractAddress := SystemTransaction.contractAddress dbMatch;
     blocksSearched := 0;
     rounds := 0 |}.





(** A stored document that carries the match tuple of a transfer inside
    the window of the cache probe, five seconds before to 120 seconds
    after the transfer time. *)
Definition inProbeWindow (transfer : Transfer.t) (expectedAmount : Z)
    (d : SystemTransaction.t) : Prop :=
  SystemTransaction.from d = JS.toLowerCase (Transfer.systemAddress transfer) /\
  SystemTransaction.assetRecipient d = JS.toLowerCase (Transfer.user transfer) /\
  SystemTransaction.amountWei d = JS.BigInt_toString expectedAmount /\
  Transfer.hypercoreTime transfer - 5000 <= SystemTransaction.blockTimestamp d /\
  SystemTransaction.blockTimestamp d <= Transfer.hypercoreTime transfer + 120000.

(** A document whose address fields are in lower case. *)
Definition lowercased (d : SystemTransaction.t) : Prop :=
  JS.toLowerCase (SystemTransaction.from d) = SystemTransaction.from d /\
  JS.toLowerCase (SystemTransaction.assetRecipient d) = SystemTransaction.assetRecipient d /\
  JS.toLowerCase <$> SystemTransaction.contractAddress d
    = SystemTransaction.contractAddress d.

(** The run ends before the loop is reached. *)
Definition finish (o : Outcome) : Run := mkRun o [] 0.

(** The run ends inside a round ([return], [break], a failure). *)
Definition stop (o : Outcome) (calls : list (list Z)) : Run := mkRun o calls 1.

(** The round made the call [nums] and the loop goes on with [r]. *)
Definition after_call (nums : list Z) (r : Run) : Run :=
  mkRun (outcome r) (nums :: fetchCalls r) (S (roundsEntered r)).

(** The [for (let round = 0; round < MAX_ROUNDS; round++)] loop: [remaining]
    is [MAX_ROUNDS - round]. *)
Fixpoint searchRounds (fetcher : BlockFetcherService) (targetTime : Z)
    (user systemAddress : string) (expectedAmount : Z)
    (remaining : nat) (round : nat)
    (lowerBound : Anchor.t) (upperBound : option Anchor.t) (blocksSearched : Z)
    : Run :=
  match remaining with
  | O => finish (NotFoundError blocksSearched)
  | S remaining' =>
      let nums := blockNumbers lowerBound upperBound targetTime in
      match nums with
      | [] => stop (NotFoundError blocksSearched) []
      | _ =>
          match fetchBlocks fetcher round nums with
          | inl e => stop (FetchFailure e) [nums]
          | inr blocks =>
              let blocksSearched := blocksSearched + Z.of_nat (length blocks) in
              match blocks with
              | [] =>
                  after_call nums
                    (searchRounds fetcher targetTime user systemAddress expectedAmount
                       remaining' (S round) lowerBound upperBound blocksSearched)
              | _ =>
                  match searchBlocks blocks user systemAddress expectedAmount with
                  | Threw => stop Defect [nums]
                  | Hit b tx =>
                      stop (Success (FromBlock b tx)
                              (resultOfBlock b tx blocksSearched round)) [nums]
                  | Miss =>
                      let '(lowerBound', upperBound') :=
                        tighten targetTime blocks lowerBound upperBound in
                      if converged lowerBound' upperBound'
                      then stop (NotFoundError blocksSearched) [nums]
                      else
                        after_call nums
                          (searchRounds fetcher targetTime user systemAddress
                             expectedAmount remaining' (S round)
                             lowerBound' upperBound' blocksSearched)
                  end
              end
          end
      end
  end.

Section WithParseAmount.

(** [parseAmount] of lib/utils.ts is viem's [parseUnits]; [None] when it
    throws on a malformed amount. *)
Variable parseAmount : string -> Z -> option Z.

(** The asset lookup with its single refresh: [None] when the refresh
    fails, otherwise the asset found, if any. *)
Definition lookupAsset (env : Env) (systemAddress : string)
    : option (option SpotAsset.t) :=
  match getAssetBySystemAddress (bySystemAddress env) systemAddress with
  | Some asset => Some (Some asset)
  | None =>
      match refreshAssetCache env with
      | None => None
      | Some refreshed => Some (getAssetBySystemAddress refreshed systemAddress)
      end
  end.

Definition evmDecimalsOf (asset : option SpotAsset.t) : Z :=
  match asset with
  | Some a => SpotAsset.evmDecimals a
  | None => 18
  end.

(** The match tuple and window handed to [findMatchingTx]. *)
Definition probeParams (targetTime : Z) (user systemAddress : string)
    (expectedAmount : Z) : AnchorStore.MatchParams :=
  {| AnchorStore.from := systemAddress;
     AnchorStore.assetRecipient := user;
     AnchorStore.amountWei := JS.BigInt_toString expectedAmount;
     AnchorStore.minTime := targetTime - 5000;
     AnchorStore.maxTime := targetTime + DB_SEARCH_WINDOW_MS |}.

Definition anchorOf (a : AnchorStore.BlockAnchor) : Anchor.t :=
  Anchor.mk (AnchorStore.blockNumber a) (AnchorStore.blockTimestamp a).

Definition findEvmHash (env : Env) (transfer : Transfer.t)
    (fetcher : BlockFetcherService) : Run :=
  let targetTime := Transfer.hypercoreTime transfer in
  let user := normalizeAddress (Transfer.user transfer) in
  let systemAddress := normalizeAddress (Transfer.systemAddress transfer) in
  match lookupAsset env systemAddress with
  | None => finish RefreshFailure
  | Some asset =>
      let evmDecimals := evmDecimalsOf asset in
      match parseAmount (Transfer.amount transfer) evmDecimals with
      | None => finish Defect
      | Some expectedAmount =>
          let dbMatch :=
            match probeStore env with
            | Some docs =>
                AnchorStore.findMatchingTx
                  (probeParams targetTime user systemAddress expectedAmount) docs
            | None => None
            end in
          match dbMatch with
          | Some d => finish (Success (FromCache d) (resultOfDoc d))
          | None =>
              let initialAnchors :=
                match boundsStore env with
                | Some docs => AnchorStore.findBracketingAnchors targetTime docs
                | None => (None, None)
                end in
              let lowerBound :=
                match fst initialAnchors with
                | Some before => anchorOf before
                | None => SEED_ANCHOR
                end in
              let upperBound := anchorOf <$> snd initialAnchors in
              searchRounds fetcher targetTime user systemAddress expectedAmount
                MAX_ROUNDS 0 lowerBound upperBound 0
          end
      end
  end.

End WithParseAmount.

End Finder.

(* ===================================================================== *)
(** ** models/transfer.ts: the transfer store *)
(* ===================================================================== *)

Module TransferStore.

(** The [transfers] collection with its unique index on [hypercoreHash]:
    a finite map from the hash to the document. *)
Abbreviation store := (gmap string Transfer.t).

Record NewTransfer := mkNew {
  hypercoreHash : string;
  hypercoreTime : Z;
  token : string;
  amount : string;
  usdcValue : option string;
  fee : option string;
  nativeTokenFee : option string;
  user : string;
  systemAddress : string;
  watchedAddress : string;
  contractAddress : option string
}.

(** The document built for a new transfer in [insertTransfersBatch]. *)
Definition docOfNew (t : NewTransfer) : Transfer.t :=
  {| Transfer.hypercoreHash := hypercoreHash t;
     Transfer.hypercoreTime := hypercoreTime t;
     Transfer.token := token t;
     Transfer.amount := amount t;
     Transfer.usdcValue := usdcValue t;
     Transfer.fee := fee t;
     Transfer.nativeTokenFee := nativeTokenFee t;
     Transfer.user := user t;
     Transfer.systemAddress := systemAddress t;
     Transfer.watchedAddress := watchedAddress t;
     Transfer.contractAddress := contractAddress t;
     Transfer.hyperevmHash := None;
     Transfer.hyperevmExplorerHash := None;
     Transfer.hyperevmBlock := None;
     Transfer.hyperevmBlockHash := None;
     Transfer.hyperevmTime := None;
     Transfer.status := PENDING;
     Transfer.failReason := None |}.

(** The error thrown by the driver for an unordered bulk insert. *)
Record WriteError := mkWriteError { index : nat; err_code : option Z }.

Record BulkWriteError := mkBulkError {
  code : option Z;
  insertedCount : option Z;
  writeErrors : option (list WriteError)
}.

Definition DUPLICATE_KEY : Z := 11000.

(** The per-document loop of [insertMany(docs, { ordered: false })]: a
    document whose hash is stored is recorded as a duplicate-key write
    error, any other document is inserted. *)
Fixpoint insertLoop (s : store) (i : nat) (docs : list Transfer.t)
    : store * list Transfer.t * list WriteError :=
  match docs with
  | [] => (s, [], [])
  | d :: rest =>
      match s !! Transfer.hypercoreHash d with
      | Some _ =>
          let '(s', inserted, errors) := insertLoop s (S i) rest in
          (s', inserted, mkWriteError i (Some DUPLICATE_KEY) :: errors)
      | None =>
          let '(s', inserted, errors) :=
            insertLoop (<[Transfer.hypercoreHash d := d]> s) (S i) rest in
          (s', d :: inserted, errors)
      end
  end.

Definition insertMany (s : store) (docs : list Transfer.t)
    : store * (BulkWriteError + list Transfer.t) :=
  let '(s', inserted, errors) := insertLoop s O docs in
  match errors with
  | [] => (s', inr inserted)
  | e :: _ =>
      (s', inl {| code := err_code e;
                  insertedCount := Some (Z.of_nat (length inserted));
                  writeErrors := Some errors |})
  end.

(** A write error that reports a duplicate key. *)
Definition isDuplicateError (e : WriteError) : Prop :=
  err_code e = Some DUPLICATE_KEY.

Record BatchInsertResult := mkBatchResult { inserted : Z; duplicates : Z }.

Record DbQueryError := mkDbError { operation : string; collection : string }.

Definition insertTransfersBatch (s : store) (transfers : list NewTransfer)
    : store * (DbQueryError + BatchInsertResult) :=
  match transfers with
  | [] => (s, inr (mkBatchResult 0 0))
  | _ =>
      let docs := map docOfNew transfers in
      match insertMany s docs with
      | (s', inr result) => (s', inr (mkBatchResult (Z.of_nat (length result)) 0))
      | (s', inl bulkError) =>
          if bool_decide (code bulkError ≠ Some DUPLICATE_KEY)
          then (s', inl (mkDbError "insertMany" "transfers"))
          else
            let insertedCount := default 0 (insertedCount bulkError) in
            let writeErrors := default [] (writeErrors bulkError) in
            let allDuplicates :=
              forallb (fun e => bool_decide (err_code e = Some DUPLICATE_KEY)) writeErrors in
            if negb allDuplicates
            then (s', inl (mkDbError "insertMany" "transfers"))
            else (s', inr (mkBatchResult insertedCount (Z.of_nat (length writeErrors))))
      end
  end.

Record EvmData := mkEvm {
  hyperevmHash : string;
  hyperevmExplorerHash : string;
  hyperevmBlock : Z;
  hyperevmBlockHash : string;
  hyperevmTime : Z;
  evmContractAddress : option string
}.

(** The [$set] document of [markTransferMatched]. *)
Definition setMatched (evmData : EvmData) (t : Transfer.t) : Transfer.t :=
  {| Transfer.hypercoreHash := Transfer.hypercoreHash t;
     Transfer.hypercoreTime := Transfer.hypercoreTime t;
     Transfer.token := Transfer.token t;
     Transfer.amount := Transfer.amount t;
     Transfer.usdcValue := Transfer.usdcValue t;
     Transfer.fee := Transfer.fee t;
     Transfer.nativeTokenFee := Transfer.nativeTokenFee t;
     Transfer.user := Transfer.user t;
     Transfer.systemAddress := Transfer.systemAddress t;
     Transfer.watchedAddress := Transfer.watchedAddress t;
     Transfer.contractAddress := evmContractAddress evmData;
     Transfer.hyperevmHash := Some (hyperevmHash evmData);
     Transfer.hyperevmExplorerHash := Some (hyperevmExplorerHash evmData);
     Transfer.hyperevmBlock := Some (hyperevmBlock evmData);
     Transfer.hyperevmBlockHash := Some (hyperevmBlockHash evmData);
     Transfer.hyperevmTime := Some (hyperevmTime evmData);
     Transfer.status := MATCHED;
     Transfer.failReason := None |}.

(** The [$set] document of [markTransferFailed]. *)
Definition setFailed (reason : string) (t : Transfer.t) : Transfer.t :=
  {| Transfer.hypercoreHash := Transfer.hypercoreHash t;
     Transfer.hypercoreTime := Transfer.hypercoreTime t;
     Transfer.token := Transfer.token t;
     Transfer.amount := Transfer.amount t;
     Transfer.usdcValue := Transfer.usdcValue t;
     Transfer.fee := Transfer.fee t;
     Transfer.nativeTokenFee := Transfer.nativeTokenFee t;
     Transfer.user := Transfer.user t;
     Transfer.systemAddress := Transfer.systemAddress t;
     Transfer.watchedAddress := Transfer.watchedAddress t;
     Transfer.contractAddress := Transfer.contractAddress t;
     Transfer.hyperevmHash := Transfer.hyperevmHash t;
     Transfer.hyperevmExplorerHash := Transfer.hyperevmExplorerHash t;
     Transfer.hyperevmBlock := Transfer.hyperevmBlock t;
     Transfer.hyperevmBlockHash := Transfer.hyperevmBlockHash t;
     Transfer.hyperevmTime := Transfer.hyperevmTime t;
     Transfer.status := FAILED;
     Transfer.failReason := Some reason |}.

(** [updateOne({ hypercoreHash }, { $set: ... })]: the document with that
    hash, if there is one, is updated; its status is not part of the
    filter. *)
Definition markTransferMatched (hypercoreHash : string) (evmData : EvmData)
    (s : store) : store :=
  alter (setMatched evmData) hypercoreHash s.

Definition markTransferFailed (hypercoreHash : string) (reason : string)
    (s : store) : store :=
  alter (setFailed reason) hypercoreHash s.

(** The write operations of the system on the collection. *)
Inductive Op :=
| OpInsertBatch (transfers : list NewTransfer)
| OpMarkMatched (hypercoreHash : string) (evmData : EvmData)
| OpMarkFailed (hypercoreHash : string) (reason : string).

Definition apply (op : Op) (s : store) : store :=
  match op with
  | OpInsertBatch transfers => fst (insertTransfersBatch s transfers)
  | OpMarkMatched h evmData => markTransferMatched h evmData s
  | OpMarkFailed h reason => markTransferFailed h reason s
  end.

Definition statusOf (s : store) (h : string) : option TransferStatus :=
  Transfer.status <$> s !! h.

End TransferStore.

(* ===================================================================== *)
(** ** services/evm-matcher.ts: the producer *)
(* ===================================================================== *)

Module Matcher.

Definition REFILL_INTERVAL_MS : Z := 1000.
Definition QUEUE_LOW_WATERMARK : Z := 100.
Definition QUEUE_CAPACITY : Z := 2048.
Definition EVM_MATCHER_BATCH_SIZE : Z := 256.
Definition BACKFILL_THRESHOLD : Z := 10.

Record TransferStats := mkStats { pending : Z; matched : Z; failed : Z; total : Z }.

(** What the two queries of one producer iteration return: [None] when
    the query fails.  [pendingTransfers] lists the pending transfers
    oldest first; [getPendingTransfers(limit)] returns its first [limit]
    elements. *)
Record Db := mkDb {
  getTransferStats : option TransferStats;
  pendingTransfers : option (list Transfer.t)
}.

Definition getPendingTransfers (db : Db) (limit : Z) : option (list Transfer.t) :=
  take (Z.to_nat limit) <$> pendingTransfers db.

(** The state shared by the producer and the workers: the bounded queue,
    the active fetcher and the set of queued hashes (a [Set], kept in
    insertion order). *)
Record State := mkState {
  queue : list Transfer.t;
  fetcherRef : Finder.BlockFetcherService;
  queuedHashes : list string
}.

Definition setAdd (h : string) (set : list string) : list string :=
  if bool_decide (h ∈ set) then set else set ++ [h].

(** The update of [queuedHashesRef] at the end of a refill. *)
Definition addHashes (newHashes : list string) (set : list string) : list string :=
  let newSet := fold_left (fun acc h => setAdd h acc) newHashes set in
  if 10000 <? Z.of_nat (length newSet)
  then drop (length newSet - Z.to_nat 5000) newSet
  else newSet.

(** One pass of the body of the producer's [Effect.forever], up to the
    closing sleep of [REFILL_INTERVAL_MS]. *)
Definition producer (s3Fetcher rpcFetcher : Finder.BlockFetcherService)
    (db : Db) (st : State) : State :=
  let queueSize := Z.of_nat (length (queue st)) in
  if queueSize <? QUEUE_LOW_WATERMARK then
    let stats := default (mkStats 0 0 0 0) (getTransferStats db) in
    let isBackfill := pending stats >? BACKFILL_THRESHOLD in
    let newFetcher := if isBackfill then s3Fetcher else rpcFetcher in
    if pending stats >? 0 then
      let batchSize := Z.min (QUEUE_CAPACITY - queueSize) EVM_MATCHER_BATCH_SIZE in
      let pending := default [] (getPendingTransfers db batchSize) in
      let fresh :=
        filter (fun t => Transfer.hypercoreHash t ∉ queuedHashes st) pending in
      let newHashes := map Transfer.hypercoreHash fresh in
      {| queue := queue st ++ fresh;
         fetcherRef := newFetcher;
         queuedHashes :=
           match newHashes with
           | [] => queuedHashes st
           | _ => addHashes newHashes (queuedHashes st)
           end |}
    else
      {| queue := queue st; fetcherRef := newFetcher; queuedHashes := queuedHashes st |}
  else st.

End Matcher.

(* ===================================================================== *)
(** ** services/core-indexer.ts: the shared backoff, and who consults it *)
(* ===================================================================== *)

Module Backoff.

(** [trigger]: the update function given to [Ref.update], applied to the
    previous deadline [prev] at clock reading [now]. *)
Definition trigger (now retryAfterMs : Z) (prev : Z) : Z :=
  Z.max prev (now + retryAfterMs).


(** The operations on the deadline, with the clock reading at which each
    one runs. *)
Inductive Op :=
| OpWait (now jitter : Z)
| OpTrigger (now retryAfterMs : Z).

Definition step (backoffUntil : Z) (op : Op) : Z :=
  match op with
  | OpWait _ _ => backoffUntil
  | OpTrigger now retryAfterMs => trigger now retryAfterMs backoffUntil
  end.

Definition run (ops : list Op) (backoffUntil : Z) : Z :=
  fold_left step ops backoffUntil.








End Backoff.

(* ===================================================================== *)
(** ** A reference instance of [parseAmount] *)
(* ===================================================================== *)

Module Viem.

Definition digit (c : ascii) : option Z :=
  let n := nat_of_ascii c in
  if ((48 <=? n)%nat && (n <=? 57)%nat)%bool then Some (Z.of_nat (n - 48)) else None.

(** Reads the leading decimal digits of [s]: their value, their number
    and the rest of the string. *)
Fixpoint digits (s : string) (acc : Z) (n : Z) : Z * Z * string :=
  match s with
  | EmptyString => (acc, n, s)
  | String c rest =>
      match digit c with
      | Some d => digits rest (10 * acc + d) (n + 1)
      | None => (acc, n, s)
      end
  end.

(** Decimal notation [-?digits.digits] scaled by [10^decimals]; fraction
    digits beyond [decimals] are rounded half up on the magnitude, as the
    cases of tests/utils.test.ts require.  The library itself is not part
    of the repository; the finder is stated for an arbitrary [parseAmount]
    and this instance only serves to run it. *)
Definition parseUnits (value : string) (decimals : Z) : option Z :=
  let '(negative, s) :=
    match value with
    | String "-"%char rest => (true, rest)
    | _ => (false, value)
    end in
  let '(integer, _, s) := digits s 0 0 in
  let s := match s with String "."%char rest => rest | _ => s end in
  let '(fraction, len, s) := digits s 0 0 in
  match s with
  | EmptyString =>
      let magnitude :=
        JS.round_div ((integer * 10 ^ len + fraction) * 10 ^ decimals) (10 ^ len) in
      Some (if negative : bool then - magnitude else magnitude)
  | _ => None
  end.

End Viem.

(* ===================================================================== *)
(** ** Concrete data used to run the definitions *)
(* ===================================================================== *)

Module Scenario.

Definition HYPE_SYSTEM_ADDRESS : string := "0x2222222222222222222222222222222222222222".

Definition HYPE_ASSET : SpotAsset.t :=
  {| SpotAsset.name := "HYPE"; SpotAsset.index := -1; SpotAsset.weiDecimals := 18;
     SpotAsset.evmExtraWeiDecimals := 0; SpotAsset.evmDecimals := 18;
     SpotAsset.systemAddress := HYPE_SYSTEM_ADDRESS; SpotAsset.evmContract := None |}.

Definition assets : gmap string SpotAsset.t := {[ HYPE_SYSTEM_ADDRESS := HYPE_ASSET ]}.

Definition T : Z := 1700000000000.

(** The same recipient, in lower case and in mixed (checksum) case. *)
Definition userLower : string := "0x30d83d444e230f652e2c62cb5697c8dad503987b".
Definition userMixed : string := "0x30D83D444E230F652e2c62cb5697c8dad503987B".

Definition transfer (user : string) : Transfer.t :=
  {| Transfer.hypercoreHash := "0xc0de01"; Transfer.hypercoreTime := T + 1000;
     Transfer.token := "HYPE"; Transfer.amount := "100.5";
     Transfer.usdcValue := None; Transfer.fee := None; Transfer.nativeTokenFee := None;
     Transfer.user := user; Transfer.systemAddress := HYPE_SYSTEM_ADDRESS;
     Transfer.watchedAddress := "0x4f0a01badaa24f762cee620883f16c4460c06be0";
     Transfer.contractAddress := None; Transfer.hyperevmHash := None;
     Transfer.hyperevmExplorerHash := None; Transfer.hyperevmBlock := None;
     Transfer.hyperevmBlockHash := None; Transfer.hyperevmTime := None;
     Transfer.status := PENDING; Transfer.failReason := None |}.

(** Scenario S1: an anchor stored one second before the transfer. *)
Definition storedAnchor : SystemTransaction.t :=
  {| SystemTransaction.hash := "0xa1"; SystemTransaction.explorerHash := "0xe1";
     SystemTransaction.blockNumber := 1500; SystemTransaction.blockHash := "0xb1500";
     SystemTransaction.blockTimestamp := T;
     SystemTransaction.from := HYPE_SYSTEM_ADDRESS;
     SystemTransaction.assetRecipient := userLower;
     SystemTransaction.amountWei := "100500000000000000000";
     SystemTransaction.contractAddress := None |}.

Definition cachedEnv : Finder.Env :=
  {| Finder.bySystemAddress := assets; Finder.refreshAssetCache := None;
     Finder.probeStore := Some [storedAnchor];
     Finder.boundsStore := Some [storedAnchor] |}.

Definition deadFetcher : Finder.BlockFetcherService :=
  {| Finder.name := "rpc";
     Finder.fetchBlocks := fun _ _ => inl (Finder.mkFetchError "HTTP 503" "rpc") |}.

(** Two adjacent anchors around the transfer time, neither of them the
    transfer's own transaction. *)
Definition otherTx (h : string) : SystemTx.t :=
  {| SystemTx.hash := h; SystemTx.explorerHash := h;
     SystemTx.from := HYPE_SYSTEM_ADDRESS;
     SystemTx.assetRecipient := "0x97e7d0c24d485aa07e8218528f8dfcd00ac63f75";
     SystemTx.amountWei := "1"; SystemTx.contractAddress := None |}.

Definition block1500 : BlockData.t :=
  {| BlockData.number := 1500; BlockData.hash := "0xb1500";
     BlockData.timestamp := T; BlockData.systemTxs := [otherTx "0xa2"] |}.

Definition block1501 : BlockData.t :=
  {| BlockData.number := 1501; BlockData.hash := "0xb1501";
     BlockData.timestamp := T + 2000; BlockData.systemTxs := [otherTx "0xa3"] |}.

Definition adjacentEnv : Finder.Env :=
  {| Finder.bySystemAddress := assets; Finder.refreshAssetCache := None;
     Finder.probeStore := Some (AnchorStore.allDocs [block1500; block1501]);
     Finder.boundsStore := Some (AnchorStore.allDocs [block1500; block1501]) |}.

Definition chain (n : Z) : option BlockData.t :=
  if n =? 1500 then Some block1500
  else if n =? 1501 then Some block1501
  else None.

Definition chainFetcher : Finder.BlockFetcherService :=
  {| Finder.name := "rpc";
     Finder.fetchBlocks := fun _ nums => inr (omap chain nums) |}.

(** The transfer's own transaction as a fetcher may report it, with the
    recipient in mixed case, in block 1501. *)
Definition ownTx : SystemTx.t :=
  {| SystemTx.hash := "0xa1"; SystemTx.explorerHash := "0xe1";
     SystemTx.from := HYPE_SYSTEM_ADDRESS;
     SystemTx.assetRecipient := userMixed;
     SystemTx.amountWei := "100500000000000000000";
     SystemTx.contractAddress := None |}.

Definition ownBlock (n time : Z) : BlockData.t :=
  {| BlockData.number := n; BlockData.hash := "0xb0";
     BlockData.timestamp := time; BlockData.systemTxs := [ownTx] |}.

Definition ownChain (n : Z) : option BlockData.t :=
  if n =? 1500 then Some block1500
  else if n =? 1501 then Some (ownBlock 1501 (T + 2000))
  else None.

Definition ownFetcher : Finder.BlockFetcherService :=
  {| Finder.name := "rpc";
     Finder.fetchBlocks := fun _ nums => inr (omap ownChain nums) |}.

(** Scenario S2: anchors at blocks 1000 and 2000, one block per second,
    the transfer's transaction in block 1500. *)
Definition anchorDoc (n time : Z) : SystemTransaction.t :=
  {| SystemTransaction.hash := JS.BigInt_toString n;
     SystemTransaction.explorerHash := JS.BigInt_toString n;
     SystemTransaction.blockNumber := n; SystemTransaction.blockHash := "0xb0";
     SystemTransaction.blockTimestamp := time;
     SystemTransaction.from := "0x0000000000000000000000000000000000000000";
     SystemTransaction.assetRecipient := "0x0000000000000000000000000000000000000000";
     SystemTransaction.amountWei := "0";
     SystemTransaction.contractAddress := None |}.

Definition s2Env : Finder.Env :=
  {| Finder.bySystemAddress := assets; Finder.refreshAssetCache := None;
     Finder.probeStore := Some [anchorDoc 1000 T; anchorDoc 2000 (T + 1000000)];
     Finder.boundsStore := Some [anchorDoc 1000 T; anchorDoc 2000 (T + 1000000)] |}.

Definition s2Transfer : Transfer.t :=
  {| Transfer.hypercoreHash := "0xc0de02"; Transfer.hypercoreTime := T + 500000;
     Transfer.token := "HYPE"; Transfer.amount := "100.5";
     Transfer.usdcValue := None; Transfer.fee := None; Transfer.nativeTokenFee := None;
     Transfer.user := userLower; Transfer.systemAddress := HYPE_SYSTEM_ADDRESS;
     Transfer.watchedAddress := "0x4f0a01badaa24f762cee620883f16c4460c06be0";
     Transfer.contractAddress := None; Transfer.hyperevmHash := None;
     Transfer.hyperevmExplorerHash := None; Transfer.hyperevmBlock := None;
     Transfer.hyperevmBlockHash := None; Transfer.hyperevmTime := None;
     Transfer.status := PENDING; Transfer.failReason := None |}.

Definition s2Chain (n : Z) : BlockData.t :=
  if n =? 1500 then ownBlock 1500 (T + 500000)
  else {| BlockData.number := n; BlockData.hash := "0xb0";
          BlockData.timestamp := T + (n - 1000) * 1000; BlockData.systemTxs := [] |}.

Definition s2Fetcher : Finder.BlockFetcherService :=
  {| Finder.name := "s3"; Finder.fetchBlocks := fun _ nums => inr (map s2Chain nums) |}.

(** A fetcher that answers every call with no block at all. *)
Definition emptyFetcher : Finder.BlockFetcherService :=
  {| Finder.name := "rpc"; Finder.fetchBlocks := fun _ _ => inr [] |}.

Definition s3Fetcher : Finder.BlockFetcherService :=
  {| Finder.name := "s3"; Finder.fetchBlocks := fun _ nums => inr (omap chain nums) |}.

Definition newTransfer (h : string) : TransferStore.NewTransfer :=
  {| TransferStore.hypercoreHash := h; TransferStore.hypercoreTime := T;
     TransferStore.token := "HYPE"; TransferStore.amount := "1.5";
     TransferStore.usdcValue := None; TransferStore.fee := None;
     TransferStore.nativeTokenFee := None; TransferStore.user := userLower;
     TransferStore.systemAddress := HYPE_SYSTEM_ADDRESS;
     TransferStore.watchedAddress := "0x4f0a01badaa24f762cee620883f16c4460c06be0";
     TransferStore.contractAddress := None |}.

Definition evmData : TransferStore.EvmData :=
  {| TransferStore.hyperevmHash := "0xa1"; TransferStore.hyperevmExplorerHash := "0xe1";
     TransferStore.hyperevmBlock := 1500; TransferStore.hyperevmBlockHash := "0xb1500";
     TransferStore.hyperevmTime := T; TransferStore.evmContractAddress := None |}.

(** A store holding one transfer that the matcher has marked MATCHED. *)
Definition matchedStore : gmap string Transfer.t :=
  TransferStore.markTransferMatched "0xc0de01" evmData
    (fst (TransferStore.insertTransfersBatch ∅ [newTransfer "0xc0de01"])).

(** A matcher state whose queue holds exactly [QUEUE_LOW_WATERMARK]
    transfers while the RPC fetcher is active. *)
Definition busyState : Matcher.State :=
  {| Matcher.queue := replicate 100 (transfer userLower);
     Matcher.fetcherRef := chainFetcher;
     Matcher.queuedHashes := ["0xc0de01"] |}.

Definition backlogDb : Matcher.Db :=
  {| Matcher.getTransferStats := Some (Matcher.mkStats 11 0 0 11);
     Matcher.pendingTransfers := Some [] |}.

End Scenario.

(* ===================================================================== *)
(** ** Predicates used to state further properties of the finder *)
(* ===================================================================== *)

Module FinderFacts.

(** [c] is the candidate lower block among the blocks [seen]: the one with
    the largest number among those at or before the target time. *)
Definition lowerCandidateOk (targetTime : Z) (seen : list BlockData.t)
    (c : option BlockData.t) : Prop :=
  match c with
  | Some b => b ∈ seen /\ BlockData.timestamp b <= targetTime /\
              forall b', b' ∈ seen -> BlockData.timestamp b' <= targetTime ->
                BlockData.number b' <= BlockData.number b
  | None => forall b', b' ∈ seen -> targetTime < BlockData.timestamp b'
  end.

(** [c] is the candidate upper block among the blocks [seen]: the one with
    the smallest number among those after the target time. *)
Definition upperCandidateOk (targetTime : Z) (seen : list BlockData.t)
    (c : option BlockData.t) : Prop :=
  match c with
  | Some b => b ∈ seen /\ targetTime < BlockData.timestamp b /\
              forall b', b' ∈ seen -> targetTime < BlockData.timestamp b' ->
                BlockData.number b <= BlockData.number b'
  | None => forall b', b' ∈ seen -> BlockData.timestamp b' <= targetTime
  end.

End FinderFacts.

(* ===================================================================== *)
(** ** Predicates used to state further properties of the transfer store *)
(* ===================================================================== *)

Module TransferFacts.

(** The EVM side of a document is empty. *)
Definition evmEmpty (t : Transfer.t) : Prop :=
  Transfer.hyperevmHash t = None /\ Transfer.hyperevmExplorerHash t = None /\
  Transfer.hyperevmBlock t = None /\ Transfer.hyperevmBlockHash t = None /\
  Transfer.hyperevmTime t = None.

(** The EVM side of a document is filled in. *)
Definition evmFilled (t : Transfer.t) : Prop :=
  is_Some (Transfer.hyperevmHash t) /\ is_Some (Transfer.hyperevmExplorerHash t) /\
  is_Some (Transfer.hyperevmBlock t) /\ is_Some (Transfer.hyperevmBlockHash t) /\
  is_Some (Transfer.hyperevmTime t).

(** A document stored under the hash [h] whose fields agree with its
    status. *)
Definition consistent (h : string) (t : Transfer.t) : Prop :=
  Transfer.hypercoreHash t = h /\
  match Transfer.status t with
  | PENDING => evmEmpty t /\ Transfer.failReason t = None
  | MATCHED => evmFilled t /\ Transfer.failReason t = None
  | FAILED => is_Some (Transfer.failReason t)
  end.

(** The fields of a document that come from HyperCore. *)
Definition hyperCoreData (t : Transfer.t)
    : string * Z * string * string * option string * option string * option string
      * string * string * string :=
  (Transfer.hypercoreHash t, Transfer.hypercoreTime t, Transfer.token t,
   Transfer.amount t, Transfer.usdcValue t, Transfer.fee t, Transfer.nativeTokenFee t,
   Transfer.user t, Transfer.systemAddress t, Transfer.watchedAddress t).

End TransferFacts.

(* ===================================================================== *)
(** ** services/evm-matcher.ts: processing one transfer, and the worker *)
(* ===================================================================== *)

Module Worker.

(** The status string returned by [processTransfer]. *)
Inductive Status := StatusMatched | StatusFailed | StatusError.

(** The argument that [processTransfer] gives to [markTransferMatched]. *)
Definition evmDataOf (r : Finder.FindResult) : TransferStore.EvmData :=
  {| TransferStore.hyperevmHash := Finder.hash r;
     TransferStore.hyperevmExplorerHash := Finder.explorerHash r;
     TransferStore.hyperevmBlock := Finder.block r;
     TransferStore.hyperevmBlockHash := Finder.blockHash r;
     TransferStore.hyperevmTime := Finder.blockTime r;
     TransferStore.evmContractAddress := Finder.contractAddress r |}.

(** The reason recorded for a transfer that was not found. *)
Definition notFoundReason (blocksSearched : Z) : string :=
  "Not found after searching " ++ JS.BigInt_toString blocksSearched ++ " blocks".

(** [processTransfer]: [timedOut] says that [TRANSFER_TIMEOUT_MS] elapsed
    before [findEvmHash] ended, [dbUp] that the update of the transfers
    collection is accepted.  [None] stands for the fiber dying: on a defect
    of [findEvmHash], which [Effect.match] does not handle, or on a
    rejected update under [Effect.orDie]. *)
Definition processTransfer (parseAmount : string -> Z -> option Z)
    (env : Finder.Env) (timedOut dbUp : bool)
    (transfer : Transfer.t) (fetcher : Finder.BlockFetcherService)
    (store : TransferStore.store) : option (Status * TransferStore.store) :=
  if timedOut then Some (StatusError, store)
  else
    match Finder.outcome (Finder.findEvmHash parseAmount env transfer fetcher) with
    | Finder.Success _ result =>
        if dbUp then
          Some (StatusMatched,
                TransferStore.markTransferMatched (Transfer.hypercoreHash transfer)
                  (evmDataOf result) store)
        else None
    | Finder.NotFoundError blocksSearched =>
        if dbUp then
          Some (StatusFailed,
                TransferStore.markTransferFailed (Transfer.hypercoreHash transfer)
                  (notFoundReason blocksSearched) store)
        else None
    | Finder.FetchFailure _ => Some (StatusError, store)
    | Finder.RefreshFailure => Some (StatusError, store)
    | Finder.Defect => None
    end.

Record Counters := mkCounters { matched : Z; failed : Z; errors : Z }.

(** [Set.prototype.delete] on the insertion-ordered set. *)
Definition setDelete (h : string) (set : list string) : list string :=
  filter (fun x => x <> h) set.

(** How one pass of the worker's [Effect.forever] body ends. *)
Inductive Step :=
| Suspended      (* [Queue.take] waits on an empty queue *)
| Died           (* the fiber dies *)
| Done (st : Matcher.State) (counters : Counters) (store : TransferStore.store).

(** One pass of the body of [worker]. *)
Definition worker (parseAmount : string -> Z -> option Z)
    (env : Finder.Env) (timedOut dbUp : bool)
    (st : Matcher.State) (counters : Counters) (store : TransferStore.store) : Step :=
  match Matcher.queue st with
  | [] => Suspended
  | transfer :: rest =>
      let fetcher := Matcher.fetcherRef st in
      match processTransfer parseAmount env timedOut dbUp transfer fetcher store with
      | None => Died
      | Some (StatusMatched, store') =>
          Done (Matcher.mkState rest (Matcher.fetcherRef st) (Matcher.queuedHashes st))
            (mkCounters (matched counters + 1) (failed counters) (errors counters))
            store'
      | Some (StatusFailed, store') =>
          Done (Matcher.mkState rest (Matcher.fetcherRef st) (Matcher.queuedHashes st))
            (mkCounters (matched counters) (failed counters + 1) (errors counters))
            store'
      | Some (StatusError, store') =>
          Done (Matcher.mkState rest (Matcher.fetcherRef st)
                  (setDelete (Transfer.hypercoreHash transfer) (Matcher.queuedHashes st)))
            (mkCounters (matched counters) (failed counters) (errors counters + 1))
            store'
      end
  end.

End Worker.

(* ===================================================================== *)
(** ** Hexadecimal notation *)
(* ===================================================================== *)

Module Hex.

(** The digit written by [toString(16)] for [0 <= d < 16]. *)
Definition digitOf (d : Z) : ascii :=
  ascii_of_nat (Z.to_nat (if d <? 10 then 48 + d else 87 + d)).

(** The digits of [n], most significant first, in front of [acc]; [fuel]
    bounds their number. *)
Fixpoint digitsOf (fuel : nat) (n : Z) (acc : string) : string :=
  match fuel with
  | O => acc
  | S fuel' =>
      let acc' := String (digitOf (n mod 16)) acc in
      if n / 16 =? 0 then acc' else digitsOf fuel' (n / 16) acc'
  end.

(** [n.toString(16)] for an integer [n]. *)
Definition toString16 (n : Z) : string :=
  if n <? 0 then String "-"%char (digitsOf (S (Z.to_nat (Z.log2 (- n)))) (- n) "")
  else digitsOf (S (Z.to_nat (Z.log2 n))) n "".

(** The value of a hexadecimal digit, in either case. *)
Definition valueOf (c : ascii) : option Z :=
  let n := nat_of_ascii c in
  if ((48 <=? n)%nat && (n <=? 57)%nat)%bool then Some (Z.of_nat (n - 48))
  else if ((97 <=? n)%nat && (n <=? 102)%nat)%bool then Some (Z.of_nat (n - 87))
  else if ((65 <=? n)%nat && (n <=? 70)%nat)%bool then Some (Z.of_nat (n - 55))
  else None.

Fixpoint parseDigits (s : string) (acc : Z) : option Z :=
  match s with
  | EmptyString => Some acc
  | String c rest =>
      match valueOf c with
      | Some d => parseDigits rest (16 * acc + d)
      | None => None
      end
  end.

(** White space and line terminators among the 8-bit characters. *)
Definition isWhiteSpace (c : ascii) : bool :=
  let n := nat_of_ascii c in
  ((9 <=? n)%nat && (n <=? 13)%nat)%bool || (n =? 32)%nat || (n =? 160)%nat.

Fixpoint trimEnd (s : string) : string :=
  match s with
  | EmptyString => EmptyString
  | String c rest =>
      match trimEnd rest with
      | EmptyString => if isWhiteSpace c then EmptyString else String c EmptyString
      | rest' => String c rest'
      end
  end.

(** [BigInt("0x" + digits)]: trailing white space is dropped, at least one
    digit is required; [None] stands for the [SyntaxError]. *)
Definition BigInt0x (digits : string) : option Z :=
  match trimEnd digits with
  | EmptyString => None
  | d => parseDigits d 0
  end.

(** [s.padStart(targetLength, pad)] for a one-character [pad]. *)
Definition padStart (targetLength : nat) (pad : ascii) (s : string) : string :=
  string_of_list_ascii (repeat pad (targetLength - String.length s)) ++ s.

(** [s.slice(-n)]: the last [n] characters, all of [s] when it is shorter. *)
Definition sliceLast (n : nat) (s : string) : string :=
  substring (String.length s - n) n s.

End Hex.

(* ===================================================================== *)
(** ** config.ts and lib/utils.ts: system addresses *)
(* ===================================================================== *)

Module Utils.

Definition HYPE_SYSTEM_ADDRESS : string := "0x2222222222222222222222222222222222222222".
Definition SPOT_SYSTEM_PREFIX : string := "0x2000000000000000000000000000000000000".

(** What a call that may throw ends with. *)
Inductive Completion (A : Type) :=
| Returns (a : A)
| Throws.
Arguments Returns {A} a.
Arguments Throws {A}.

Definition computeSystemAddress (index : Z) : string :=
  let hexIndex := Hex.padStart 3 "0"%char (Hex.toString16 index) in
  SPOT_SYSTEM_PREFIX ++ hexIndex.

Definition isSystemAddress (addr : string) : bool :=
  let normalized := normalizeAddress addr in
  String.eqb normalized HYPE_SYSTEM_ADDRESS
  || String.prefix (substring 0 10 SPOT_SYSTEM_PREFIX) normalized.

Definition isHypeAddress (addr : string) : bool :=
  String.eqb (normalizeAddress addr) HYPE_SYSTEM_ADDRESS.

(** [extractIndexFromSystemAddress]; viem's [fromHex(hex, "number")] is
    [Number(BigInt(hex))] and throws on a malformed literal. *)
Definition extractIndexFromSystemAddress (addr : string) : Completion (option Z) :=
  let normalized := normalizeAddress addr in
  if String.eqb normalized HYPE_SYSTEM_ADDRESS then Returns None
  else if negb (String.prefix (substring 0 10 SPOT_SYSTEM_PREFIX) normalized)
  then Returns None
  else
    let hexIndex := Hex.sliceLast 3 normalized in
    match Hex.BigInt0x hexIndex with
    | Some index => Returns (Some index)
    | None => Throws
    end.

End Utils.

(* ===================================================================== *)
(** ** Checks run over a range of token indices *)
(* ===================================================================== *)

Module UtilsFacts.

(** The system address computed for [index] has 42 characters, is in lower
    case, is recognised as a system address and not as the HYPE address,
    and gives [index] back. *)
Definition roundTrips (index : Z) : bool :=
  let a := Utils.computeSystemAddress index in
  (String.length a =? 42)%nat
  && String.eqb (normalizeAddress a) a
  && Utils.isSystemAddress a
  && negb (Utils.isHypeAddress a)
  && match Utils.extractIndexFromSystemAddress a with
     | Utils.Returns (Some i) => i =? index
     | _ => false
     end.

Definition indices (n : nat) : list Z := map Z.of_nat (seq 0 n).

End UtilsFacts.

(* ===================================================================== *)
(** ** cache/assets.ts: the asset cache *)
(* ===================================================================== *)

Module Assets.

Record EvmContract := mkContract { address : string; evm_extra_wei_decimals : Z }.

(** [SpotMetaToken]: a raw token of the spotMeta answer. *)
Record SpotMetaToken := mkToken {
  name : string;
  index : Z;
  weiDecimals : Z;
  evmContract : option EvmContract
}.

Definition HYPE_ASSET : SpotAsset.t :=
  {| SpotAsset.name := "HYPE"; SpotAsset.index := -1; SpotAsset.weiDecimals := 18;
     SpotAsset.evmExtraWeiDecimals := 0; SpotAsset.evmDecimals := 18;
     SpotAsset.systemAddress := Utils.HYPE_SYSTEM_ADDRESS;
     SpotAsset.evmContract := None |}.

Definition parseToken (token : SpotMetaToken) : SpotAsset.t :=
  let evmExtraWeiDecimals := default 0 (evm_extra_wei_decimals <$> evmContract token) in
  let evmDecimals := weiDecimals token + evmExtraWeiDecimals in
  let systemAddress := Utils.computeSystemAddress (index token) in
  {| SpotAsset.name := name token;
     SpotAsset.index := index token;
     SpotAsset.weiDecimals := weiDecimals token;
     SpotAsset.evmExtraWeiDecimals := evmExtraWeiDecimals;
     SpotAsset.evmDecimals := evmDecimals;
     SpotAsset.systemAddress := systemAddress;
     SpotAsset.evmContract := address <$> evmContract token |}.

(** The module-level state of the cache. *)
Record Caches := mkCaches {
  byIndex : gmap Z SpotAsset.t;
  bySystemAddress : gmap string SpotAsset.t;
  byName : gmap string SpotAsset.t;
  initialized : bool
}.

(** The state after [clearAssetCache], which is also the state at load. *)
Definition cleared : Caches := mkCaches ∅ ∅ ∅ false.

(** The body of the loop over [response.tokens]. *)
Definition addToken (c : Caches) (token : SpotMetaToken) : Caches :=
  let asset := parseToken token in
  {| byIndex := <[SpotAsset.index asset := asset]> (byIndex c);
     bySystemAddress :=
       <[normalizeAddress (SpotAsset.systemAddress asset) := asset]> (bySystemAddress c);
     byName := <[SpotAsset.name asset := asset]> (byName c);
     initialized := initialized c |}.

(** [populateCaches]: whatever the caches held is dropped. *)
Definition populateCaches (tokens : list SpotMetaToken) : Caches :=
  let c := fold_left addToken tokens (mkCaches ∅ ∅ ∅ false) in
  {| byIndex := byIndex c;
     bySystemAddress := <[Utils.HYPE_SYSTEM_ADDRESS := HYPE_ASSET]> (bySystemAddress c);
     byName := <["HYPE" := HYPE_ASSET]> (byName c);
     initialized := true |}.

Definition getAssetByName (c : Caches) (name : string) : option SpotAsset.t :=
  byName c !! name.

Definition getAssetByIndex (c : Caches) (index : Z) : option SpotAsset.t :=
  byIndex c !! index.

Definition getEvmDecimals (c : Caches) (systemAddress : string) : Z :=
  match getAssetBySystemAddress (bySystemAddress c) systemAddress with
  | Some asset => SpotAsset.evmDecimals asset
  | None => 18
  end.

End Assets.

(* ===================================================================== *)
(** ** models/watched-address.ts: the watched addresses *)
(* ===================================================================== *)

Module WatchedAddress.
Record t := mk {
  address : string;
  lastIndexedTime : option Z;
  isActive : bool
}.
End WatchedAddress.

Module WatchedAddresses.

(** The [watched_addresses] collection with its unique index on [address]:
    a finite map from the address to the document. *)
Abbreviation collection := (gmap string WatchedAddress.t).

(** [find({ isActive: true })]. *)
Definition findActiveAddresses (s : collection) : list WatchedAddress.t :=
  filter (fun d => WatchedAddress.isActive d = true) (snd <$> map_to_list s).

(** [find({})]. *)
Definition getAllAddresses (s : collection) : list WatchedAddress.t :=
  snd <$> map_to_list s.


(** [addWatchedAddress]: an upsert with [$setOnInsert]; the answer is
    [upsertedCount > 0]. *)
Definition addWatchedAddress (address : string) (s : collection) : collection * bool :=
  let normalized := JS.toLowerCase address in
  match s !! normalized with
  | Some _ => (s, false)
  | None => (<[normalized := WatchedAddress.mk normalized (Some 0) true]> s, true)
  end.

(** [updateOne(filter, { $set: fields })] on the document [d]: the document
    after the update and whether it was modified. *)
Definition setFields (d d' : WatchedAddress.t) : WatchedAddress.t * bool :=
  (d', negb (bool_decide (WatchedAddress.lastIndexedTime d' = WatchedAddress.lastIndexedTime d)
             && Bool.eqb (WatchedAddress.isActive d') (WatchedAddress.isActive d))).

(** The answer [modifiedCount > 0] of an update of the document filed under
    [normalized]. *)
Definition updateOne (normalized : string)
    (set : WatchedAddress.t -> WatchedAddress.t) (s : collection) : collection * bool :=
  match s !! normalized with
  | Some d =>
      let '(d', modified) := setFields d (set d) in
      (<[normalized := d']> s, modified)
  | None => (s, false)
  end.

Definition deactivateAddress (address : string) (s : collection) : collection * bool :=
  let normalized := JS.toLowerCase address in
  updateOne normalized
    (fun d => WatchedAddress.mk (WatchedAddress.address d)
                (WatchedAddress.lastIndexedTime d) false) s.

Definition activateAddress (address : string) (s : collection) : collection * bool :=
  let normalized := JS.toLowerCase address in
  updateOne normalized
    (fun d => WatchedAddress.mk (WatchedAddress.address d)
                (WatchedAddress.lastIndexedTime d) true) s.

Definition resetAddress (address : string) (s : collection) : collection * bool :=
  let normalized := JS.toLowerCase address in
  updateOne normalized
    (fun d => WatchedAddress.mk (WatchedAddress.address d) (Some 0) true) s.

End WatchedAddresses.

(* ===================================================================== *)
(** ** api/hypercore.ts: ledger updates *)
(* ===================================================================== *)

(** The [delta] of a ledger update.  [token], [amount], [user] and
    [destination] are the fields that the source reads with a non-null
    assertion on updates of type spotTransfer; on other updates they are
    not read. *)
Module Delta.
Record t := mk {
  type : string;
  token : string;
  amount : string;
  user : string;
  destination : string;
  usdcValue : option string;
  fee : option string;
  nativeTokenFee : option string
}.
End Delta.

Module LedgerUpdate.
Record t := mk { time : Z; hash : string; delta : Delta.t }.
End LedgerUpdate.

Module SpotTransfer.
Record t := mk {
  time : Z;
  hash : string;
  token : string;
  amount : string;
  user : string;
  destination : string;
  usdcValue : option string;
  fee : option string;
  nativeTokenFee : option string
}.
End SpotTransfer.

Module HyperCore.


End HyperCore.

(* ===================================================================== *)
(** ** services/core-indexer.ts: pages, the address worker, the sync loop *)
(* ===================================================================== *)

Module Indexer.

Definition CORE_INDEXER_POLL_MS : Z := 30000.








(** The bookkeeping of [runIndexerService]: the keys in [runningKeys], in
    insertion order, and the fibers of the [FiberMap] that are still
    running, each with the cursor its worker was started from. *)
Record Workers := mkWorkers {
  runningKeys : list string;
  fibers : gmap string Z
}.

(** "Start workers for new addresses". *)
Definition startStep (w : Workers) (doc : WatchedAddress.t) : Workers :=
  if bool_decide (WatchedAddress.address doc ∈ runningKeys w) then w
  else
    {| runningKeys := runningKeys w ++ [WatchedAddress.address doc];
       fibers := <[WatchedAddress.address doc :=
                     default 0 (WatchedAddress.lastIndexedTime doc)]> (fibers w) |}.

(** "Stop workers for removed/deactivated addresses". *)
Definition stopStep (activeAddresses : list string) (w : Workers) (address : string)
    : Workers :=
  if bool_decide (address ∈ activeAddresses) then w
  else
    {| runningKeys := filter (fun k => k <> address) (runningKeys w);
       fibers := delete address (fibers w) |}.

(** One pass of the sync loop over the active documents [docs]. *)
Definition sync (docs : list WatchedAddress.t) (w : Workers) : Workers :=
  let activeAddresses := map WatchedAddress.address docs in
  let started := fold_left startStep docs w in
  fold_left (stopStep activeAddresses) (runningKeys started) started.

(** A worker that ends, with an error that is logged, leaves the
    [FiberMap]; [runningKeys] is not told. *)
Definition workerEnded (address : string) (w : Workers) : Workers :=
  {| runningKeys := runningKeys w; fibers := delete address (fibers w) |}.

End Indexer.

(* ===================================================================== *)
(** ** strategies/utils.ts: decoding ERC20 transfer calls *)
(* ===================================================================== *)

Module Calldata.

Definition TRANSFER_SELECTOR : string := "a9059cbb".

Definition TRANSFER_EVENT_TOPIC : string :=
  "0xddf252ad1be2c89b69c2b068fc378daa952ba7f163c4a11628f55a4df523b3ef".

(** [s.slice(first, last)] for [0 <= first <= last]. *)
Definition slice (first last : nat) (s : string) : string :=
  substring first (last - first) s.

Record Decoded := mkDecoded { to : string; amount : Z }.

(** [decodeTransferInput]; [Throws] when [BigInt] rejects the amount
    digits. *)
Definition decodeTransferInput (input : string) : Utils.Completion (option Decoded) :=
  if (String.length input <? 138)%nat then Utils.Returns None
  else
    let selector :=
      if String.prefix "0x" input then slice 2 10 input else slice 0 8 input in
    if negb (String.eqb selector TRANSFER_SELECTOR) then Utils.Returns None
    else
      let offset := if String.prefix "0x" input then 2%nat else 0%nat in
      let to := "0x" ++ JS.toLowerCase (slice (offset + 32) (offset + 72) input) in
      match Hex.BigInt0x (slice (offset + 72) (offset + 136) input) with
      | Some amount => Utils.Returns (Some (mkDecoded to amount))
      | None => Utils.Throws
      end.

(** The call data of [transfer(to, amount)] as an ABI encoder writes it,
    with any 24 characters of padding in front of the recipient. *)
Definition encoded (padding recipient amountDigits : string) : string :=
  "0x" ++ TRANSFER_SELECTOR ++ padding ++ recipient ++ amountDigits.

End Calldata.

(* ===================================================================== *)
(** ** Numbers read from strings *)
(* ===================================================================== *)

Module Numeral.

Fixpoint trimStart (s : string) : string :=
  match s with
  | EmptyString => EmptyString
  | String c rest => if Hex.isWhiteSpace c then trimStart rest else s
  end.

Definition trim (s : string) : string := Hex.trimEnd (trimStart s).

(** The value of a digit in radix [radix], for a radix up to 16. *)
Definition digitIn (radix : Z) (c : ascii) : option Z :=
  match Hex.valueOf c with
  | Some d => if d <? radix then Some d else None
  | None => None
  end.

(** All of [s] read as digits in radix [radix]. *)
Fixpoint allDigits (radix : Z) (s : string) (acc : Z) : option Z :=
  match s with
  | EmptyString => Some acc
  | String c rest =>
      match digitIn radix c with
      | Some d => allDigits radix rest (radix * acc + d)
      | None => None
      end
  end.

Definition nonEmptyDigits (radix : Z) (s : string) : option Z :=
  match s with
  | EmptyString => None
  | _ => allDigits radix s 0
  end.

(** [BigInt(s)] for a string [s]: white space around the literal is
    dropped, the empty literal is [0n], a literal is hexadecimal, octal or
    binary after the prefixes 0x, 0o and 0b (in either case) and otherwise
    decimal with an optional sign.  [None] stands for the [SyntaxError]. *)
Definition BigInt (s : string) : option Z :=
  match trim s with
  | EmptyString => Some 0
  | String "0" (String "x" digits) | String "0" (String "X" digits) =>
      nonEmptyDigits 16 digits
  | String "0" (String "o" digits) | String "0" (String "O" digits) =>
      nonEmptyDigits 8 digits
  | String "0" (String "b" digits) | String "0" (String "B" digits) =>
      nonEmptyDigits 2 digits
  | String "-" digits => Z.opp <$> nonEmptyDigits 10 digits
  | String "+" digits => nonEmptyDigits 10 digits
  | digits => nonEmptyDigits 10 digits
  end.

(** The longest prefix of [s] made of digits in radix [radix]: its value
    and its number of digits. *)
Fixpoint leadingDigits (radix : Z) (s : string) (acc : Z) (count : nat) : Z * nat :=
  match s with
  | EmptyString => (acc, count)
  | String c rest =>
      match digitIn radix c with
      | Some d => leadingDigits radix rest (radix * acc + d) (S count)
      | None => (acc, count)
      end
  end.

(** [Number.MAX_SAFE_INTEGER]: up to it, in absolute value, the doubles hold
    every integer and their arithmetic on integers is exact. *)
Definition MAX_SAFE_INTEGER : Z := 9007199254740991.

Definition isSafeInteger (n : Z) : bool :=
  (- MAX_SAFE_INTEGER <=? n) && (n <=? MAX_SAFE_INTEGER).

(** [parseInt(s, 16)]: leading white space, an optional sign and an
    optional 0x are skipped, then the longest run of hexadecimal digits is
    read.  [None] stands for [NaN]. *)
Definition parseInt16 (s : string) : option Z :=
  let s := trimStart s in
  let '(negative, s) :=
    match s with
    | String "-" rest => (true, rest)
    | String "+" rest => (false, rest)
    | _ => (false, s)
    end in
  let s :=
    match s with
    | String "0" (String "x" rest) | String "0" (String "X" rest) => rest
    | _ => s
    end in
  match leadingDigits 16 s 0 0 with
  | (_, O) => None
  | (value, _) => Some (if negative : bool then - value else value)
  end.

End Numeral.

(* ===================================================================== *)
(** ** strategies/rpc.ts: the RPC block fetcher *)
(* ===================================================================== *)

Module RpcSystemTx.
Record t := mk {
  hash : string;
  from : string;
  to : string;
  input : string;
  value : string;
  nonce : string;
  gas : string;
  gasPrice : string;
  chainId : string
}.
End RpcSystemTx.

Module RpcBlockResponse.
Record t := mk { number : string; timestamp : string; hash : string }.
End RpcBlockResponse.

Module Rpc.

Definition MAX_BATCH_SIZE : Z := 20.

(** The argument of [computeExplorerHash]. *)
Record TxFields := mkFields {
  chainId : Z;
  nonce : Z;
  gasPrice : Z;
  gas : Z;
  to : string;
  value : Z;
  input : string;
  from : string
}.

(** The [result] of one answer of a batch: absent or null, a block, or an
    array of system transactions. *)
Inductive Result :=
| RNull
| RBlock (block : RpcBlockResponse.t)
| RTxs (txs : list RpcSystemTx.t).

Record Call := mkCall { method : string; blockParam : string; fullTxs : option bool }.

(** What parsing the answers of a batch ends with: the blocks, an
    exception, or blocks one of whose timestamps is not an integer that the
    doubles hold exactly: it is [NaN] (the answer held no readable
    timestamp, or no block where one is expected) or lies beyond the safe
    integers. *)
Inductive Parsed :=
| ParsedBlocks (blocks : list BlockData.t)
| ParseThrows
| InexactTimestamp.

(** What [fetchBlocks] ends with: the blocks, a [BlockFetchError], a
    defect (an exception thrown while the answers are parsed), or blocks
    one of whose timestamps is not an integer that the doubles hold
    exactly. *)
Inductive Fetched :=
| Blocks (blocks : list BlockData.t)
| Failed (e : Finder.BlockFetchError)
| Died
| BlocksInexact.

(** [haystack.includes(needle)]. *)
Fixpoint includes (needle haystack : string) : bool :=
  String.prefix needle haystack
  || match haystack with
     | EmptyString => false
     | String _ rest => includes needle rest
     end.

(** [toHex(n)] of viem for a block number. *)
Definition toHex (n : Z) : string := "0x" ++ Hex.toString16 n.

Definition buildBatchCalls (blockNumbers : list Z) : list Call :=
  flat_map (fun n =>
              [mkCall "eth_getBlockByNumber" (toHex n) (Some false);
               mkCall "eth_getSystemTxsByBlockNumber" (toHex n) None])
           blockNumbers.

(** The chunks cut by the loop [for (i = 0; i < length; i += chunkSize)];
    [fuel] bounds their number. *)
Fixpoint chunksOf (fuel : nat) (chunkSize : nat) (blockNumbers : list Z) : list (list Z) :=
  match fuel, blockNumbers with
  | _, [] => []
  | O, _ => []
  | S fuel', _ =>
      take chunkSize blockNumbers :: chunksOf fuel' chunkSize (drop chunkSize blockNumbers)
  end.

(** [blocks.sort((a, b) => a.number - b.number)]: a stable sort by block
    number. *)
Fixpoint insertByNumber (b : BlockData.t) (sorted : list BlockData.t) : list BlockData.t :=
  match sorted with
  | [] => [b]
  | x :: rest =>
      if BlockData.number b <=? BlockData.number x then b :: sorted
      else x :: insertByNumber b rest
  end.

Definition sortByNumber (blocks : list BlockData.t) : list BlockData.t :=
  fold_right insertByNumber [] blocks.

Definition retryable (e : Finder.BlockFetchError) : bool :=
  includes "rate limited" (Finder.message e)
  || includes "Timeout" (Finder.message e)
  || includes "HTTP 5" (Finder.message e).

Section WithHash.

(** [computeExplorerHash] of strategies/utils.ts: the Keccak-256 hash of an
    RLP encoding, both computed by the library; [None] when the library
    throws (it rejects negative numbers and strings that are not
    hexadecimal). *)
Variable computeExplorerHash : TxFields -> option string.

Definition normalizeSystemTx (tx : RpcSystemTx.t) : Utils.Completion (option SystemTx.t) :=
  let txFrom := JS.toLowerCase (RpcSystemTx.from tx) in
  let txTo := JS.toLowerCase (RpcSystemTx.to tx) in
  let input := RpcSystemTx.input tx in
  match Numeral.BigInt (RpcSystemTx.chainId tx), Numeral.BigInt (RpcSystemTx.nonce tx),
        Numeral.BigInt (RpcSystemTx.gasPrice tx), Numeral.BigInt (RpcSystemTx.gas tx),
        Numeral.BigInt (RpcSystemTx.value tx) with
  | Some chainId, Some nonce, Some gasPrice, Some gas, Some value =>
      match computeExplorerHash
              (mkFields chainId nonce gasPrice gas txTo value input txFrom) with
      | None => Utils.Throws
      | Some explorerHash =>
          if negb (String.eqb (RpcSystemTx.value tx) "0x0") && String.eqb input "0x" then
            Utils.Returns
              (Some {| SystemTx.hash := RpcSystemTx.hash tx;
                       SystemTx.explorerHash := explorerHash;
                       SystemTx.from := txFrom;
                       SystemTx.assetRecipient := txTo;
                       SystemTx.amountWei := JS.BigInt_toString value;
                       SystemTx.contractAddress := None |})
          else
            match Calldata.decodeTransferInput input with
            | Utils.Throws => Utils.Throws
            | Utils.Returns (Some decoded) =>
                Utils.Returns
                  (Some {| SystemTx.hash := RpcSystemTx.hash tx;
                           SystemTx.explorerHash := explorerHash;
                           SystemTx.from := txFrom;
                           SystemTx.assetRecipient := Calldata.to decoded;
                           SystemTx.amountWei := JS.BigInt_toString (Calldata.amount decoded);
                           SystemTx.contractAddress := Some txTo |})
            | Utils.Returns None => Utils.Returns None
            end
      end
  | _, _, _, _, _ => Utils.Throws
  end.

(** [txs.map(normalizeSystemTx).filter(tx => tx !== null)]; [None] when a
    call of [normalizeSystemTx] throws. *)
Fixpoint normalizeAll (txs : list RpcSystemTx.t) : option (list SystemTx.t) :=
  match txs with
  | [] => Some []
  | tx :: rest =>
      match normalizeSystemTx tx with
      | Utils.Throws => None
      | Utils.Returns r =>
          match normalizeAll rest with
          | None => None
          | Some l => Some (match r with Some stx => stx :: l | None => l end)
          end
      end
  end.

(** The loop of [parseRpcResults], for the block numbers from index [i]
    on. *)
Fixpoint parseFrom (i : nat) (blockNumbers : list Z) (results : list Result) : Parsed :=
  match blockNumbers with
  | [] => ParsedBlocks []
  | blockNum :: rest =>
      let blockResp := default RNull (results !! (i * 2)%nat) in
      let txsResp := default RNull (results !! (i * 2 + 1)%nat) in
      match blockResp with
      | RNull => parseFrom (S i) rest results
      | _ =>
          let txs := match txsResp with RTxs txs => txs | _ => [] end in
          match normalizeAll txs with
          | None => ParseThrows
          | Some systemTxs =>
              match parseFrom (S i) rest results with
              | ParseThrows => ParseThrows
              | InexactTimestamp => InexactTimestamp
              | ParsedBlocks blocks =>
                  match blockResp with
                  | RBlock blockResp =>
                      match Numeral.parseInt16 (RpcBlockResponse.timestamp blockResp) with
                      | None => InexactTimestamp
                      | Some seconds =>
                          if Numeral.isSafeInteger (seconds * 1000)
                          then ParsedBlocks
                                 ({| BlockData.number := blockNum;
                                     BlockData.hash := RpcBlockResponse.hash blockResp;
                                     BlockData.timestamp := seconds * 1000;
                                     BlockData.systemTxs := systemTxs |} :: blocks)
                          else InexactTimestamp
                      end
                  | _ => InexactTimestamp
                  end
              end
          end
      end
  end.

Definition parseRpcResults (blockNumbers : list Z) (results : list Result) : Parsed :=
  parseFrom 0 blockNumbers results.

(** [rpcBatch]: what the endpoint answers to the calls of a batch; the
    answer may change from one request to the next, so the calls come with
    the number of requests already sent by this [fetchBlocks]. *)
Variable rpcBatch : list Call -> nat -> Finder.BlockFetchError + list Result.

(** [fetchChunk(chunk).pipe(Effect.retry(retryPolicy))]: [retries] further
    attempts are allowed after the request number [request].  The outcome
    comes with the number of requests sent so far. *)
Fixpoint fetchChunk (retries : nat) (request : nat) (blockNumbers : list Z)
  : Fetched * nat :=
  match rpcBatch (buildBatchCalls blockNumbers) request with
  | inr results =>
      (match parseRpcResults blockNumbers results with
       | ParsedBlocks blocks => Blocks blocks
       | ParseThrows => Died
       | InexactTimestamp => BlocksInexact
       end, S request)
  | inl e =>
      match retries with
      | O => (Failed e, S request)
      | S retries' =>
          if retryable e then fetchChunk retries' (S request) blockNumbers
          else (Failed e, S request)
      end
  end.

(** [Effect.forEach(chunks, ..., { concurrency: 1 })]: the chunks are
    fetched in order, the first failure ends the loop. *)
Fixpoint fetchChunks (request : nat) (chunks : list (list Z)) : Fetched * nat :=
  match chunks with
  | [] => (Blocks [], request)
  | chunk :: rest =>
      match fetchChunk 3 request chunk with
      | (Blocks blocks, request') =>
          match fetchChunks request' rest with
          | (Blocks more, sent) => (Blocks (blocks ++ more), sent)
          | other => other
          end
      | (BlocksInexact, request') =>
          match fetchChunks request' rest with
          | (Blocks _, sent) => (BlocksInexact, sent)
          | other => other
          end
      | other => other
      end
  end.

(** [fetchBlocks]: what it ends with and the number of requests it sent. *)
Definition fetchBlocks (blockNumbers : list Z) : Fetched * nat :=
  match blockNumbers with
  | [] => (Blocks [], O)
  | _ =>
      let chunkSize := Z.to_nat (MAX_BATCH_SIZE / 2) in
      let chunks := chunksOf (length blockNumbers) chunkSize blockNumbers in
      match fetchChunks 0 chunks with
      | (Blocks results, sent) => (Blocks (sortByNumber results), sent)
      | other => other
      end
  end.

End WithHash.

End Rpc.

(* ===================================================================== *)
(** ** strategies/s3.ts: the S3 block fetcher *)
(* ===================================================================== *)

Module S3.

(** [BufLike]: the bytes of a buffer. *)
Definition BufLike : Type := list Byte.byte.

Definition hexOfByte (b : Byte.byte) : string :=
  let n := Z.of_N (Byte.to_N b) in
  String (Hex.digitOf (n / 16)) (String (Hex.digitOf (n mod 16)) EmptyString).

(** [bytes.toString("hex")]. *)
Fixpoint hexOf (bytes : list Byte.byte) : string :=
  match bytes with
  | [] => EmptyString
  | b :: rest => hexOfByte b ++ hexOf rest
  end.

Definition toHex (buf : BufLike) : string := "0x" ++ hexOf buf.

(** [BigInt(toHex(buf))]; [None] stands for the [SyntaxError]. *)
Definition toBigInt (buf : BufLike) : option Z := Numeral.BigInt (toHex buf).

(** The raw block data read from the bucket. *)
Record Log := mkLog {
  address : BufLike;
  topics : option (list BufLike);
  data : BufLike
}.

Record Legacy := mkLegacy {
  chainId : BufLike;
  nonce : BufLike;
  gasPrice : BufLike;
  gas : BufLike;
  to : BufLike;
  value : BufLike;
  input : BufLike
}.

Record SysTx := mkSysTx { tx : option Legacy; logs : list Log }.

Record S3BlockData := mkRaw {
  hash : BufLike;
  timestamp : BufLike;
  system_txs : list SysTx
}.

(** The first argument of [computeTxHashes]. *)
Record TxFields := mkFields {
  fieldChainId : Z;
  fieldNonce : Z;
  fieldGasPrice : Z;
  fieldGas : Z;
  fieldTo : string;
  fieldValue : Z;
  fieldInput : string
}.

(** The folders of a block: [million] and [thousand] of [blockToS3Key]. *)
Definition million (blockNum : Z) : Z := (blockNum - 1) / 1000000 * 1000000.
Definition thousand (blockNum : Z) : Z := (blockNum - 1) / 1000 * 1000.

Definition blockToS3Key (blockNum : Z) : string :=
  JS.BigInt_toString (million blockNum) ++ "/" ++ JS.BigInt_toString (thousand blockNum)
  ++ "/" ++ JS.BigInt_toString blockNum ++ ".rmp.lz4".

Fixpoint extractFromAddressFromLogs (logs : list Log) (contractAddress : string)
  : option string :=
  let target := JS.toLowerCase contractAddress in
  match logs with
  | [] => None
  | log :: rest =>
      if negb (String.eqb (JS.toLowerCase (toHex (address log))) target)
      then extractFromAddressFromLogs rest contractAddress
      else
        match topics log with
        | Some (topic0 :: topic1 :: _ :: _) =>
            if negb (String.eqb (JS.toLowerCase (toHex topic0)) Calldata.TRANSFER_EVENT_TOPIC)
            then extractFromAddressFromLogs rest contractAddress
            else Some (JS.toLowerCase ("0x" ++ Hex.sliceLast 40 (toHex topic1)))
        | _ => extractFromAddressFromLogs rest contractAddress
        end
  end.

(** What parsing a block ends with: the block, an exception, or a block
    whose timestamp lies beyond the safe integers. *)
Inductive Parsed :=
| ParsedBlock (block : BlockData.t)
| ParseThrows
| InexactTimestamp.

(** What fetching one block ends with: the block, a [BlockFetchError], a
    defect (an exception thrown while the object is decoded or parsed), or
    a block whose timestamp lies beyond the safe integers. *)
Inductive Outcome :=
| Block (block : BlockData.t)
| Failed (e : Finder.BlockFetchError)
| Died
| BlockInexact.

(** What [fetchBlocks] ends with: the blocks; or, when fetching some block
    failed or died, the outcomes of the blocks that did so, in request order
    (the fetches run concurrently, and which of them ends the loop first
    depends on timing); or blocks one of whose timestamps lies beyond the
    safe integers. *)
Inductive Fetched :=
| Blocks (blocks : list BlockData.t)
| Stopped (causes : list Outcome)
| BlocksInexact.

(** What a signed GET of an object ends with: a [BlockFetchError] (signing,
    the request, its timeout, the HTTP status or reading the body failed),
    bytes that the decoder rejects, decoded data without a first element,
    or the block data. *)
Inductive Response :=
| FetchFails (e : Finder.BlockFetchError)
| Undecodable
| NoData
| Data (raw : S3BlockData).

Definition retryable (e : Finder.BlockFetchError) : bool :=
  Rpc.includes "Timeout" (Finder.message e)
  || Rpc.includes "HTTP 503" (Finder.message e)
  || Rpc.includes "HTTP 500" (Finder.message e)
  || Rpc.includes "HTTP 429" (Finder.message e).

Definition isFailure (outcome : Outcome) : bool :=
  match outcome with
  | Failed _ | Died => true
  | _ => false
  end.

(** The blocks of a list of outcomes that are all blocks. *)
Fixpoint blocksOf (outcomes : list Outcome) : option (list BlockData.t) :=
  match outcomes with
  | [] => Some []
  | Block b :: rest => cons b <$> blocksOf rest
  | _ :: _ => None
  end.

Section WithHashes.

(** [computeTxHashes] of strategies/utils.ts: two Keccak-256 hashes of RLP
    encodings, computed by the library; [None] when the library throws. *)
Variable computeTxHashes : TxFields -> string -> option (string * string).

(** The body of the loop of [parseSystemTxs]: the transaction pushed, if
    any. *)
Definition parseSystemTx (sysTx : SysTx) : Utils.Completion (option SystemTx.t) :=
  match tx sysTx with
  | None => Utils.Returns None
  | Some txData =>
      let txTo := JS.toLowerCase (toHex (to txData)) in
      let input := toHex (input txData) in
      match toBigInt (value txData), toBigInt (chainId txData), toBigInt (nonce txData),
            toBigInt (gasPrice txData), toBigInt (gas txData) with
      | Some txValue, Some chainId, Some nonce, Some gasPrice, Some gas =>
          let txFields := mkFields chainId nonce gasPrice gas txTo txValue input in
          if String.eqb input "0x" && (0 <? txValue) then
            match computeTxHashes txFields Utils.HYPE_SYSTEM_ADDRESS with
            | None => Utils.Throws
            | Some (hash, explorerHash) =>
                Utils.Returns
                  (Some {| SystemTx.hash := hash;
                           SystemTx.explorerHash := explorerHash;
                           SystemTx.from := Utils.HYPE_SYSTEM_ADDRESS;
                           SystemTx.assetRecipient := txTo;
                           SystemTx.amountWei := JS.BigInt_toString txValue;
                           SystemTx.contractAddress := None |})
            end
          else
            match Calldata.decodeTransferInput input with
            | Utils.Throws => Utils.Throws
            | Utils.Returns None => Utils.Returns None
            | Utils.Returns (Some decoded) =>
                match extractFromAddressFromLogs (logs sysTx) txTo with
                | None => Utils.Returns None
                | Some fromAddress =>
                    match computeTxHashes txFields fromAddress with
                    | None => Utils.Throws
                    | Some (hash, explorerHash) =>
                        Utils.Returns
                          (Some {| SystemTx.hash := hash;
                                   SystemTx.explorerHash := explorerHash;
                                   SystemTx.from := fromAddress;
                                   SystemTx.assetRecipient := Calldata.to decoded;
                                   SystemTx.amountWei :=
                                     JS.BigInt_toString (Calldata.amount decoded);
                                   SystemTx.contractAddress := Some txTo |})
                    end
                end
            end
      | _, _, _, _, _ => Utils.Throws
      end
  end.

Fixpoint parseSystemTxs (sysTxs : list SysTx) : Utils.Completion (list SystemTx.t) :=
  match sysTxs with
  | [] => Utils.Returns []
  | sysTx :: rest =>
      match parseSystemTx sysTx with
      | Utils.Throws => Utils.Throws
      | Utils.Returns r =>
          match parseSystemTxs rest with
          | Utils.Throws => Utils.Throws
          | Utils.Returns results =>
              Utils.Returns (match r with Some stx => stx :: results | None => results end)
          end
      end
  end.

Definition parseS3Block (blockNum : Z) (raw : S3BlockData) : Parsed :=
  match toBigInt (timestamp raw) with
  | None => ParseThrows
  | Some seconds =>
      match parseSystemTxs (system_txs raw) with
      | Utils.Throws => ParseThrows
      | Utils.Returns systemTxs =>
          if Numeral.isSafeInteger (seconds * 1000)
          then ParsedBlock {| BlockData.number := blockNum;
                              BlockData.hash := toHex (hash raw);
                              BlockData.timestamp := seconds * 1000;
                              BlockData.systemTxs := systemTxs |}
          else InexactTimestamp
      end
  end.

(** What the bucket answers to the GET of a path; the fetches of a request
    run concurrently and each is tried again on its own, so the path comes
    with the position of the block in the request and the number of the
    attempt. *)
Variable s3Get : nat -> string -> nat -> Response.

(** [fetchBlock(signer, n).pipe(Effect.retry(retryPolicy))]: [retries]
    further attempts are allowed after attempt number [attempt]. *)
Fixpoint fetchBlock (retries : nat) (attempt : nat) (position : nat) (blockNum : Z)
  : Outcome :=
  let failed (e : Finder.BlockFetchError) :=
    match retries with
    | O => Failed e
    | S retries' =>
        if retryable e then fetchBlock retries' (S attempt) position blockNum
        else Failed e
    end in
  match s3Get position ("/" ++ blockToS3Key blockNum) attempt with
  | FetchFails e => failed e
  | Undecodable => Died
  | NoData =>
      failed (Finder.mkFetchError
                ("Invalid data for block " ++ JS.BigInt_toString blockNum) "s3")
  | Data raw =>
      match parseS3Block blockNum raw with
      | ParsedBlock block => Block block
      | ParseThrows => Died
      | InexactTimestamp => BlockInexact
      end
  end.

(** The outcomes of the fetches of [Effect.forEach], for the blocks from
    position [position] on. *)
Fixpoint fetchFrom (position : nat) (blockNumbers : list Z) : list Outcome :=
  match blockNumbers with
  | [] => []
  | n :: rest => fetchBlock 3 0 position n :: fetchFrom (S position) rest
  end.

Definition fetchBlocks (blockNumbers : list Z) : Fetched :=
  match blockNumbers with
  | [] => Blocks []
  | _ =>
      let outcomes := fetchFrom 0 blockNumbers in
      match filter (fun o => isFailure o = true) outcomes with
      | [] =>
          match blocksOf outcomes with
          | Some results => Blocks (Rpc.sortByNumber results)
          | None => BlocksInexact
          end
      | causes => Stopped causes
      end
  end.

End WithHashes.

End S3.

(* ===================================================================== *)
(** ** Predicates used to state properties of the fetchers *)
(* ===================================================================== *)

Module FetcherFacts.

(** A list of numbers in ascending order. *)
Fixpoint ascending (l : list Z) : Prop :=
  match l with
  | [] => True
  | x :: rest => (forall y, y ∈ rest -> x <= y) /\ ascending rest
  end.

(** A system transaction as the finder and the anchor store expect it:
    addresses in lower case, the amount in plain decimal. *)
Definition wellFormed (tx : SystemTx.t) : Prop :=
  JS.toLowerCase (SystemTx.from tx) = SystemTx.from tx /\
  JS.toLowerCase (SystemTx.assetRecipient tx) = SystemTx.assetRecipient tx /\
  JS.toLowerCase <$> SystemTx.contractAddress tx = SystemTx.contractAddress tx /\
  exists amount, JS.BigInt (SystemTx.amountWei tx) = Some amount /\
    JS.BigInt_toString amount = SystemTx.amountWei tx.

(** The number that the bytes of a buffer write, most significant byte
    first. *)
Definition bigEndian (bytes : list Byte.byte) : Z :=
  fold_left (fun acc b => 256 * acc + Z.of_N (Byte.to_N b)) bytes 0.

End FetcherFacts.

(* ===================================================================== *)
(** ** Further concrete data *)
(* ===================================================================== *)

Module Samples.

(** A database with one pending transfer. *)
Definition pendingDb : Matcher.Db :=
  {| Matcher.getTransferStats := Some (Matcher.mkStats 1 0 0 1);
     Matcher.pendingTransfers := Some [Scenario.transfer Scenario.userLower] |}.

(** A matcher state with an empty queue that has seen one other hash. *)
Definition idleState : Matcher.State :=
  {| Matcher.queue := [];
     Matcher.fetcherRef := Scenario.chainFetcher;
     Matcher.queuedHashes := ["0xc0de00"] |}.

(** A matcher state whose queue holds one transfer, to be searched with a
    fetcher that fails. *)
Definition failingState : Matcher.State :=
  {| Matcher.queue := [Scenario.transfer Scenario.userLower];
     Matcher.fetcherRef := Scenario.deadFetcher;
     Matcher.queuedHashes := ["0xc0de00"; "0xc0de01"] |}.

(** The transfers collection holding that transfer, still pending. *)
Definition pendingStore : gmap string Transfer.t :=
  fst (TransferStore.insertTransfersBatch ∅ [Scenario.newTransfer "0xc0de01"]).


(** An endpoint that answers the first request with a 503
    and every later one with, for each requested block, a block header
    and one native transfer. *)
Definition busyEndpoint (calls : list Rpc.Call) (request : nat)
  : Finder.BlockFetchError + list Rpc.Result :=
  match request with
  | O => inl (Finder.mkFetchError "HTTP 503" "rpc")
  | S _ =>
      inr (map (fun call =>
                  if String.eqb (Rpc.method call) "eth_getBlockByNumber"
                  then Rpc.RBlock (RpcBlockResponse.mk (Rpc.blockParam call) "0x65f0a1c0" "0xb1")
                  else Rpc.RTxs
                         [RpcSystemTx.mk "0xa1" "0x2222222222222222222222222222222222222222"
                            "0x30D83D444E230F652e2c62cb5697c8dad503987B" "0x"
                            "0xde0b6b3a7640000" "0x0" "0x5208" "0x0" "0x3e7"])
               calls)
  end.

Import Byte.

(** Raw system transactions as the bucket stores them: a native transfer, a
    token transfer with its Transfer log, and a transaction without a
    Legacy body. *)
Definition s3Recipient : S3.BufLike :=
  [x30; xd8; x3d; x44; x4e; x23; x0f; x65; x2e; x2c; x62; xcb; x56; x97; xc8; xda; xd5;
   x03; x98; x7b].

Definition s3Contract : S3.BufLike :=
  [xb8; xce; x59; xfc; x37; x17; xad; xa4; xc0; x2e; xad; xf9; x68; x2a; x9e; x93; x4f;
   x62; x5e; xbb].

Definition s3Native : S3.SysTx :=
  S3.mkSysTx
    (Some (S3.mkLegacy [x03; xe7] [x00] [x00] [x52; x08] s3Recipient
             [x0d; xe0; xb6; xb3; xa7; x64; x00; x00] []))
    [].

Definition s3TransferInput : S3.BufLike :=
  [xa9; x05; x9c; xbb; x00; x00; x00; x00; x00; x00; x00; x00; x00; x00; x00; x00; x30;
   xd8; x3d; x44; x4e; x23; x0f; x65; x2e; x2c; x62; xcb; x56; x97; xc8; xda; xd5; x03;
   x98; x7b; x00; x00; x00; x00; x00; x00; x00; x00; x00; x00; x00; x00; x00; x00; x00;
   x00; x00; x00; x00; x00; x00; x00; x00; x00; x00; x00; x00; x00; x00; x0f; x42; x40].

Definition s3TransferLog : S3.Log :=
  S3.mkLog s3Contract
    (Some [
      [xdd; xf2; x52; xad; x1b; xe2; xc8; x9b; x69; xc2; xb0; x68; xfc; x37; x8d; xaa; x95;
       x2b; xa7; xf1; x63; xc4; xa1; x16; x28; xf5; x5a; x4d; xf5; x23; xb3; xef];
      [x00; x00; x00; x00; x00; x00; x00; x00; x00; x00; x00; x00; x20; x00; x00; x00; x00;
       x00; x00; x00; x00; x00; x00; x00; x00; x00; x00; x00; x00; x00; x00; xc8];
      [x00; x00; x00; x00; x00; x00; x00; x00; x00; x00; x00; x00; x30; xd8; x3d; x44; x4e;
       x23; x0f; x65; x2e; x2c; x62; xcb; x56; x97; xc8; xda; xd5; x03; x98; x7b]])
    [x0f; x42; x40].

Definition s3Erc20 : S3.SysTx :=
  S3.mkSysTx
    (Some (S3.mkLegacy [x03; xe7] [x01] [x00] [x52; x08] s3Contract [x00] s3TransferInput))
    [s3TransferLog].

Definition s3NoLegacy : S3.SysTx := S3.mkSysTx None [].

Definition s3Raw : S3.S3BlockData :=
  S3.mkRaw [xb1; x0c] [x65; xf0; xa1; xc0] [s3Native; s3Erc20; s3NoLegacy].

(** Hashes standing for the ones the library computes. *)
Definition s3Hashes (fields : S3.TxFields) (fromAddress : string) : option (string * string) :=
  Some ("0xa1", "0xe1").

(** A bucket that answers the first attempt for every block with a 503 and
    every later attempt with the raw block. *)
Definition coldBucket (position : nat) (path : string) (attempt : nat) : S3.Response :=
  match attempt with
  | O => S3.FetchFails (Finder.mkFetchError "HTTP 503: Slow Down" "s3")
  | S _ => S3.Data s3Raw
  end.

End Samples.

(* ===================================================================== *)
(** * Properties *)
(* ===================================================================== *)

(** ** JavaScript primitives *)

Lemma lower_ascii_idemp c : JS.lower_ascii (JS.lower_ascii c) = JS.lower_ascii c.
Proof. destruct c as [[] [] [] [] [] [] [] []]; reflexivity. Qed.

Lemma toLowerCase_idemp s : JS.toLowerCase (JS.toLowerCase s) = JS.toLowerCase s.
Proof.
  induction s as [|c s IH]; simpl; [reflexivity|].
  now rewrite lower_ascii_idemp, IH.
Qed.

Lemma normalizeAddress_idemp a : normalizeAddress (normalizeAddress a) = normalizeAddress a.
Proof. apply toLowerCase_idemp. Qed.

Lemma string_of_int_nonempty z : NilZero.string_of_int (Z.to_int z) <> EmptyString.
Proof.
  destruct z as [|p|p]; simpl; try discriminate.
  unfold NilZero.string_of_uint.
  pose proof (DecimalPos.Unsigned.to_uint_nonnil p) as Hp.
  destruct (Pos.to_uint p); simpl; congruence.
Qed.

Lemma BigInt_toString_inv n : JS.BigInt (JS.BigInt_toString n) = Some n.
Proof.
  unfold JS.BigInt, JS.BigInt_toString.
  pose proof (string_of_int_nonempty n) as Hne.
  destruct (NilZero.string_of_int (Z.to_int n)) eqn:E; [congruence|].
  rewrite <- E, NilZero.isi.
  - simpl. now rewrite DecimalZ.of_to.
  - destruct n; simpl; try discriminate.
    intros [= H]. now apply DecimalPos.Unsigned.to_uint_nonnil in H.
  - destruct n; simpl; try discriminate.
    intros [= H]. now apply DecimalPos.Unsigned.to_uint_nonnil in H.
Qed.


(** ** The definitions on the cases of the repository's tests and of the
    specification's scenarios *)

Example parseAmount_whole : Viem.parseUnits "100" 18 = Some 100000000000000000000.
Proof. reflexivity. Qed.

Example parseAmount_decimals : Viem.parseUnits "10827.401816" 6 = Some 10827401816.
Proof. reflexivity. Qed.

Example parseAmount_rounds_up : Viem.parseUnits "1.123456789" 6 = Some 1123457.
Proof. reflexivity. Qed.

Example parseAmount_rounds_down : Viem.parseUnits "1.123456111" 6 = Some 1123456.
Proof. reflexivity. Qed.

Example parseAmount_pads : Viem.parseUnits "1.1" 6 = Some 1100000.
Proof. reflexivity. Qed.

Example parseAmount_malformed : Viem.parseUnits "1.2.3" 6 = None.
Proof. reflexivity. Qed.

Example toLowerCase_address :
  JS.toLowerCase Scenario.userMixed = Scenario.userLower.
Proof. reflexivity. Qed.

Example interpolate_midpoint :
  Estimate.interpolate (Anchor.mk 1000 1700000000000) (Anchor.mk 2000 1700001000000)
    1700000500000 = 1500.
Proof. reflexivity. Qed.

Example extrapolate_fifty_seconds :
  Estimate.extrapolate (Anchor.mk 1000 1000000) 1050000 = 1050.
Proof. reflexivity. Qed.

Example extrapolate_before_genesis : Estimate.extrapolate Estimate.SEED_ANCHOR 0 = 1.
Proof. reflexivity. Qed.

(** Scenario S2: found in the first round, five blocks fetched. *)
Example scenario_S2 :
  Finder.findEvmHash Viem.parseUnits Scenario.s2Env Scenario.s2Transfer Scenario.s2Fetcher
  = Finder.mkRun
      (Finder.Success
         (Finder.FromBlock (Scenario.ownBlock 1500 (Scenario.T + 500000)) Scenario.ownTx)
         (Finder.resultOfBlock (Scenario.ownBlock 1500 (Scenario.T + 500000))
            Scenario.ownTx 5 0))
      [[1498; 1499; 1500; 1501; 1502]] 1.
Proof. vm_compute. reflexivity. Qed.

(** A fetcher that fails makes the finder fail with the fetch error. *)
Example fetch_error_propagates :
  Finder.outcome
    (Finder.findEvmHash Viem.parseUnits Scenario.adjacentEnv
       (Scenario.transfer Scenario.userLower) Scenario.deadFetcher)
  = Finder.FetchFailure (Finder.mkFetchError "HTTP 503" "rpc").
Proof. vm_compute. reflexivity. Qed.

(** Inserting a batch with a repeated hash: one insert, one duplicate. *)
Example insert_batch_with_repeat :
  snd (TransferStore.insertTransfersBatch ∅
         [Scenario.newTransfer "0xc0de01"; Scenario.newTransfer "0xc0de01"])
  = inr (TransferStore.mkBatchResult 1 1).
Proof. vm_compute. reflexivity. Qed.

(** ** C9: the estimate step *)




(** ** C8: the shared backoff deadline *)






(** ** C7: who waits for the backoff *)




(** ** C6: the producer's choice of fetcher *)

Lemma scenario_fetchers_differ : Scenario.chainFetcher <> Scenario.s3Fetcher.
Proof. intros H. apply (f_equal Finder.name) in H. discriminate. Qed.

(** C6 as stated fails: with 11 pending transfers stored (above the
    threshold) and a queue that holds 100 transfers, a producer pass leaves
    the RPC fetcher active. *)
Lemma producer_keeps_fetcher_when_queue_is_filled :
  Matcher.getTransferStats Scenario.backlogDb = Some (Matcher.mkStats 11 0 0 11) /\
  length (Matcher.queue Scenario.busyState) = 100%nat /\
  Matcher.fetcherRef
    (Matcher.producer Scenario.s3Fetcher Scenario.chainFetcher
       Scenario.backlogDb Scenario.busyState) = Scenario.chainFetcher /\
  Matcher.fetcherRef
    (Matcher.producer Scenario.s3Fetcher Scenario.chainFetcher
       Scenario.backlogDb Scenario.busyState) <> Scenario.s3Fetcher.
Proof.
  assert (H : Matcher.producer Scenario.s3Fetcher Scenario.chainFetcher
                Scenario.backlogDb Scenario.busyState = Scenario.busyState)
    by reflexivity.
  rewrite H. repeat split. apply scenario_fetchers_differ.
Qed.

(** C6 (amended): on each producer pass (one per refill interval) that
    finds fewer than 100 transfers in the queue, the active fetcher becomes
    the object-store fetcher when the pending count exceeds 10 and the RPC
    fetcher otherwise, a failed statistics query counting as zero pending; a
    pass that finds 100 or more transfers in the queue changes nothing, the
    active fetcher included. *)
Theorem producer_selects_fetcher_below_watermark :
  forall (s3Fetcher rpcFetcher : Finder.BlockFetcherService)
         (db : Matcher.Db) (st : Matcher.State),
    (Z.of_nat (length (Matcher.queue st)) < Matcher.QUEUE_LOW_WATERMARK ->
       Matcher.fetcherRef (Matcher.producer s3Fetcher rpcFetcher db st)
       = if Matcher.pending (default (Matcher.mkStats 0 0 0 0) (Matcher.getTransferStats db))
            >? Matcher.BACKFILL_THRESHOLD
         then s3Fetcher else rpcFetcher) /\
    (Matcher.QUEUE_LOW_WATERMARK <= Z.of_nat (length (Matcher.queue st)) ->
       Matcher.producer s3Fetcher rpcFetcher db st = st).
Proof.
  intros s3 rpc db st. unfold Matcher.producer. split; intros H.
  - apply Z.ltb_lt in H. rewrite H.
    destruct (Matcher.pending _ >? 0); reflexivity.
  - apply Z.ltb_ge in H. now rewrite H.
Qed.

Lemma producer_selects_fetcher_below_watermark_witness :
  Matcher.fetcherRef
    (Matcher.producer Scenario.s3Fetcher Scenario.chainFetcher Scenario.backlogDb
       (Matcher.mkState [] Scenario.chainFetcher [])) = Scenario.s3Fetcher /\
  Matcher.producer Scenario.s3Fetcher Scenario.chainFetcher Scenario.backlogDb
    Scenario.busyState = Scenario.busyState.
Proof.
  split.
  - apply (proj1 (producer_selects_fetcher_below_watermark Scenario.s3Fetcher
             Scenario.chainFetcher Scenario.backlogDb
             (Matcher.mkState [] Scenario.chainFetcher []))).
    vm_compute. reflexivity.
  - apply (proj2 (producer_selects_fetcher_below_watermark Scenario.s3Fetcher
             Scenario.chainFetcher Scenario.backlogDb Scenario.busyState)).
    vm_compute. discriminate.
Defined.

(** ** The transfer store: bulk insert *)

Lemma insertLoop_all_present (docs : list Transfer.t) :
  forall (s : gmap string Transfer.t) (i : nat),
    (forall d, d ∈ docs -> is_Some (s !! Transfer.hypercoreHash d)) ->
    exists errors,
      TransferStore.insertLoop s i docs = (s, [], errors) /\
      length errors = length docs /\
      Forall TransferStore.isDuplicateError errors.
Proof.
  induction docs as [|d rest IH]; intros s i Hall; simpl.
  - exists []. repeat split. constructor.
  - destruct (Hall d) as [x Hx]; [left|]. rewrite Hx.
    destruct (IH s (S i)) as (errors & -> & Hlen & Hdup).
    { intros d' Hd'. apply Hall. now right. }
    eexists. split; [reflexivity|]. split; [simpl; lia|].
    constructor; [reflexivity | exact Hdup].
Qed.

Lemma insertLoop_spec (docs : list Transfer.t) :
  forall (s s' : gmap string Transfer.t) (i : nat) inserted errors,
    TransferStore.insertLoop s i docs = (s', inserted, errors) ->
    (forall h, is_Some (s !! h) -> s' !! h = s !! h) /\
    (forall d, d ∈ docs -> is_Some (s' !! Transfer.hypercoreHash d)) /\
    (forall h t, s' !! h = Some t -> s !! h = Some t \/ t ∈ docs) /\
    (length inserted + length errors = length docs)%nat /\
    Forall TransferStore.isDuplicateError errors.
Proof.
  induction docs as [|d rest IH]; intros s s' i inserted errors; simpl.
  - intros [= <- <- <-]. repeat split; auto.
    intros d Hd. inversion Hd.
  - destruct (s !! Transfer.hypercoreHash d) as [x|] eqn:Hx.
    + destruct (TransferStore.insertLoop s (S i) rest) as [[s1 ins1] errs1] eqn:E.
      intros [= <- <- <-].
      destruct (IH _ _ _ _ _ E) as (Hkeep & Hin & Hfrom & Hlen & Hdup).
      repeat split.
      * exact Hkeep.
      * intros d' Hd'. apply elem_of_cons in Hd' as [->|Hd']; [|now apply Hin].
        rewrite Hkeep; rewrite Hx; eauto.
      * intros h t Ht. destruct (Hfrom h t Ht); [now left | right; now right].
      * simpl. lia.
      * constructor; [reflexivity | exact Hdup].
    + destruct (TransferStore.insertLoop (<[Transfer.hypercoreHash d:=d]> s) (S i) rest)
        as [[s1 ins1] errs1] eqn:E.
      intros [= <- <- <-].
      destruct (IH _ _ _ _ _ E) as (Hkeep & Hin & Hfrom & Hlen & Hdup).
      repeat split.
      * intros h Hh.
        assert (Hne : Transfer.hypercoreHash d <> h).
        { intros <-. rewrite Hx in Hh. now destruct Hh. }
        rewrite Hkeep; rewrite lookup_insert_ne; auto.
      * intros d' Hd'. apply elem_of_cons in Hd' as [->|Hd']; [|now apply Hin].
        rewrite Hkeep; rewrite lookup_insert_eq; eauto.
      * intros h t Ht. destruct (Hfrom h t Ht) as [Hs|Hr]; [|right; now right].
        destruct (decide (Transfer.hypercoreHash d = h)) as [<-|Hne].
        -- rewrite lookup_insert_eq in Hs. injection Hs as <-. right; now left.
        -- rewrite lookup_insert_ne in Hs by exact Hne. now left.
      * simpl. lia.
      * exact Hdup.
Qed.

Lemma insertTransfersBatch_store (s : gmap string Transfer.t) batch :
  fst (TransferStore.insertTransfersBatch s batch)
  = fst (fst (TransferStore.insertLoop s O (map TransferStore.docOfNew batch))).
Proof.
  destruct batch as [|t rest]; [reflexivity|].
  unfold TransferStore.insertTransfersBatch, TransferStore.insertMany.
  destruct (TransferStore.insertLoop s 0 (map TransferStore.docOfNew (t :: rest)))
    as [[s1 ins] errs].
  destruct errs as [|e errs]; [reflexivity|]. simpl.
  repeat case_bool_decide; simpl; try reflexivity.
  destruct (forallb _ errs); reflexivity.
Qed.

Lemma forallb_duplicates errors :
  Forall TransferStore.isDuplicateError errors ->
  forallb (fun e => bool_decide (TransferStore.err_code e = Some TransferStore.DUPLICATE_KEY))
    errors = true.
Proof.
  induction 1 as [|e errors He _ IH]; simpl; [reflexivity|].
  rewrite IH, andb_true_r. now apply bool_decide_eq_true.
Qed.

Lemma insertTransfersBatch_all_present (s : gmap string Transfer.t) batch :
  (forall t, t ∈ batch -> is_Some (s !! TransferStore.hypercoreHash t)) ->
  TransferStore.insertTransfersBatch s batch
  = (s, inr (TransferStore.mkBatchResult 0 (Z.of_nat (length batch)))).
Proof.
  intros Hall. destruct batch as [|t rest]; [reflexivity|].
  unfold TransferStore.insertTransfersBatch, TransferStore.insertMany.
  destruct (insertLoop_all_present (map TransferStore.docOfNew (t :: rest)) s O)
    as (errors & -> & Hlen & Hdup).
  { intros d Hd. apply list_elem_of_fmap in Hd as (t' & -> & Ht'). now apply Hall. }
  rewrite length_map in Hlen.
  destruct errors as [|e errors]; [discriminate|].
  pose proof (Forall_inv Hdup) as He. unfold TransferStore.isDuplicateError in He.
  cbn [TransferStore.code TransferStore.insertedCount TransferStore.writeErrors].
  rewrite He. rewrite bool_decide_eq_false_2 by (intros H; now apply H).
  cbn [from_option id]. rewrite (forallb_duplicates _ Hdup). cbn [negb].
  now rewrite Hlen.
Qed.

(** ** C5: the bulk insert is idempotent *)

(** C5: inserting a batch a second time leaves the stored transfers as the
    first call left them and answers [{inserted: 0, duplicates: |batch|}];
    more generally a batch whose hashes are all stored succeeds with
    [{inserted: 0, duplicates: n}] and changes nothing; and the call never
    fails on duplicates: every transfer of a batch is counted as inserted or
    as duplicate. *)
Theorem insertTransfersBatch_idempotent :
  (forall (s : gmap string Transfer.t) (batch : list TransferStore.NewTransfer),
     let s1 := fst (TransferStore.insertTransfersBatch s batch) in
     TransferStore.insertTransfersBatch s1 batch
     = (s1, inr (TransferStore.mkBatchResult 0 (Z.of_nat (length batch))))) /\
  (forall (s : gmap string Transfer.t) (batch : list TransferStore.NewTransfer),
     (forall t, t ∈ batch -> is_Some (s !! TransferStore.hypercoreHash t)) ->
     TransferStore.insertTransfersBatch s batch
     = (s, inr (TransferStore.mkBatchResult 0 (Z.of_nat (length batch))))) /\
  (forall (s : gmap string Transfer.t) (batch : list TransferStore.NewTransfer),
     exists r, snd (TransferStore.insertTransfersBatch s batch) = inr r /\
               TransferStore.inserted r + TransferStore.duplicates r
               = Z.of_nat (length batch)).
Proof.
  split; [|split].
  - intros s batch s1. apply insertTransfersBatch_all_present.
    intros t Ht. unfold s1. rewrite insertTransfersBatch_store.
    destruct (TransferStore.insertLoop s 0 (map TransferStore.docOfNew batch))
      as [[s' ins] errs] eqn:E.
    destruct (insertLoop_spec _ _ _ _ _ _ E) as (_ & Hin & _).
    apply (Hin (TransferStore.docOfNew t)). apply list_elem_of_fmap. eauto.
  - apply insertTransfersBatch_all_present.
  - intros s batch. destruct batch as [|t rest].
    { eexists. split; reflexivity. }
    unfold TransferStore.insertTransfersBatch, TransferStore.insertMany.
    destruct (TransferStore.insertLoop s 0 (map TransferStore.docOfNew (t :: rest)))
      as [[s' ins] errs] eqn:E.
    destruct (insertLoop_spec _ _ _ _ _ _ E) as (_ & _ & _ & Hlen & Hdup).
    rewrite length_map in Hlen.
    destruct errs as [|e errs].
    + eexists. split; [reflexivity|]. simpl in *. lia.
    + pose proof (Forall_inv Hdup) as He. unfold TransferStore.isDuplicateError in He.
      cbn [TransferStore.code TransferStore.insertedCount TransferStore.writeErrors].
      rewrite He. rewrite bool_decide_eq_false_2 by (intros H; now apply H).
      cbn [from_option id]. rewrite (forallb_duplicates _ Hdup). cbn [negb].
      eexists. split; [reflexivity|]. simpl in *. lia.
Qed.

Lemma insertTransfersBatch_idempotent_witness :
  TransferStore.insertTransfersBatch Scenario.matchedStore
    [Scenario.newTransfer "0xc0de01"; Scenario.newTransfer "0xc0de01"]
  = (Scenario.matchedStore, inr (TransferStore.mkBatchResult 0 2)).
Proof.
  apply (proj1 (proj2 insertTransfersBatch_idempotent) Scenario.matchedStore
           [Scenario.newTransfer "0xc0de01"; Scenario.newTransfer "0xc0de01"]).
  intros t Ht. apply elem_of_cons in Ht as [->|Ht];
    [|apply elem_of_cons in Ht as [->|Ht]; [|inversion Ht]];
    vm_compute; eauto.
Defined.

(** ** C4: status transitions *)

(** C4 as stated fails: [markTransferFailed] applied to a transfer that is
    MATCHED makes it FAILED. *)
Lemma matched_transfer_can_be_marked_failed :
  TransferStore.statusOf Scenario.matchedStore "0xc0de01" = Some MATCHED /\
  TransferStore.statusOf
    (TransferStore.apply
       (TransferStore.OpMarkFailed "0xc0de01" "Not found after searching 5 blocks")
       Scenario.matchedStore) "0xc0de01" = Some FAILED.
Proof. split; vm_compute; reflexivity. Qed.

Lemma insert_batch_keeps_existing (s : gmap string Transfer.t) batch h t :
  s !! h = Some t ->
  fst (TransferStore.insertTransfersBatch s batch) !! h = Some t.
Proof.
  intros Hs. rewrite insertTransfersBatch_store.
  destruct (TransferStore.insertLoop s 0 (map TransferStore.docOfNew batch))
    as [[s' ins] errs] eqn:E.
  destruct (insertLoop_spec _ _ _ _ _ _ E) as (Hkeep & _).
  simpl. rewrite Hkeep; rewrite Hs; eauto.
Qed.

Lemma insert_batch_creates_pending (s : gmap string Transfer.t) batch h t :
  s !! h = None ->
  fst (TransferStore.insertTransfersBatch s batch) !! h = Some t ->
  Transfer.status t = PENDING.
Proof.
  intros Hs. rewrite insertTransfersBatch_store.
  destruct (TransferStore.insertLoop s 0 (map TransferStore.docOfNew batch))
    as [[s' ins] errs] eqn:E.
  destruct (insertLoop_spec _ _ _ _ _ _ E) as (_ & _ & Hfrom & _).
  simpl. intros Ht. destruct (Hfrom h t Ht) as [Hold|Hnew]; [congruence|].
  apply list_elem_of_fmap in Hnew as (n & -> & _). reflexivity.
Qed.

(** C4 (amended): under [insertTransfersBatch], [markTransferMatched] and
    [markTransferFailed] a stored transfer is never removed and its status
    either stays as it is, or becomes MATCHED by a [markTransferMatched] on
    its hash, or becomes FAILED by a [markTransferFailed] on its hash; so a
    status never returns to PENDING and a PENDING transfer moves only to
    MATCHED or FAILED.  [insertTransfersBatch] leaves every stored transfer
    as it is and creates transfers as PENDING.  The two mark operations
    select by hash alone, whatever the current status. *)
Theorem status_transitions_of_store_operations :
  forall (op : TransferStore.Op) (s : gmap string Transfer.t) (h : string),
    (forall t, s !! h = Some t ->
       exists t', TransferStore.apply op s !! h = Some t' /\
         (Transfer.status t' = Transfer.status t \/
          (exists evmData, op = TransferStore.OpMarkMatched h evmData) /\
            Transfer.status t' = MATCHED \/
          (exists reason, op = TransferStore.OpMarkFailed h reason) /\
            Transfer.status t' = FAILED) /\
         (Transfer.status t <> PENDING -> Transfer.status t' <> PENDING) /\
         (forall batch, op = TransferStore.OpInsertBatch batch -> t' = t)) /\
    (forall t', s !! h = None -> TransferStore.apply op s !! h = Some t' ->
       Transfer.status t' = PENDING /\
       exists batch, op = TransferStore.OpInsertBatch batch) /\
    (forall t evmData reason, s !! h = Some t ->
       TransferStore.statusOf (TransferStore.markTransferMatched h evmData s) h
         = Some MATCHED /\
       TransferStore.statusOf (TransferStore.markTransferFailed h reason s) h
         = Some FAILED).
Proof.
  intros op s h. split; [|split].
  - intros t Hs. destruct op as [batch|h' evmData|h' reason]; simpl.
    + exists t. split; [now apply insert_batch_keeps_existing|].
      repeat split; auto.
    + unfold TransferStore.markTransferMatched.
      destruct (decide (h' = h)) as [->|Hne].
      * exists (TransferStore.setMatched evmData t).
        rewrite lookup_alter_eq, Hs. split; [reflexivity|].
        split; [right; left; split; [eauto|reflexivity]|].
        split; [intros _; discriminate | intros batch; discriminate].
      * exists t. rewrite lookup_alter_ne by exact Hne.
        repeat split; auto.
    + unfold TransferStore.markTransferFailed.
      destruct (decide (h' = h)) as [->|Hne].
      * exists (TransferStore.setFailed reason t).
        rewrite lookup_alter_eq, Hs. split; [reflexivity|].
        split; [right; right; split; [eauto|reflexivity]|].
        split; [intros _; discriminate | intros batch; discriminate].
      * exists t. rewrite lookup_alter_ne by exact Hne.
        repeat split; auto.
  - intros t' Hs Ht'. destruct op as [batch|h' evmData|h' reason]; simpl in Ht'.
    + split; [eapply insert_batch_creates_pending; eauto | eauto].
    + unfold TransferStore.markTransferMatched in Ht'.
      destruct (decide (h' = h)) as [->|Hne].
      * rewrite lookup_alter_eq, Hs in Ht'. discriminate.
      * rewrite lookup_alter_ne in Ht' by exact Hne. congruence.
    + unfold TransferStore.markTransferFailed in Ht'.
      destruct (decide (h' = h)) as [->|Hne].
      * rewrite lookup_alter_eq, Hs in Ht'. discriminate.
      * rewrite lookup_alter_ne in Ht' by exact Hne. congruence.
  - intros t evmData reason Hs.
    unfold TransferStore.statusOf, TransferStore.markTransferMatched,
      TransferStore.markTransferFailed.
    rewrite !lookup_alter_eq, Hs. split; reflexivity.
Qed.

Lemma status_transitions_of_store_operations_witness :
  (exists t',
     TransferStore.apply
       (TransferStore.OpInsertBatch [Scenario.newTransfer "0xc0de01"])
       Scenario.matchedStore !! "0xc0de01" = Some t' /\
     Transfer.status t' = MATCHED) /\
  Transfer.status (TransferStore.docOfNew (Scenario.newTransfer "0xc0de02")) = PENDING /\
  TransferStore.statusOf
    (TransferStore.markTransferFailed "0xc0de01" "Not found after searching 5 blocks"
       Scenario.matchedStore) "0xc0de01" = Some FAILED.
Proof.
  split; [|split].
  - destruct (proj1 (status_transitions_of_store_operations
                       (TransferStore.OpInsertBatch [Scenario.newTransfer "0xc0de01"])
                       Scenario.matchedStore "0xc0de01")
                (TransferStore.setMatched Scenario.evmData
                   (TransferStore.docOfNew (Scenario.newTransfer "0xc0de01"))))
      as (t' & Ht' & _ & _ & Hsame).
    + vm_compute. reflexivity.
    + exists t'. split; [exact Ht'|]. rewrite (Hsame _ eq_refl). reflexivity.
  - apply (proj1 (proj2 (status_transitions_of_store_operations
                           (TransferStore.OpInsertBatch [Scenario.newTransfer "0xc0de02"])
                           Scenario.matchedStore "0xc0de02")));
      vm_compute; reflexivity.
  - apply (proj2 (proj2 (status_transitions_of_store_operations
                           (TransferStore.OpInsertBatch [])
                           Scenario.matchedStore "0xc0de01"))
             (TransferStore.setMatched Scenario.evmData
                (TransferStore.docOfNew (Scenario.newTransfer "0xc0de01")))
             Scenario.evmData "Not found after searching 5 blocks").
    vm_compute. reflexivity.
Defined.

(** ** The anchor store: queries and inserts *)

Lemma earliest_Some docs d :
  AnchorStore.earliest docs = Some d ->
  d ∈ docs /\
  forall e, e ∈ docs ->
    SystemTransaction.blockTimestamp d <= SystemTransaction.blockTimestamp e.
Proof.
  revert d. induction docs as [|x rest IH]; intros d; simpl; [discriminate|].
  destruct (AnchorStore.earliest rest) as [e|] eqn:E.
  - destruct (IH e eq_refl) as [Hin Hmin].
    destruct (SystemTransaction.blockTimestamp e <? SystemTransaction.blockTimestamp x)
      eqn:Hlt; intros [= <-].
    + apply Z.ltb_lt in Hlt. split; [now right|].
      intros y Hy. apply elem_of_cons in Hy as [->|Hy]; [lia | now apply Hmin].
    + apply Z.ltb_ge in Hlt. split; [now left|].
      intros y Hy. apply elem_of_cons in Hy as [->|Hy]; [lia|].
      specialize (Hmin y Hy). lia.
  - intros [= <-]. split; [now left|].
    intros y Hy. apply elem_of_cons in Hy as [->|Hy]; [lia|].
    destruct rest; [inversion Hy|]. simpl in E.
    destruct (AnchorStore.earliest rest); [destruct (_ <? _)|]; discriminate.
Qed.

Lemma earliest_is_Some docs : docs <> [] -> is_Some (AnchorStore.earliest docs).
Proof.
  destruct docs as [|x rest]; [congruence|]. intros _. simpl.
  destruct (AnchorStore.earliest rest); [destruct (_ <? _)|]; eauto.
Qed.

Lemma matchesQuery_true params d :
  AnchorStore.matchesQuery params d = true <->
  SystemTransaction.from d = JS.toLowerCase (AnchorStore.from params) /\
  SystemTransaction.assetRecipient d = JS.toLowerCase (AnchorStore.assetRecipient params) /\
  SystemTransaction.amountWei d = AnchorStore.amountWei params /\
  AnchorStore.minTime params <= SystemTransaction.blockTimestamp d /\
  SystemTransaction.blockTimestamp d <= AnchorStore.maxTime params.
Proof.
  unfold AnchorStore.matchesQuery.
  rewrite !andb_true_iff, !bool_decide_eq_true, !Z.leb_le. tauto.
Qed.

Lemma findMatchingTx_Some params docs d :
  AnchorStore.findMatchingTx params docs = Some d ->
  d ∈ docs /\ AnchorStore.matchesQuery params d = true /\
  forall e, e ∈ docs -> AnchorStore.matchesQuery params e = true ->
    SystemTransaction.blockTimestamp d <= SystemTransaction.blockTimestamp e.
Proof.
  unfold AnchorStore.findMatchingTx. intros H.
  apply earliest_Some in H as [Hin Hmin].
  apply list_elem_of_filter in Hin as [Hq Hin].
  repeat split; auto.
  intros e He Hqe. apply Hmin. now apply list_elem_of_filter.
Qed.

Lemma findMatchingTx_finds params docs d :
  d ∈ docs -> AnchorStore.matchesQuery params d = true ->
  is_Some (AnchorStore.findMatchingTx params docs).
Proof.
  intros Hin Hq. apply earliest_is_Some. intros Hnil.
  assert (H : d ∈ filter (fun d => AnchorStore.matchesQuery params d = true) docs)
    by now apply list_elem_of_filter.
  rewrite Hnil in H. inversion H.
Qed.

Lemma insertMany_elem (docs : list SystemTransaction.t) :
  forall store d, d ∈ AnchorStore.insertMany store docs -> d ∈ store \/ d ∈ docs.
Proof.
  induction docs as [|x rest IH]; intros store d; simpl; [now left|].
  case_bool_decide.
  - intros Hd. destruct (IH _ _ Hd); [now left | right; now right].
  - intros Hd. destruct (IH _ _ Hd) as [Hs|Hr]; [|right; now right].
    apply elem_of_app in Hs as [Hs|Hs]; [now left|].
    apply list_elem_of_singleton in Hs as ->. right; now left.
Qed.

Lemma docOfTx_lowercased block tx : Finder.lowercased (AnchorStore.docOfTx block tx).
Proof.
  unfold Finder.lowercased, AnchorStore.docOfTx. simpl.
  rewrite !toLowerCase_idemp. repeat split.
  destruct (SystemTx.contractAddress tx); simpl; [|reflexivity].
  now rewrite toLowerCase_idemp.
Qed.

Lemma allDocs_lowercased blocks d : d ∈ AnchorStore.allDocs blocks -> Finder.lowercased d.
Proof.
  unfold AnchorStore.allDocs. intros H.
  apply list_elem_of_In, in_flat_map in H as (block & _ & H).
  apply list_elem_of_In, list_elem_of_fmap in H as (tx & -> & _).
  apply docOfTx_lowercased.
Qed.

(** ** The finder: the scan of fetched blocks *)

Lemma matchesTx_true tx user systemAddress expectedAmount :
  Finder.matchesTx tx user systemAddress expectedAmount = Some true <->
  JS.toLowerCase (SystemTx.from tx) = systemAddress /\
  JS.toLowerCase (SystemTx.assetRecipient tx) = user /\
  JS.BigInt (SystemTx.amountWei tx) = Some expectedAmount.
Proof.
  unfold Finder.matchesTx. repeat case_bool_decide; split.
  - discriminate.
  - intros (? & ? & ?). congruence.
  - discriminate.
  - intros (? & ? & ?). congruence.
  - destruct (JS.BigInt (SystemTx.amountWei tx)) as [a|]; simpl; [|discriminate].
    intros [= Ha]. apply bool_decide_eq_true in Ha as ->.
    repeat split; [now apply dec_stable | now apply dec_stable].
  - intros (H1 & H2 & ->). simpl. now rewrite bool_decide_eq_true_2.
Qed.

Lemma searchTxs_Hit block txs user systemAddress expectedAmount b tx :
  Finder.searchTxs block txs user systemAddress expectedAmount = Finder.Hit b tx ->
  b = block /\ tx ∈ txs /\
  Finder.matchesTx tx user systemAddress expectedAmount = Some true.
Proof.
  induction txs as [|x rest IH]; simpl; [discriminate|].
  destruct (Finder.matchesTx x user systemAddress expectedAmount) as [[|]|] eqn:E.
  - intros [= <- <-]. repeat split; [now left | exact E].
  - intros H. destruct (IH H) as (? & ? & ?). repeat split; auto. now right.
  - discriminate.
Qed.

Lemma searchBlocks_Hit blocks user systemAddress expectedAmount b tx :
  Finder.searchBlocks blocks user systemAddress expectedAmount = Finder.Hit b tx ->
  b ∈ blocks /\ tx ∈ BlockData.systemTxs b /\
  Finder.matchesTx tx user systemAddress expectedAmount = Some true.
Proof.
  induction blocks as [|x rest IH]; simpl; [discriminate|].
  destruct (Finder.searchTxs x (BlockData.systemTxs x) user systemAddress expectedAmount)
    as [b' tx'| |] eqn:E.
  - intros [= <- <-]. apply searchTxs_Hit in E as (-> & Hin & Hm).
    repeat split; auto. now left.
  - intros H. destruct (IH H) as (? & ? & ?). repeat split; auto. now right.
  - discriminate.
Qed.

(** ** The finder: the search loop *)

Lemma tighten_bounds targetTime blocks lowerBound upperBound lowerBound' upperBound' :
  Finder.tighten targetTime blocks lowerBound upperBound = (lowerBound', upperBound') ->
  Anchor.block lowerBound <= Anchor.block lowerBound' /\
  forall upper, upperBound = Some upper ->
    exists upper', upperBound' = Some upper' /\ Anchor.block upper' <= Anchor.block upper.
Proof.
  unfold Finder.tighten.
  destruct (Finder.candidates targetTime blocks) as [newLower newUpper].
  intros [= <- <-]. split.
  - destruct newLower as [b|]; [|lia].
    destruct (BlockData.number b >? Anchor.block lowerBound) eqn:E; simpl; lia.
  - intros upper ->. destruct newUpper as [b|]; [|exists upper; split; [reflexivity|lia]].
    destruct (BlockData.number b <? Anchor.block upper) eqn:E.
    + apply Z.ltb_lt in E. eexists. split; [reflexivity|]. simpl. lia.
    + exists upper. split; [reflexivity|lia].
Qed.

Lemma converged_tighten targetTime blocks lowerBound upperBound lowerBound' upperBound' :
  Finder.converged lowerBound upperBound = true ->
  Finder.tighten targetTime blocks lowerBound upperBound = (lowerBound', upperBound') ->
  Finder.converged lowerBound' upperBound' = true.
Proof.
  intros Hc Ht. apply tighten_bounds in Ht as [Hlo Hup].
  destruct upperBound as [upper|]; [|discriminate].
  destruct (Hup upper eq_refl) as (upper' & -> & Hle).
  simpl in *. apply Z.leb_le in Hc. apply Z.leb_le. lia.
Qed.

Section SearchLoop.

Variables (fetcher : Finder.BlockFetcherService) (targetTime : Z)
          (user systemAddress : string) (expectedAmount : Z).

Abbreviation loop :=
  (Finder.searchRounds fetcher targetTime user systemAddress expectedAmount).

Lemma searchRounds_calls remaining :
  forall round lowerBound upperBound blocksSearched,
    (length (Finder.fetchCalls (loop remaining round lowerBound upperBound blocksSearched))
     <= Finder.roundsEntered (loop remaining round lowerBound upperBound blocksSearched))%nat /\
    (Finder.roundsEntered (loop remaining round lowerBound upperBound blocksSearched)
     <= remaining)%nat.
Proof.
  induction remaining as [|remaining IH]; intros round lo up searched; simpl;
    [split; auto|].
  destruct (Finder.blockNumbers lo up targetTime) as [|n nums]; simpl;
    [split; auto with arith|].
  destruct (Finder.fetchBlocks fetcher round (n :: nums)) as [e|blocks]; simpl;
    [split; auto with arith|].
  destruct blocks as [|b blocks].
  { simpl. destruct (IH (S round) lo up (searched + Z.of_nat 0)) as [H1 H2].
    split; now apply le_n_S. }
  destruct (Finder.searchBlocks (b :: blocks) user systemAddress expectedAmount);
    simpl.
  1, 3: split; auto with arith.
  destruct (Finder.tighten targetTime (b :: blocks) lo up) as [lo' up'].
  destruct (Finder.converged lo' up'); simpl; [split; auto with arith|].
  destruct (IH (S round) lo' up' (searched + Z.of_nat (length (b :: blocks))))
    as [H1 H2].
  split; now apply le_n_S.
Qed.

Lemma searchRounds_success remaining :
  forall round lowerBound upperBound blocksSearched m r,
    Finder.outcome (loop remaining round lowerBound upperBound blocksSearched)
      = Finder.Success m r ->
    exists b tx idx nums blocks,
      m = Finder.FromBlock b tx /\
      Finder.fetchBlocks fetcher idx nums = inr blocks /\
      b ∈ blocks /\ tx ∈ BlockData.systemTxs b /\
      Finder.matchesTx tx user systemAddress expectedAmount = Some true /\
      r = Finder.resultOfBlock b tx (Finder.blocksSearched r) idx /\
      (round <= idx < round + remaining)%nat.
Proof.
  induction remaining as [|remaining IH]; intros round lo up searched m r; simpl;
    [discriminate|].
  destruct (Finder.blockNumbers lo up targetTime) as [|n nums]; simpl; [discriminate|].
  destruct (Finder.fetchBlocks fetcher round (n :: nums)) as [e|blocks] eqn:Hf; simpl;
    [discriminate|].
  destruct blocks as [|b0 blocks].
  { simpl. intros H. destruct (IH _ _ _ _ _ _ H) as (b & tx & idx & ns & bs & ?).
    exists b, tx, idx, ns, bs. intuition lia. }
  destruct (Finder.searchBlocks (b0 :: blocks) user systemAddress expectedAmount)
    as [b tx| |] eqn:Hs; simpl.
  - intros [= <- <-]. apply searchBlocks_Hit in Hs as (Hb & Htx & Hm).
    exists b, tx, round, (n :: nums), (b0 :: blocks).
    repeat split; auto; lia.
  - destruct (Finder.tighten targetTime (b0 :: blocks) lo up) as [lo' up'].
    destruct (Finder.converged lo' up'); simpl; [discriminate|].
    intros H. destruct (IH _ _ _ _ _ _ H) as (b & tx & idx & ns & bs & ?).
    exists b, tx, idx, ns, bs. intuition lia.
  - discriminate.
Qed.

Lemma searchRounds_no_blocks_in_range remaining round lowerBound upperBound blocksSearched :
  Finder.blockNumbers lowerBound upperBound targetTime = [] ->
  loop (S remaining) round lowerBound upperBound blocksSearched
  = Finder.mkRun (Finder.NotFoundError blocksSearched) [] 1.
Proof.
  intros H. simpl. now rewrite H.
Qed.

Lemma searchRounds_stops_when_converged remaining round lowerBound upperBound
    blocksSearched blocks :
  Finder.blockNumbers lowerBound upperBound targetTime <> [] ->
  Finder.fetchBlocks fetcher round (Finder.blockNumbers lowerBound upperBound targetTime)
    = inr blocks ->
  blocks <> [] ->
  Finder.searchBlocks blocks user systemAddress expectedAmount = Finder.Miss ->
  Finder.converged lowerBound upperBound = true \/
  Finder.converged (fst (Finder.tighten targetTime blocks lowerBound upperBound))
                   (snd (Finder.tighten targetTime blocks lowerBound upperBound)) = true ->
  loop (S remaining) round lowerBound upperBound blocksSearched
  = Finder.mkRun (Finder.NotFoundError (blocksSearched + Z.of_nat (length blocks)))
      [Finder.blockNumbers lowerBound upperBound targetTime] 1.
Proof.
  intros Hnums Hf Hne Hs Hc. simpl.
  destruct (Finder.blockNumbers lowerBound upperBound targetTime) as [|n nums];
    [congruence|].
  rewrite Hf. destruct blocks as [|b blocks]; [congruence|]. rewrite Hs.
  destruct (Finder.tighten targetTime (b :: blocks) lowerBound upperBound)
    as [lo' up'] eqn:Ht.
  assert (Hc' : Finder.converged lo' up' = true).
  { destruct Hc as [Hc|Hc]; [eapply converged_tighten; eauto | exact Hc]. }
  now rewrite Hc'.
Qed.

Lemma searchRounds_without_match remaining :
  (forall idx nums, exists blocks,
     Finder.fetchBlocks fetcher idx nums = inr blocks /\
     Finder.searchBlocks blocks user systemAddress expectedAmount = Finder.Miss) ->
  forall round lowerBound upperBound blocksSearched,
    exists n,
      Finder.outcome (loop remaining round lowerBound upperBound blocksSearched)
      = Finder.NotFoundError n.
Proof.
  intros Hfetch.
  induction remaining as [|remaining IH]; intros round lo up searched; simpl; [eauto|].
  destruct (Finder.blockNumbers lo up targetTime) as [|n nums]; simpl; [eauto|].
  destruct (Hfetch round (n :: nums)) as (blocks & -> & Hmiss).
  destruct blocks as [|b blocks]; [apply IH|]. rewrite Hmiss.
  destruct (Finder.tighten targetTime (b :: blocks) lo up) as [lo' up'].
  destruct (Finder.converged lo' up'); simpl; [eauto | apply IH].
Qed.

End SearchLoop.

(** ** C1: a successful find satisfies the match predicate *)




(** ** C2: the cache probe *)

Lemma inProbeWindow_query transfer expectedAmount d :
  Finder.inProbeWindow transfer expectedAmount d <->
  AnchorStore.matchesQuery
    (Finder.probeParams (Transfer.hypercoreTime transfer)
       (normalizeAddress (Transfer.user transfer))
       (normalizeAddress (Transfer.systemAddress transfer)) expectedAmount) d = true.
Proof.
  rewrite matchesQuery_true. unfold Finder.inProbeWindow, Finder.probeParams,
    normalizeAddress, Estimate.DB_SEARCH_WINDOW_MS. simpl.
  rewrite !toLowerCase_idemp. tauto.
Qed.



(** ** C3: the search loop is bounded *)

(** C3: for every transfer and fetcher the search loop of the finder
    enters at most [MAX_ROUNDS = 20] rounds, calls the fetcher at most once
    per round, and a successful result reports between 0 and 20 rounds.  In
    any round whose fetch returns blocks among which no match is found, if
    the upper bound is at most the lower bound plus one, before the round
    (so in particular for initial bounds that are equal or adjacent) or
    after its tightening, the loop stops in that round with NotFound; it
    also stops with NotFound, without fetching, when no block number lies in
    range; and whatever the bounds are, a search in which no fetch fails and
    no fetched batch holds a match ends with NotFound. *)
Theorem search_stops_within_max_rounds :
  (forall (parseAmount : string -> Z -> option Z) (env : Finder.Env)
          (transfer : Transfer.t) (fetcher : Finder.BlockFetcherService),
     let run := Finder.findEvmHash parseAmount env transfer fetcher in
     (Finder.roundsEntered run <= Estimate.MAX_ROUNDS)%nat /\
     (length (Finder.fetchCalls run) <= Finder.roundsEntered run)%nat /\
     forall m r, Finder.outcome run = Finder.Success m r ->
       0 <= Finder.rounds r <= Z.of_nat Estimate.MAX_ROUNDS) /\
  (forall (fetcher : Finder.BlockFetcherService) (targetTime : Z)
          (user systemAddress : string) (expectedAmount : Z)
          (remaining round : nat) (lowerBound : Anchor.t) (upperBound : option Anchor.t)
          (blocksSearched : Z) (blocks : list BlockData.t),
     let nums := Finder.blockNumbers lowerBound upperBound targetTime in
     nums <> [] ->
     Finder.fetchBlocks fetcher round nums = inr blocks ->
     blocks <> [] ->
     Finder.searchBlocks blocks user systemAddress expectedAmount = Finder.Miss ->
     Finder.converged lowerBound upperBound = true \/
     Finder.converged (fst (Finder.tighten targetTime blocks lowerBound upperBound))
                      (snd (Finder.tighten targetTime blocks lowerBound upperBound)) = true ->
     Finder.searchRounds fetcher targetTime user systemAddress expectedAmount
       (S remaining) round lowerBound upperBound blocksSearched
     = Finder.mkRun (Finder.NotFoundError (blocksSearched + Z.of_nat (length blocks)))
         [nums] 1) /\
  (forall (fetcher : Finder.BlockFetcherService) (targetTime : Z)
          (user systemAddress : string) (expectedAmount : Z)
          (remaining round : nat) (lowerBound : Anchor.t) (upperBound : option Anchor.t)
          (blocksSearched : Z),
     Finder.blockNumbers lowerBound upperBound targetTime = [] ->
     Finder.searchRounds fetcher targetTime user systemAddress expectedAmount
       (S remaining) round lowerBound upperBound blocksSearched
     = Finder.mkRun (Finder.NotFoundError blocksSearched) [] 1) /\
  (forall (fetcher : Finder.BlockFetcherService) (targetTime : Z)
          (user systemAddress : string) (expectedAmount : Z)
          (remaining round : nat) (lowerBound : Anchor.t) (upperBound : option Anchor.t)
          (blocksSearched : Z),
     (forall idx nums, exists blocks,
        Finder.fetchBlocks fetcher idx nums = inr blocks /\
        Finder.searchBlocks blocks user systemAddress expectedAmount = Finder.Miss) ->
     exists n,
       Finder.outcome
         (Finder.searchRounds fetcher targetTime user systemAddress expectedAmount
            remaining round lowerBound upperBound blocksSearched)
       = Finder.NotFoundError n).
Proof.
  split; [|split; [|split]].
  - intros parseAmount env transfer fetcher run. subst run.
    unfold Finder.findEvmHash.
    destruct (Finder.lookupAsset env _) as [asset|];
      [|simpl; split; [lia|split; [lia|discriminate]]].
    destruct (parseAmount _ _) as [expectedAmount|];
      [|simpl; split; [lia|split; [lia|discriminate]]].
    assert (Hloop : forall lo up,
      let run := Finder.searchRounds fetcher (Transfer.hypercoreTime transfer)
           (normalizeAddress (Transfer.user transfer))
           (normalizeAddress (Transfer.systemAddress transfer)) expectedAmount
           Estimate.MAX_ROUNDS 0 lo up 0 in
      (Finder.roundsEntered run <= Estimate.MAX_ROUNDS)%nat /\
      (length (Finder.fetchCalls run) <= Finder.roundsEntered run)%nat /\
      forall m r, Finder.outcome run = Finder.Success m r ->
        0 <= Finder.rounds r <= Z.of_nat Estimate.MAX_ROUNDS).
    { intros lo up run.
      destruct (searchRounds_calls fetcher (Transfer.hypercoreTime transfer)
                  (normalizeAddress (Transfer.user transfer))
                  (normalizeAddress (Transfer.systemAddress transfer)) expectedAmount
                  Estimate.MAX_ROUNDS 0 lo up 0) as [H1 H2].
      split; [exact H2|]. split; [exact H1|].
      intros m r H. apply searchRounds_success in H
        as (b & tx & idx & nums & blocks & _ & _ & _ & _ & _ & -> & Hidx).
      simpl. lia. }
    destruct (Finder.probeStore env) as [docs|].
    + destruct (AnchorStore.findMatchingTx _ docs) as [d|].
      * simpl. split; [lia|]. split; [lia|]. intros m r [= <- <-]. simpl. lia.
      * apply Hloop.
    + apply Hloop.
  - intros. now apply searchRounds_stops_when_converged.
  - intros. now apply searchRounds_no_blocks_in_range.
  - intros. now apply searchRounds_without_match.
Qed.

Lemma search_stops_within_max_rounds_witness :
  Finder.searchRounds Scenario.chainFetcher (Scenario.T + 1000)
    Scenario.userLower Scenario.HYPE_SYSTEM_ADDRESS 100500000000000000000
    20 0 (Anchor.mk 1500 Scenario.T) (Some (Anchor.mk 1501 (Scenario.T + 2000))) 0
  = Finder.mkRun (Finder.NotFoundError 2) [[1500; 1501]] 1 /\
  Finder.searchRounds Scenario.chainFetcher (Scenario.T + 1000)
    Scenario.userLower Scenario.HYPE_SYSTEM_ADDRESS 100500000000000000000
    20 0 (Anchor.mk 1500 Scenario.T) (Some (Anchor.mk 1490 (Scenario.T + 2000))) 0
  = Finder.mkRun (Finder.NotFoundError 0) [] 1 /\
  (exists n,
     Finder.outcome
       (Finder.searchRounds Scenario.emptyFetcher (Scenario.T + 1000)
          Scenario.userLower Scenario.HYPE_SYSTEM_ADDRESS 100500000000000000000
          20 0 (Anchor.mk 1500 Scenario.T) (Some (Anchor.mk 1501 (Scenario.T + 2000))) 0)
     = Finder.NotFoundError n).
Proof.
  destruct search_stops_within_max_rounds as (_ & Hstop & Hrange & Hnone).
  split; [|split].
  - apply (Hstop Scenario.chainFetcher
             (Scenario.T + 1000) Scenario.userLower Scenario.HYPE_SYSTEM_ADDRESS
             100500000000000000000 19%nat 0%nat (Anchor.mk 1500 Scenario.T)
             (Some (Anchor.mk 1501 (Scenario.T + 2000))) 0
             [Scenario.block1500; Scenario.block1501]).
    + vm_compute. discriminate.
    + vm_compute. reflexivity.
    + discriminate.
    + vm_compute. reflexivity.
    + left. vm_compute. reflexivity.
  - apply (Hrange Scenario.chainFetcher
             (Scenario.T + 1000) Scenario.userLower Scenario.HYPE_SYSTEM_ADDRESS
             100500000000000000000 19%nat 0%nat (Anchor.mk 1500 Scenario.T)
             (Some (Anchor.mk 1490 (Scenario.T + 2000))) 0).
    vm_compute. reflexivity.
  - apply Hnone. intros idx nums. exists []. split; reflexivity.
Defined.

(** ** C10: letter case of addresses *)

Lemma matchesQuery_case params params' d :
  JS.toLowerCase (AnchorStore.from params) = JS.toLowerCase (AnchorStore.from params') ->
  JS.toLowerCase (AnchorStore.assetRecipient params)
    = JS.toLowerCase (AnchorStore.assetRecipient params') ->
  AnchorStore.amountWei params = AnchorStore.amountWei params' ->
  AnchorStore.minTime params = AnchorStore.minTime params' ->
  AnchorStore.maxTime params = AnchorStore.maxTime params' ->
  AnchorStore.matchesQuery params d = AnchorStore.matchesQuery params' d.
Proof.
  intros H1 H2 H3 H4 H5. unfold AnchorStore.matchesQuery.
  now rewrite H1, H2, H3, H4, H5.
Qed.

(** C10: every address field ([from], [assetRecipient], [contractAddress])
    of a document written to the anchor store, by the batch insert as by the
    one-block insert, is in lower case; the cache lookup lowercases the
    addresses it is given and the block scan lowercases the addresses of the
    scanned transaction, so neither depends on the letter case of those
    operands; and the whole run of the finder is the same for two transfers
    that differ only in the letter case of recipient and system address. *)
Theorem finder_is_case_insensitive :
  (forall (store : list SystemTransaction.t) (blocks : list BlockData.t)
          (block : BlockData.t) (d : SystemTransaction.t),
     (d ∈ AnchorStore.storeBlocksSystemTxs store blocks ->
        d ∈ store \/ Finder.lowercased d) /\
     (d ∈ AnchorStore.storeBlockSystemTxs store block ->
        d ∈ store \/ Finder.lowercased d)) /\
  (forall (params params' : AnchorStore.MatchParams) (docs : list SystemTransaction.t),
     JS.toLowerCase (AnchorStore.from params) = JS.toLowerCase (AnchorStore.from params') ->
     JS.toLowerCase (AnchorStore.assetRecipient params)
       = JS.toLowerCase (AnchorStore.assetRecipient params') ->
     AnchorStore.amountWei params = AnchorStore.amountWei params' ->
     AnchorStore.minTime params = AnchorStore.minTime params' ->
     AnchorStore.maxTime params = AnchorStore.maxTime params' ->
     AnchorStore.findMatchingTx params docs = AnchorStore.findMatchingTx params' docs) /\
  (forall (tx tx' : SystemTx.t) (user systemAddress : string) (expectedAmount : Z),
     JS.toLowerCase (SystemTx.from tx) = JS.toLowerCase (SystemTx.from tx') ->
     JS.toLowerCase (SystemTx.assetRecipient tx)
       = JS.toLowerCase (SystemTx.assetRecipient tx') ->
     SystemTx.amountWei tx = SystemTx.amountWei tx' ->
     Finder.matchesTx tx user systemAddress expectedAmount
     = Finder.matchesTx tx' user systemAddress expectedAmount) /\
  (forall (parseAmount : string -> Z -> option Z) (env : Finder.Env)
          (fetcher : Finder.BlockFetcherService) (transfer transfer' : Transfer.t),
     JS.toLowerCase (Transfer.user transfer) = JS.toLowerCase (Transfer.user transfer') ->
     JS.toLowerCase (Transfer.systemAddress transfer)
       = JS.toLowerCase (Transfer.systemAddress transfer') ->
     Transfer.hypercoreTime transfer = Transfer.hypercoreTime transfer' ->
     Transfer.amount transfer = Transfer.amount transfer' ->
     Finder.findEvmHash parseAmount env transfer fetcher
     = Finder.findEvmHash parseAmount env transfer' fetcher).
Proof.
  split; [|split; [|split]].
  - intros store blocks block d. split.
    + unfold AnchorStore.storeBlocksSystemTxs.
      destruct (AnchorStore.allDocs blocks) as [|x rest] eqn:E; [now left|].
      intros H. apply insertMany_elem in H as [H|H]; [now left|].
      right. apply (allDocs_lowercased blocks). now rewrite E.
    + unfold AnchorStore.storeBlockSystemTxs.
      destruct (BlockData.systemTxs block) as [|x rest]; [now left|].
      intros H. apply insertMany_elem in H as [H|H]; [now left|].
      right. apply list_elem_of_fmap in H as (tx & -> & _).
      apply docOfTx_lowercased.
  - intros params params' docs H1 H2 H3 H4 H5. unfold AnchorStore.findMatchingTx.
    f_equal. apply list_filter_iff. intros d.
    now rewrite (matchesQuery_case params params' d).
  - intros tx tx' user systemAddress expectedAmount H1 H2 H3.
    unfold Finder.matchesTx. now rewrite H1, H2, H3.
  - intros parseAmount env fetcher transfer transfer' H1 H2 H3 H4.
    unfold Finder.findEvmHash, normalizeAddress. now rewrite H1, H2, H3, H4.
Qed.

Lemma finder_is_case_insensitive_witness :
  Finder.lowercased (AnchorStore.docOfTx (Scenario.ownBlock 1501 Scenario.T) Scenario.ownTx) /\
  AnchorStore.findMatchingTx
    (AnchorStore.mkParams Scenario.HYPE_SYSTEM_ADDRESS Scenario.userMixed
       "100500000000000000000" Scenario.T Scenario.T) [Scenario.storedAnchor]
  = AnchorStore.findMatchingTx
      (AnchorStore.mkParams Scenario.HYPE_SYSTEM_ADDRESS Scenario.userLower
         "100500000000000000000" Scenario.T Scenario.T) [Scenario.storedAnchor] /\
  Finder.matchesTx Scenario.ownTx Scenario.userLower Scenario.HYPE_SYSTEM_ADDRESS
    100500000000000000000
  = Finder.matchesTx
      (SystemTx.mk "0xa1" "0xe1" Scenario.HYPE_SYSTEM_ADDRESS Scenario.userLower
         "100500000000000000000" None)
      Scenario.userLower Scenario.HYPE_SYSTEM_ADDRESS 100500000000000000000 /\
  Finder.findEvmHash Viem.parseUnits Scenario.cachedEnv
    (Scenario.transfer Scenario.userMixed) Scenario.deadFetcher
  = Finder.findEvmHash Viem.parseUnits Scenario.cachedEnv
      (Scenario.transfer Scenario.userLower) Scenario.deadFetcher.
Proof.
  destruct finder_is_case_insensitive as (Hstore & Hquery & Hscan & Hfind).
  split; [|split; [|split]].
  - destruct (proj1 (Hstore [] [Scenario.ownBlock 1501 Scenario.T]
                       (Scenario.ownBlock 1501 Scenario.T)
                       (AnchorStore.docOfTx (Scenario.ownBlock 1501 Scenario.T)
                          Scenario.ownTx))) as [Hin|Hlow].
    + vm_compute. now left.
    + inversion Hin.
    + exact Hlow.
  - apply Hquery; reflexivity.
  - apply Hscan; reflexivity.
  - apply Hfind; reflexivity.
Defined.

(* ===================================================================== *)
(** * Further properties of the finder *)
(* ===================================================================== *)

(** ** The batch of block numbers *)

Lemma pushBlockNumbers_spec count :
  forall i start upperBound,
    (length (Finder.pushBlockNumbers count i start upperBound) <= count)%nat /\
    (forall j n, Finder.pushBlockNumbers count i start upperBound !! j = Some n ->
       n = start + i + Z.of_nat j) /\
    (forall upper n, upperBound = Some upper ->
       n ∈ Finder.pushBlockNumbers count i start upperBound -> n <= Anchor.block upper) /\
    (upperBound = None ->
       length (Finder.pushBlockNumbers count i start upperBound) = count) /\
    (forall upper, upperBound = Some upper -> start + i <= Anchor.block upper ->
       (0 < count)%nat -> Finder.pushBlockNumbers count i start upperBound <> []).
Proof.
  induction count as [|count IH]; intros i start up; simpl.
  - split; [lia|]. split; [intros [|j] n H; discriminate|].
    split; [intros upper n _ H; inversion H|]. split; [reflexivity|].
    intros; lia.
  - destruct (IH (i + 1) start up) as (Hlen & Hnth & Hle & Hfull & _).
    assert (Hcons : forall rest,
      (forall j n, rest !! j = Some n -> n = start + (i + 1) + Z.of_nat j) ->
      forall j n, (start + i :: rest) !! j = Some n -> n = start + i + Z.of_nat j).
    { intros rest Hrest [|j] n Hj; simpl in Hj.
      - injection Hj as <-. lia.
      - rewrite (Hrest j n Hj). lia. }
    destruct up as [upper|].
    + destruct (start + i >? Anchor.block upper) eqn:E.
      * apply Z.gtb_lt in E.
        split; [simpl; lia|]. split; [intros [|j] n H; discriminate|].
        split; [intros u n _ H; inversion H|]. split; [discriminate|].
        intros u [= <-] Hu. lia.
      * assert (start + i <= Anchor.block upper).
        { rewrite Z.gtb_ltb in E. apply Z.ltb_ge in E. lia. }
        split; [simpl; lia|]. split; [now apply Hcons|].
        split; [|split; [discriminate | discriminate]].
        intros u n [= <-] Hn. apply elem_of_cons in Hn as [->|Hn]; [lia|].
        now apply (Hle upper).
    + split; [simpl; lia|]. split; [now apply Hcons|].
      split; [discriminate|]. split; [|discriminate].
      intros _. simpl. now rewrite Hfull.
Qed.

Lemma batchStart_ge_lower lowerBound upperBound estimate :
  Anchor.block lowerBound <= Finder.batchStart lowerBound upperBound estimate.
Proof. unfold Finder.batchStart. lia. Qed.

Lemma batchStart_le_upper lowerBound upper estimate :
  Anchor.block lowerBound <= Anchor.block upper ->
  Finder.batchStart lowerBound (Some upper) estimate <= Anchor.block upper.
Proof.
  intros H. unfold Finder.batchStart, Estimate.BATCH_SIZE.
  destruct (Z.max 1 (estimate - 5 / 2) + 5 >? Anchor.block upper) eqn:E.
  - lia.
  - rewrite Z.gtb_ltb in E. apply Z.ltb_ge in E. lia.
Qed.

(** X1: the batch built in a round is a run of at most five consecutive
    block numbers that starts at or above the lower bound and, when there is
    an upper bound, never goes past it; without an upper bound it has
    exactly five numbers, and with bounds in order (lower at most upper) it
    is never empty. *)
Theorem batch_stays_within_bounds :
  forall (lowerBound : Anchor.t) (upperBound : option Anchor.t) (targetTime : Z),
    let nums := Finder.blockNumbers lowerBound upperBound targetTime in
    (length nums <= 5)%nat /\
    (exists start, Anchor.block lowerBound <= start /\
       forall j n, nums !! j = Some n -> n = start + Z.of_nat j) /\
    (forall n, n ∈ nums -> Anchor.block lowerBound <= n) /\
    (forall upper n, upperBound = Some upper -> n ∈ nums -> n <= Anchor.block upper) /\
    (upperBound = None -> length nums = 5%nat) /\
    (forall upper, upperBound = Some upper ->
       Anchor.block lowerBound <= Anchor.block upper -> nums <> []).
Proof.
  intros lo up T nums. unfold Finder.blockNumbers in nums.
  set (start := Finder.batchStart lo up (Estimate.estimateStep lo up T)) in *.
  destruct (pushBlockNumbers_spec (Z.to_nat Estimate.BATCH_SIZE) 0 start up)
    as (Hlen & Hnth & Hle & Hfull & Hne).
  pose proof (batchStart_ge_lower lo up (Estimate.estimateStep lo up T)) as Hlo.
  fold start in Hlo.
  split; [exact Hlen|].
  split. { exists start. split; [exact Hlo|]. intros j n Hj.
           rewrite (Hnth j n Hj). lia. }
  split. { intros n Hn. apply list_elem_of_lookup in Hn as [j Hj].
           rewrite (Hnth j n Hj). lia. }
  split; [exact Hle|]. split; [exact Hfull|].
  intros upper -> Hord. apply (Hne upper eq_refl); [|vm_compute; lia].
  unfold start. pose proof (batchStart_le_upper lo upper
    (Estimate.estimateStep lo (Some upper) T) Hord). lia.
Qed.

Lemma batch_stays_within_bounds_witness :
  Finder.blockNumbers (Anchor.mk 1500 1000) (Some (Anchor.mk 1502 9000)) 5000 <> [] /\
  (forall n, n ∈ Finder.blockNumbers (Anchor.mk 1500 1000) (Some (Anchor.mk 1502 9000)) 5000 ->
     n <= 1502).
Proof.
  destruct (batch_stays_within_bounds (Anchor.mk 1500 1000)
              (Some (Anchor.mk 1502 9000)) 5000) as (_ & _ & _ & Hup & _ & Hne).
  split.
  - apply (Hne (Anchor.mk 1502 9000) eq_refl). simpl. lia.
  - intros n Hn. apply (Hup (Anchor.mk 1502 9000) n eq_refl Hn).
Defined.

(** ** Tightening the bounds *)

Lemma candidateStep_ok targetTime seen acc block :
  FinderFacts.lowerCandidateOk targetTime seen (fst acc) ->
  FinderFacts.upperCandidateOk targetTime seen (snd acc) ->
  FinderFacts.lowerCandidateOk targetTime (seen ++ [block])
    (fst (Finder.candidateStep targetTime acc block)) /\
  FinderFacts.upperCandidateOk targetTime (seen ++ [block])
    (snd (Finder.candidateStep targetTime acc block)).
Proof.
  destruct acc as [newLower newUpper]. unfold Finder.candidateStep. simpl.
  intros Hl Hu. split.
  - destruct (BlockData.timestamp block <=? targetTime) eqn:E;
      [apply Z.leb_le in E | apply Z.leb_gt in E].
    + destruct newLower as [l|]; simpl in *.
      * destruct Hl as (Hin & Hts & Hmax).
        destruct (BlockData.number block >? BlockData.number l) eqn:G;
          [apply Z.gtb_lt in G | rewrite Z.gtb_ltb in G; apply Z.ltb_ge in G]; simpl.
        -- split; [apply elem_of_app; right; now left|]. split; [exact E|].
           intros b' Hb' Hts'. apply elem_of_app in Hb' as [Hb'|Hb'].
           ++ specialize (Hmax b' Hb' Hts'). lia.
           ++ apply list_elem_of_singleton in Hb' as ->. lia.
        -- split; [apply elem_of_app; now left|]. split; [exact Hts|].
           intros b' Hb' Hts'. apply elem_of_app in Hb' as [Hb'|Hb'].
           ++ now apply Hmax.
           ++ apply list_elem_of_singleton in Hb' as ->. lia.
      * split; [apply elem_of_app; right; now left|]. split; [exact E|].
        intros b' Hb' Hts'. apply elem_of_app in Hb' as [Hb'|Hb'].
        -- specialize (Hl b' Hb'). lia.
        -- apply list_elem_of_singleton in Hb' as ->. lia.
    + destruct newLower as [l|]; simpl in *.
      * destruct Hl as (Hin & Hts & Hmax).
        split; [apply elem_of_app; now left|]. split; [exact Hts|].
        intros b' Hb' Hts'. apply elem_of_app in Hb' as [Hb'|Hb'].
        -- now apply Hmax.
        -- apply list_elem_of_singleton in Hb' as ->. lia.
      * intros b' Hb'. apply elem_of_app in Hb' as [Hb'|Hb'].
        -- now apply Hl.
        -- apply list_elem_of_singleton in Hb' as ->. lia.
  - destruct (BlockData.timestamp block >? targetTime) eqn:E;
      [apply Z.gtb_lt in E | rewrite Z.gtb_ltb in E; apply Z.ltb_ge in E].
    + destruct newUpper as [u|]; simpl in *.
      * destruct Hu as (Hin & Hts & Hmin).
        destruct (BlockData.number block <? BlockData.number u) eqn:G;
          [apply Z.ltb_lt in G | apply Z.ltb_ge in G]; simpl.
        -- split; [apply elem_of_app; right; now left|]. split; [exact E|].
           intros b' Hb' Hts'. apply elem_of_app in Hb' as [Hb'|Hb'].
           ++ specialize (Hmin b' Hb' Hts'). lia.
           ++ apply list_elem_of_singleton in Hb' as ->. lia.
        -- split; [apply elem_of_app; now left|]. split; [exact Hts|].
           intros b' Hb' Hts'. apply elem_of_app in Hb' as [Hb'|Hb'].
           ++ now apply Hmin.
           ++ apply list_elem_of_singleton in Hb' as ->. lia.
      * split; [apply elem_of_app; right; now left|]. split; [exact E|].
        intros b' Hb' Hts'. apply elem_of_app in Hb' as [Hb'|Hb'].
        -- specialize (Hu b' Hb'). lia.
        -- apply list_elem_of_singleton in Hb' as ->. lia.
    + destruct newUpper as [u|]; simpl in *.
      * destruct Hu as (Hin & Hts & Hmin).
        split; [apply elem_of_app; now left|]. split; [exact Hts|].
        intros b' Hb' Hts'. apply elem_of_app in Hb' as [Hb'|Hb'].
        -- now apply Hmin.
        -- apply list_elem_of_singleton in Hb' as ->. lia.
      * intros b' Hb'. apply elem_of_app in Hb' as [Hb'|Hb'].
        -- now apply Hu.
        -- apply list_elem_of_singleton in Hb' as ->. lia.
Qed.

Lemma candidates_fold targetTime blocks :
  forall seen acc,
    FinderFacts.lowerCandidateOk targetTime seen (fst acc) ->
    FinderFacts.upperCandidateOk targetTime seen (snd acc) ->
    FinderFacts.lowerCandidateOk targetTime (seen ++ blocks)
      (fst (fold_left (Finder.candidateStep targetTime) blocks acc)) /\
    FinderFacts.upperCandidateOk targetTime (seen ++ blocks)
      (snd (fold_left (Finder.candidateStep targetTime) blocks acc)).
Proof.
  induction blocks as [|b rest IH]; intros seen acc Hl Hu; simpl.
  - rewrite app_nil_r. now split.
  - destruct (candidateStep_ok targetTime seen acc b Hl Hu) as [Hl' Hu'].
    replace (seen ++ b :: rest)%list with ((seen ++ [b]) ++ rest)%list
      by (rewrite <- app_assoc; reflexivity).
    now apply IH.
Qed.

Lemma candidates_ok targetTime blocks :
  FinderFacts.lowerCandidateOk targetTime blocks (fst (Finder.candidates targetTime blocks)) /\
  FinderFacts.upperCandidateOk targetTime blocks (snd (Finder.candidates targetTime blocks)).
Proof.
  unfold Finder.candidates.
  apply (candidates_fold targetTime blocks [] (None, None)); simpl;
    intros b' Hb'; inversion Hb'.
Qed.

(** X2: tightening never loosens a bound and keeps the tightest bracket the
    fetched blocks allow.  The new lower bound is the old one or a fetched
    block at or before the target time, and no fetched block at or before
    the target time has a larger number than it; the new upper bound is the
    old one or a fetched block after the target time, no fetched block after
    the target time has a smaller number than it, and once there is an upper
    bound there is one from then on.  Bounds that bracket the target time
    (lower at or before it, upper after it) still do so after tightening. *)
Theorem tighten_keeps_tightest_bracket :
  forall (targetTime : Z) (blocks : list BlockData.t)
         (lowerBound : Anchor.t) (upperBound : option Anchor.t),
    let lowerBound' := fst (Finder.tighten targetTime blocks lowerBound upperBound) in
    let upperBound' := snd (Finder.tighten targetTime blocks lowerBound upperBound) in
    (Anchor.block lowerBound <= Anchor.block lowerBound' /\
     (lowerBound' = lowerBound \/
      exists b, b ∈ blocks /\ BlockData.timestamp b <= targetTime /\
                lowerBound' = Finder.anchorOfBlock b) /\
     forall b, b ∈ blocks -> BlockData.timestamp b <= targetTime ->
       BlockData.number b <= Anchor.block lowerBound') /\
    (forall upper', upperBound' = Some upper' ->
       (upperBound = Some upper' \/
        exists b, b ∈ blocks /\ targetTime < BlockData.timestamp b /\
                  upper' = Finder.anchorOfBlock b) /\
       (forall upper, upperBound = Some upper ->
          Anchor.block upper' <= Anchor.block upper) /\
       forall b, b ∈ blocks -> targetTime < BlockData.timestamp b ->
         Anchor.block upper' <= BlockData.number b) /\
    (upperBound' = None ->
       upperBound = None /\
       forall b, b ∈ blocks -> BlockData.timestamp b <= targetTime) /\
    (Anchor.time lowerBound <= targetTime -> Anchor.time lowerBound' <= targetTime) /\
    ((forall upper, upperBound = Some upper -> targetTime < Anchor.time upper) ->
     forall upper', upperBound' = Some upper' -> targetTime < Anchor.time upper').
Proof.
  intros T blocks lo up lo' up'. subst lo' up'. unfold Finder.tighten.
  destruct (candidates_ok T blocks) as [Hl Hu].
  destruct (Finder.candidates T blocks) as [newLower newUpper]. simpl in Hl, Hu.
  cbn [fst snd].
  assert (Hlower :
    let lo' := match newLower with
               | Some b => if BlockData.number b >? Anchor.block lo
                           then Finder.anchorOfBlock b else lo
               | None => lo end in
    Anchor.block lo <= Anchor.block lo' /\
    (lo' = lo \/ exists b, b ∈ blocks /\ BlockData.timestamp b <= T /\
                           lo' = Finder.anchorOfBlock b) /\
    (forall b, b ∈ blocks -> BlockData.timestamp b <= T ->
       BlockData.number b <= Anchor.block lo') /\
    (Anchor.time lo <= T -> Anchor.time lo' <= T)).
  { destruct newLower as [l|]; simpl in *.
    - destruct Hl as (Hin & Hts & Hmax).
      destruct (BlockData.number l >? Anchor.block lo) eqn:G;
        [apply Z.gtb_lt in G | rewrite Z.gtb_ltb in G; apply Z.ltb_ge in G]; simpl.
      + split; [lia|]. split; [right; eauto|]. split; [exact Hmax|]. auto.
      + split; [lia|]. split; [now left|]. split; [|auto].
        intros b Hb Hbt. specialize (Hmax b Hb Hbt). lia.
    - split; [lia|]. split; [now left|]. split; [|auto].
      intros b Hb Hbt. specialize (Hl b Hb). lia. }
  destruct Hlower as (H1 & H2 & H3 & H4).
  split; [auto|]. 
  assert (Hupper :
    let up' := match newUpper with
               | Some b => match up with
                           | None => Some (Finder.anchorOfBlock b)
                           | Some upper => if BlockData.number b <? Anchor.block upper
                                           then Some (Finder.anchorOfBlock b) else up
                           end
               | None => up end in
    (forall upper', up' = Some upper' ->
       (up = Some upper' \/
        exists b, b ∈ blocks /\ T < BlockData.timestamp b /\
                  upper' = Finder.anchorOfBlock b) /\
       (forall upper, up = Some upper -> Anchor.block upper' <= Anchor.block upper) /\
       forall b, b ∈ blocks -> T < BlockData.timestamp b ->
         Anchor.block upper' <= BlockData.number b) /\
    (up' = None -> up = None /\ forall b, b ∈ blocks -> BlockData.timestamp b <= T)).
  { destruct newUpper as [u|]; simpl in *.
    - destruct Hu as (Hin & Hts & Hmin). destruct up as [upper|].
      + destruct (BlockData.number u <? Anchor.block upper) eqn:G;
          [apply Z.ltb_lt in G | apply Z.ltb_ge in G].
        * split; [|discriminate]. intros upper' [= <-].
          split; [right; eauto|]. split; [intros ? [= <-]; simpl; lia|]. exact Hmin.
        * split; [|discriminate]. intros upper' [= <-].
          split; [now left|]. split; [intros ? [= <-]; lia|].
          intros b Hb Hbt. specialize (Hmin b Hb Hbt). lia.
      + split; [|discriminate]. intros upper' [= <-].
        split; [right; eauto|]. split; [discriminate|]. exact Hmin.
    - split.
      + intros upper' ->. split; [now left|]. split; [intros ? [= <-]; lia|].
        intros b Hb Hbt. specialize (Hu b Hb). lia.
      + intros ->. split; [reflexivity | exact Hu]. }
  destruct Hupper as (H5 & H6).
  split; [exact H5|]. split; [exact H6|]. split; [exact H4|].
  intros Hbr upper' Hup'. destruct (H5 upper' Hup') as ([Hold|(b & _ & Hbt & ->)] & _).
  - now apply Hbr.
  - exact Hbt.
Qed.

Lemma tighten_keeps_tightest_bracket_witness :
  Anchor.block (Finder.anchorOfBlock Scenario.block1501) <= 1600 /\
  Scenario.T + 1000 < Anchor.time (Finder.anchorOfBlock Scenario.block1501) /\
  Anchor.time (fst (Finder.tighten (Scenario.T + 1000)
                      [Scenario.block1500; Scenario.block1501]
                      (Anchor.mk 1400 Scenario.T)
                      (Some (Anchor.mk 1600 (Scenario.T + 9000))))) <= Scenario.T + 1000.
Proof.
  destruct (tighten_keeps_tightest_bracket (Scenario.T + 1000)
              [Scenario.block1500; Scenario.block1501]
              (Anchor.mk 1400 Scenario.T) (Some (Anchor.mk 1600 (Scenario.T + 9000))))
    as (_ & Hup & _ & Hlo & Hbr).
  split; [|split].
  - destruct (Hup (Finder.anchorOfBlock Scenario.block1501) eq_refl) as (_ & Hle & _).
    apply (Hle _ eq_refl).
  - apply Hbr; [|reflexivity]. intros upper [= <-]. vm_compute. reflexivity.
  - apply Hlo. vm_compute. discriminate.
Defined.

(** ** Scanning the fetched blocks *)



(** ** What a run reports about itself *)

Lemma blockNumbers_length lowerBound upperBound targetTime :
  (length (Finder.blockNumbers lowerBound upperBound targetTime) <= 5)%nat.
Proof.
  unfold Finder.blockNumbers.
  apply (pushBlockNumbers_spec (Z.to_nat Estimate.BATCH_SIZE)).
Qed.

Lemma searchRounds_accounting fetcher targetTime user systemAddress expectedAmount
    remaining :
  forall round lowerBound upperBound blocksSearched,
    let run := Finder.searchRounds fetcher targetTime user systemAddress expectedAmount
                 remaining round lowerBound upperBound blocksSearched in
    (forall nums, nums ∈ Finder.fetchCalls run ->
       nums <> [] /\ (length nums <= 5)%nat) /\
    (forall m r, Finder.outcome run = Finder.Success m r ->
       Finder.rounds r = Z.of_nat round + Z.of_nat (length (Finder.fetchCalls run)) /\
       (exists b tx, m = Finder.FromBlock b tx) /\
       blocksSearched + 1 <= Finder.blocksSearched r) /\
    (forall n, Finder.outcome run = Finder.NotFoundError n -> blocksSearched <= n) /\
    ((forall idx nums blocks,
        Finder.fetchBlocks fetcher idx nums = inr blocks ->
        (length blocks <= length nums)%nat) ->
     (forall m r, Finder.outcome run = Finder.Success m r ->
        Finder.blocksSearched r
          <= blocksSearched + 5 * Z.of_nat (length (Finder.fetchCalls run))) /\
     (forall n, Finder.outcome run = Finder.NotFoundError n ->
        n <= blocksSearched + 5 * Z.of_nat (length (Finder.fetchCalls run)))).
Proof.
  induction remaining as [|remaining IH]; intros round lo up searched; simpl.
  { split; [intros nums H; inversion H|]. split; [discriminate|].
    split; [intros n [= <-]; lia|]. intros _. split; [discriminate|].
    intros n [= <-]; lia. }
  pose proof (blockNumbers_length lo up targetTime) as Hlen.
  destruct (Finder.blockNumbers lo up targetTime) as [|n0 nums0] eqn:Hnums; simpl.
  { split; [intros nums H; inversion H|]. split; [discriminate|].
    split; [intros n [= <-]; lia|]. intros _. split; [discriminate|].
    intros n [= <-]; lia. }
  assert (Hcall : forall nums, nums ∈ [n0 :: nums0] ->
            nums <> [] /\ (length nums <= 5)%nat).
  { intros nums H. apply list_elem_of_singleton in H as ->. split; [discriminate|exact Hlen]. }
  destruct (Finder.fetchBlocks fetcher round (n0 :: nums0)) as [e|blocks] eqn:Hf; simpl.
  { split; [exact Hcall|]. split; [discriminate|]. split; [discriminate|].
    intros _. split; discriminate. }
  destruct blocks as [|b0 blocks].
  { simpl. specialize (IH (S round) lo up (searched + Z.of_nat 0)).
    cbv zeta in IH. destruct IH as (IH1 & IH2 & IH3 & IH4).
    split; [|split; [|split]].
    - intros nums H. apply elem_of_cons in H as [->|H]; [|now apply IH1].
      split; [discriminate | exact Hlen].
    - intros m r H. destruct (IH2 m r H) as (Hr & Hm & Hs).
      split; [rewrite Hr; lia|]. split; [exact Hm | lia].
    - intros n H. specialize (IH3 n H). lia.
    - intros Hh. destruct (IH4 Hh) as [IH5 IH6]. split.
      + intros m r H. specialize (IH5 m r H). lia.
      + intros n H. specialize (IH6 n H). lia. }
  destruct (Finder.searchBlocks (b0 :: blocks) user systemAddress expectedAmount)
    as [b tx| |] eqn:Hs; simpl.
  - split; [exact Hcall|]. split; [|split; [discriminate|]].
    + intros m r [= <- <-]. simpl. split; [lia|]. split; [eauto | lia].
    + intros Hh. split; [|discriminate]. intros m r [= <- <-]. simpl.
      specialize (Hh _ _ _ Hf). simpl in Hh, Hlen. lia.
  - destruct (Finder.tighten targetTime (b0 :: blocks) lo up) as [lo' up'].
    destruct (Finder.converged lo' up'); simpl.
    + split; [exact Hcall|]. split; [discriminate|].
      split; [intros n [= <-]; lia|]. intros Hh. split; [discriminate|].
      intros n [= <-]. specialize (Hh _ _ _ Hf). simpl in Hh, Hlen. lia.
    + specialize (IH (S round) lo' up' (searched + Z.of_nat (S (length blocks)))).
      cbv zeta in IH. destruct IH as (IH1 & IH2 & IH3 & IH4).
      split; [|split; [|split]].
      * intros nums H. apply elem_of_cons in H as [->|H]; [|now apply IH1].
        split; [discriminate | exact Hlen].
      * intros m r H. destruct (IH2 m r H) as (Hr & Hm & Hs').
        split; [rewrite Hr; lia|]. split; [exact Hm | lia].
      * intros n H. specialize (IH3 n H). lia.
      * intros Hh. destruct (IH4 Hh) as [IH5 IH6].
        pose proof (Hh _ _ _ Hf) as Hb. simpl in Hb, Hlen. split.
        -- intros m r H. specialize (IH5 m r H). lia.
        -- intros n H. specialize (IH6 n H). lia.
  - split; [exact Hcall|]. split; [discriminate|]. split; [discriminate|].
    intros _. split; discriminate.
Qed.

(** X4: what a run reports agrees with what it did.  Every list passed to
    the fetcher holds between one and five block numbers.  A successful
    result reports as its number of rounds exactly the number of fetcher
    calls made (none on the cache path), and on the search path it counts at
    least one block searched.  When the fetcher never returns more blocks
    than it was asked for, the blocks searched, reported by a success or by
    NotFound, are at most five per call made, so at most one hundred. *)
Theorem run_reports_its_fetches :
  forall (parseAmount : string -> Z -> option Z) (env : Finder.Env)
         (transfer : Transfer.t) (fetcher : Finder.BlockFetcherService),
    let run := Finder.findEvmHash parseAmount env transfer fetcher in
    (forall nums, nums ∈ Finder.fetchCalls run ->
       (1 <= length nums <= 5)%nat) /\
    (forall m r, Finder.outcome run = Finder.Success m r ->
       Finder.rounds r = Z.of_nat (length (Finder.fetchCalls run)) /\
       match m with
       | Finder.FromCache _ => Finder.blocksSearched r = 0
       | Finder.FromBlock _ _ => 1 <= Finder.blocksSearched r
       end) /\
    ((forall idx nums blocks,
        Finder.fetchBlocks fetcher idx nums = inr blocks ->
        (length blocks <= length nums)%nat) ->
     forall n,
       (Finder.outcome run = Finder.NotFoundError n \/
        exists m r, Finder.outcome run = Finder.Success m r /\
                    Finder.blocksSearched r = n) ->
       0 <= n <= 5 * Z.of_nat (length (Finder.fetchCalls run)) /\ n <= 100).
Proof.
  intros parseAmount env transfer fetcher run. subst run. unfold Finder.findEvmHash.
  destruct (Finder.lookupAsset env _) as [asset|].
  2: { simpl. split; [intros nums H; inversion H|]. split; [discriminate|].
       intros _ n [H|(m & r & H & _)]; discriminate. }
  destruct (parseAmount _ _) as [expectedAmount|].
  2: { simpl. split; [intros nums H; inversion H|]. split; [discriminate|].
       intros _ n [H|(m & r & H & _)]; discriminate. }
  match goal with
  | |- context [match ?x with Some d => Finder.finish _ | None => _ end] =>
      destruct x as [d|]
  end.
  { simpl. split; [intros nums H; inversion H|].
    split; [intros m r [= <- <-]; split; reflexivity|].
    intros _ n [H|(m & r & [= <- <-] & <-)]; [discriminate|]. simpl. lia. }
  match goal with
  | |- context [Finder.searchRounds ?f ?t ?u ?s ?e ?k ?r ?lo ?up ?n] =>
      pose proof (searchRounds_accounting f t u s e k r lo up n) as Hacc;
      pose proof (searchRounds_calls f t u s e k r lo up n) as [Hc1 Hc2];
      set (run := Finder.searchRounds f t u s e k r lo up n) in *
  end.
  cbv zeta in Hacc. destruct Hacc as (H1 & H2 & H3 & H4).
  assert (Hcalls : (length (Finder.fetchCalls run) <= 20)%nat).
  { unfold Estimate.MAX_ROUNDS in Hc2. lia. }
  split; [|split].
  - intros nums H. destruct (H1 nums H) as [Hne Hle].
    destruct nums; [congruence|]. cbn [length] in Hle |- *. lia.
  - intros m r H. destruct (H2 m r H) as (Hr & (b & tx & ->) & Hs).
    split; [rewrite Hr; lia | lia].
  - intros Hh n Hn. destruct (H4 Hh) as [H5 H6]. destruct Hn as [Hn|(m & r & Hn & <-)].
    + specialize (H3 n Hn). specialize (H6 n Hn). lia.
    + destruct (H2 m r Hn) as (_ & _ & Hs). specialize (H5 m r Hn). lia.
Qed.

Lemma run_reports_its_fetches_witness :
  Finder.rounds (Finder.resultOfBlock (Scenario.ownBlock 1500 (Scenario.T + 500000))
                   Scenario.ownTx 5 0)
    = Z.of_nat (length (Finder.fetchCalls
        (Finder.findEvmHash Viem.parseUnits Scenario.s2Env Scenario.s2Transfer
           Scenario.s2Fetcher))) /\
  5 <= 100.
Proof.
  destruct (run_reports_its_fetches Viem.parseUnits Scenario.s2Env Scenario.s2Transfer
              Scenario.s2Fetcher) as (_ & Hrounds & Hsearched).
  split.
  - apply (Hrounds (Finder.FromBlock (Scenario.ownBlock 1500 (Scenario.T + 500000))
                      Scenario.ownTx)).
    vm_compute. reflexivity.
  - apply Hsearched.
    + intros idx nums blocks [= <-]. rewrite length_map. lia.
    + right. eexists _, _. split; [vm_compute; reflexivity | reflexivity].
Defined.

(** ** Interpolation between two anchors *)






(* ===================================================================== *)
(** * Further properties of the anchor store *)
(* ===================================================================== *)

(** ** The bracketing query *)

Lemma latest_Some docs d :
  AnchorStore.latest docs = Some d ->
  d ∈ docs /\
  forall e, e ∈ docs ->
    SystemTransaction.blockTimestamp e <= SystemTransaction.blockTimestamp d.
Proof.
  revert d. induction docs as [|x rest IH]; intros d; simpl; [discriminate|].
  destruct (AnchorStore.latest rest) as [e|] eqn:E.
  - destruct (IH e eq_refl) as [Hin Hmax].
    destruct (SystemTransaction.blockTimestamp x <? SystemTransaction.blockTimestamp e)
      eqn:Hlt; intros [= <-].
    + apply Z.ltb_lt in Hlt. split; [now right|].
      intros y Hy. apply elem_of_cons in Hy as [->|Hy]; [lia | now apply Hmax].
    + apply Z.ltb_ge in Hlt. split; [now left|].
      intros y Hy. apply elem_of_cons in Hy as [->|Hy]; [lia|].
      specialize (Hmax y Hy). lia.
  - intros [= <-]. split; [now left|].
    intros y Hy. apply elem_of_cons in Hy as [->|Hy]; [lia|].
    destruct rest; [inversion Hy|]. simpl in E.
    destruct (AnchorStore.latest rest); [destruct (_ <? _)|]; discriminate.
Qed.

Lemma latest_None docs : AnchorStore.latest docs = None -> docs = [].
Proof.
  destruct docs as [|x rest]; [reflexivity|]. simpl.
  destruct (AnchorStore.latest rest); [destruct (_ <? _)|]; discriminate.
Qed.

Lemma earliest_None docs : AnchorStore.earliest docs = None -> docs = [].
Proof.
  destruct docs as [|x rest]; [reflexivity|]. simpl.
  destruct (AnchorStore.earliest rest); [destruct (_ <? _)|]; discriminate.
Qed.

(** X6: the bracketing query brackets the target time.  The anchor returned
    as [before] is the projection of a stored document at or before the
    target time, and no stored document at or before the target time is
    later than it; the anchor returned as [after] is the projection of a
    stored document after the target time, and no such document is earlier
    than it.  [before] is missing exactly when every stored document is after
    the target time, [after] exactly when none is.  When both are returned,
    [before] is strictly earlier than [after]. *)
Theorem findBracketingAnchors_brackets :
  forall (targetTime : Z) (docs : list SystemTransaction.t),
    let before := fst (AnchorStore.findBracketingAnchors targetTime docs) in
    let after := snd (AnchorStore.findBracketingAnchors targetTime docs) in
    (forall a, before = Some a ->
       AnchorStore.blockTimestamp a <= targetTime /\
       (exists d, d ∈ docs /\ a = AnchorStore.project d) /\
       forall e, e ∈ docs -> SystemTransaction.blockTimestamp e <= targetTime ->
         SystemTransaction.blockTimestamp e <= AnchorStore.blockTimestamp a) /\
    (before = None <->
       forall e, e ∈ docs -> targetTime < SystemTransaction.blockTimestamp e) /\
    (forall a, after = Some a ->
       targetTime < AnchorStore.blockTimestamp a /\
       (exists d, d ∈ docs /\ a = AnchorStore.project d) /\
       forall e, e ∈ docs -> targetTime < SystemTransaction.blockTimestamp e ->
         AnchorStore.blockTimestamp a <= SystemTransaction.blockTimestamp e) /\
    (after = None <->
       forall e, e ∈ docs -> SystemTransaction.blockTimestamp e <= targetTime) /\
    (forall a b, before = Some a -> after = Some b ->
       AnchorStore.blockTimestamp a < AnchorStore.blockTimestamp b).
Proof.
  intros T docs before after. subst before after.
  unfold AnchorStore.findBracketingAnchors. cbn [fst snd].
  set (older := filter (fun d => SystemTransaction.blockTimestamp d <= T) docs).
  set (newer := filter (fun d => SystemTransaction.blockTimestamp d > T) docs).
  assert (Hb : forall a, AnchorStore.project <$> AnchorStore.latest older = Some a ->
            AnchorStore.blockTimestamp a <= T /\
            (exists d, d ∈ docs /\ a = AnchorStore.project d) /\
            forall e, e ∈ docs -> SystemTransaction.blockTimestamp e <= T ->
              SystemTransaction.blockTimestamp e <= AnchorStore.blockTimestamp a).
  { intros a Ha. destruct (AnchorStore.latest older) as [d|] eqn:E; [|discriminate].
    injection Ha as <-. apply latest_Some in E as [Hin Hmax].
    apply list_elem_of_filter in Hin as [Hts Hin]. split; [exact Hts|].
    split; [eauto|]. intros e He Hets. apply (Hmax e).
    apply list_elem_of_filter. now split. }
  assert (Ha : forall a, AnchorStore.project <$> AnchorStore.earliest newer = Some a ->
            T < AnchorStore.blockTimestamp a /\
            (exists d, d ∈ docs /\ a = AnchorStore.project d) /\
            forall e, e ∈ docs -> T < SystemTransaction.blockTimestamp e ->
              AnchorStore.blockTimestamp a <= SystemTransaction.blockTimestamp e).
  { intros a Ha. destruct (AnchorStore.earliest newer) as [d|] eqn:E; [|discriminate].
    injection Ha as <-. apply earliest_Some in E as [Hin Hmin].
    apply list_elem_of_filter in Hin as [Hts Hin]. split; [simpl; lia|].
    split; [eauto|]. intros e He Hets. apply (Hmin e).
    apply list_elem_of_filter. split; [lia | exact He]. }
  split; [exact Hb|]. split; [|split; [exact Ha|split]].
  - split.
    + intros Hnone e He.
      destruct (AnchorStore.latest older) as [d|] eqn:E; [discriminate|].
      apply latest_None in E.
      destruct (Z.le_gt_cases (SystemTransaction.blockTimestamp e) T) as [Hle|Hgt];
        [|lia].
      assert (Hin : e ∈ older) by (apply list_elem_of_filter; now split).
      rewrite E in Hin. inversion Hin.
    + intros Hall. destruct (AnchorStore.latest older) as [d|] eqn:E; [|reflexivity].
      apply latest_Some in E as [Hin _].
      apply list_elem_of_filter in Hin as [Hts Hin]. specialize (Hall d Hin). lia.
  - split.
    + intros Hnone e He.
      destruct (AnchorStore.earliest newer) as [d|] eqn:E; [discriminate|].
      apply earliest_None in E.
      destruct (Z.le_gt_cases (SystemTransaction.blockTimestamp e) T) as [Hle|Hgt];
        [exact Hle|].
      assert (Hin : e ∈ newer) by (apply list_elem_of_filter; split; [lia | exact He]).
      rewrite E in Hin. inversion Hin.
    + intros Hall. destruct (AnchorStore.earliest newer) as [d|] eqn:E; [|reflexivity].
      apply earliest_Some in E as [Hin _].
      apply list_elem_of_filter in Hin as [Hts Hin]. specialize (Hall d Hin). lia.
  - intros a b Hsa Hsb. destruct (Hb a Hsa) as [H1 _]. destruct (Ha b Hsb) as [H2 _].
    lia.
Qed.

Lemma findBracketingAnchors_brackets_witness :
  AnchorStore.blockTimestamp (AnchorStore.mkAnchor 1000 Scenario.T)
    < AnchorStore.blockTimestamp (AnchorStore.mkAnchor 2000 (Scenario.T + 1000000)).
Proof.
  destruct (findBracketingAnchors_brackets (Scenario.T + 500000)
              [Scenario.anchorDoc 1000 Scenario.T;
               Scenario.anchorDoc 2000 (Scenario.T + 1000000)]) as (_ & _ & _ & _ & H).
  apply H; vm_compute; reflexivity.
Defined.

(** ** Storing fetched blocks *)

Lemma storeBlocksSystemTxs_insertMany store blocks :
  AnchorStore.storeBlocksSystemTxs store blocks
  = AnchorStore.insertMany store (AnchorStore.allDocs blocks).
Proof.
  unfold AnchorStore.storeBlocksSystemTxs.
  destruct (AnchorStore.allDocs blocks); reflexivity.
Qed.

Lemma insertMany_extends (docs : list SystemTransaction.t) :
  forall store, exists added,
    AnchorStore.insertMany store docs = (store ++ added)%list /\
    forall d, d ∈ added -> d ∈ docs.
Proof.
  induction docs as [|x rest IH]; intros store; simpl.
  - exists []. split; [now rewrite app_nil_r | intros d H; inversion H].
  - case_bool_decide.
    + destruct (IH store) as (added & -> & Hadded). exists added.
      split; [reflexivity|]. intros d Hd. right. now apply Hadded.
    + destruct (IH (store ++ [x])%list) as (added & -> & Hadded). exists (x :: added).
      split; [now rewrite <- app_assoc|].
      intros d Hd. apply elem_of_cons in Hd as [->|Hd]; [now left|].
      right. now apply Hadded.
Qed.

Lemma insertMany_NoDup (docs : list SystemTransaction.t) :
  forall store,
    NoDup (map SystemTransaction.hash store) ->
    NoDup (map SystemTransaction.hash (AnchorStore.insertMany store docs)).
Proof.
  induction docs as [|x rest IH]; intros store Hnd; simpl; [exact Hnd|].
  case_bool_decide as Hx; [now apply IH|].
  apply IH. rewrite map_app. simpl. apply NoDup_app. split; [exact Hnd|].
  split; [|apply NoDup_singleton].
  intros h Hh Hh'. apply list_elem_of_singleton in Hh' as ->. contradiction.
Qed.

Lemma insertMany_keeps_hash (docs : list SystemTransaction.t) :
  forall store h,
    h ∈ map SystemTransaction.hash store ->
    h ∈ map SystemTransaction.hash (AnchorStore.insertMany store docs).
Proof.
  intros store h Hh. destruct (insertMany_extends docs store) as (added & -> & _).
  rewrite map_app. apply elem_of_app. now left.
Qed.

Lemma insertMany_stores_hashes (docs : list SystemTransaction.t) :
  forall store d,
    d ∈ docs ->
    SystemTransaction.hash d ∈ map SystemTransaction.hash (AnchorStore.insertMany store docs).
Proof.
  induction docs as [|x rest IH]; intros store d Hd; [inversion Hd|]. simpl.
  apply elem_of_cons in Hd as [->|Hd].
  - case_bool_decide as Hx; [now apply insertMany_keeps_hash|].
    apply insertMany_keeps_hash. rewrite map_app. apply elem_of_app. right. now left.
  - case_bool_decide; now apply IH.
Qed.

Lemma insertMany_all_stored (docs : list SystemTransaction.t) :
  forall store,
    (forall d, d ∈ docs ->
       SystemTransaction.hash d ∈ map SystemTransaction.hash store) ->
    AnchorStore.insertMany store docs = store.
Proof.
  induction docs as [|x rest IH]; intros store Hall; simpl; [reflexivity|].
  case_bool_decide as Hx.
  - apply IH. intros d Hd. apply Hall. now right.
  - exfalso. apply Hx, Hall. now left.
Qed.

(** X7: storing fetched blocks only ever adds documents.  The collection
    after the call is the collection before it followed by documents built
    from the blocks' system transactions, so no stored document is removed,
    changed or reordered; hashes that were pairwise distinct stay pairwise
    distinct; the hash of every system transaction of the blocks is stored
    afterwards; blocks without system transactions leave the collection as
    it was; storing the same blocks a second time changes nothing; and the
    one-block variant agrees with the batch variant on a single block. *)
Theorem storeBlocksSystemTxs_only_adds :
  forall (store : list SystemTransaction.t) (blocks : list BlockData.t),
    let store' := AnchorStore.storeBlocksSystemTxs store blocks in
    (exists added, store' = (store ++ added)%list /\
       forall d, d ∈ added ->
         exists block tx, block ∈ blocks /\ tx ∈ BlockData.systemTxs block /\
                          d = AnchorStore.docOfTx block tx) /\
    (NoDup (map SystemTransaction.hash store) ->
     NoDup (map SystemTransaction.hash store')) /\
    (forall block tx, block ∈ blocks -> tx ∈ BlockData.systemTxs block ->
       SystemTx.hash tx ∈ map SystemTransaction.hash store') /\
    ((forall block, block ∈ blocks -> BlockData.systemTxs block = []) ->
     store' = store) /\
    AnchorStore.storeBlocksSystemTxs store' blocks = store' /\
    (forall block,
       AnchorStore.storeBlockSystemTxs store block
       = AnchorStore.storeBlocksSystemTxs store [block]).
Proof.
  intros store blocks store'. subst store'.
  rewrite !storeBlocksSystemTxs_insertMany.
  assert (Hdocs : forall d, d ∈ AnchorStore.allDocs blocks <->
            exists block tx, block ∈ blocks /\ tx ∈ BlockData.systemTxs block /\
                             d = AnchorStore.docOfTx block tx).
  { intros d. unfold AnchorStore.allDocs. rewrite list_elem_of_In, in_flat_map. split.
    - intros (block & Hb & Hd). apply list_elem_of_In in Hb.
      apply list_elem_of_filter in Hb as [_ Hb].
      apply in_map_iff in Hd as (tx & <- & Htx). apply list_elem_of_In in Htx. eauto.
    - intros (block & tx & Hb & Htx & ->). exists block. split.
      + apply list_elem_of_In. apply list_elem_of_filter. split; [|exact Hb].
        destruct (BlockData.systemTxs block); [inversion Htx | simpl; lia].
      + apply in_map. now apply list_elem_of_In. }
  split; [|split; [|split; [|split; [|split]]]].
  - destruct (insertMany_extends (AnchorStore.allDocs blocks) store)
      as (added & Heq & Hadded).
    exists added. split; [exact Heq|]. intros d Hd. apply Hdocs. now apply Hadded.
  - apply insertMany_NoDup.
  - intros block tx Hb Htx.
    apply (insertMany_stores_hashes _ store (AnchorStore.docOfTx block tx)).
    apply Hdocs. eauto.
  - intros Hempty.
    replace (AnchorStore.allDocs blocks) with (@nil SystemTransaction.t);
      [reflexivity|].
    symmetry. destruct (AnchorStore.allDocs blocks) as [|d rest] eqn:E; [reflexivity|].
    assert (Hd : d ∈ d :: rest) by now left.
    apply Hdocs in Hd as (block & tx & Hb & Htx & _).
    rewrite (Hempty block Hb) in Htx. inversion Htx.
  - apply insertMany_all_stored. intros d Hd. now apply insertMany_stores_hashes.
  - intros block. rewrite storeBlocksSystemTxs_insertMany.
    unfold AnchorStore.storeBlockSystemTxs, AnchorStore.allDocs.
    destruct (BlockData.systemTxs block) as [|tx txs] eqn:E.
    + rewrite filter_cons_False by (rewrite E; simpl; lia). reflexivity.
    + rewrite filter_cons_True by (rewrite E; simpl; lia).
      rewrite filter_nil. simpl. rewrite E, app_nil_r. reflexivity.
Qed.

Lemma storeBlocksSystemTxs_only_adds_witness :
  NoDup (map SystemTransaction.hash
           (AnchorStore.storeBlocksSystemTxs [Scenario.storedAnchor]
              [Scenario.block1500; Scenario.block1501])) /\
  SystemTx.hash (Scenario.otherTx "0xa3")
    ∈ map SystemTransaction.hash
        (AnchorStore.storeBlocksSystemTxs [Scenario.storedAnchor]
           [Scenario.block1500; Scenario.block1501]).
Proof.
  destruct (storeBlocksSystemTxs_only_adds [Scenario.storedAnchor]
              [Scenario.block1500; Scenario.block1501]) as (_ & Hnd & Hin & _).
  split.
  - apply Hnd. simpl. apply NoDup_singleton.
  - apply (Hin Scenario.block1501); [right; left | left].
Defined.

(** ** A stored match is found again in the store *)

Lemma insertMany_stores_doc (docs : list SystemTransaction.t) :
  forall store d0,
    d0 ∈ docs ->
    (forall d, d ∈ (store ++ docs)%list ->
       SystemTransaction.hash d = SystemTransaction.hash d0 -> d = d0) ->
    d0 ∈ AnchorStore.insertMany store docs.
Proof.
  induction docs as [|x rest IH]; intros store d0 Hd0 Huniq; [inversion Hd0|]. simpl.
  case_bool_decide as Hx.
  - apply elem_of_cons in Hd0 as [->|Hd0].
    + apply list_elem_of_fmap in Hx as (s & Hhash & Hs).
      assert (s = x) as ->.
      { apply Huniq; [apply elem_of_app; now left | now symmetry]. }
      destruct (insertMany_extends rest store) as (added & -> & _).
      apply elem_of_app. now left.
    + apply IH; [exact Hd0|]. intros d Hd. apply Huniq.
      apply elem_of_app in Hd as [Hd|Hd]; apply elem_of_app; [now left|].
      right. now right.
  - apply elem_of_cons in Hd0 as [->|Hd0].
    + destruct (insertMany_extends rest (store ++ [x])%list) as (added & -> & _).
      apply elem_of_app. left. apply elem_of_app. right. now left.
    + apply IH; [exact Hd0|]. intros d Hd. apply Huniq.
      rewrite <- app_assoc in Hd. exact Hd.
Qed.

Lemma allDocs_elem blocks block tx :
  block ∈ blocks -> tx ∈ BlockData.systemTxs block ->
  AnchorStore.docOfTx block tx ∈ AnchorStore.allDocs blocks.
Proof.
  intros Hb Htx. unfold AnchorStore.allDocs. rewrite list_elem_of_In, in_flat_map.
  exists block. split.
  - apply list_elem_of_In. apply list_elem_of_filter. split; [|exact Hb].
    destruct (BlockData.systemTxs block); [inversion Htx | simpl; lia].
  - apply in_map. now apply list_elem_of_In.
Qed.

(** X8: a match found by searching is found in the store the next time.
    Suppose a search ends successfully with a transaction of a fetched
    block, the fetched blocks are then stored, and the finder is run again
    for the same transfer against the resulting store, with the same answer
    of the asset lookup.  If the block's timestamp lies in the window of the
    cache probe (five seconds before to 120 seconds after the transfer
    time), the transaction's amount is written in plain decimal, and its hash
    is not used by a different document, then the second run succeeds from
    the store, with zero rounds and without calling the fetcher; the stored
    document it returns is not later than the matched block, and it is the
    document of the matched transaction, with the same hash and block as
    the first result, when no other stored document in the window carries
    the same sender, recipient and amount. *)
Theorem stored_match_is_found_in_store :
  forall (parseAmount : string -> Z -> option Z) (env env' : Finder.Env)
         (transfer : Transfer.t) (fetcher fetcher' : Finder.BlockFetcherService)
         (b : BlockData.t) (tx : SystemTx.t) (r : Finder.FindResult)
         (store : list SystemTransaction.t) (blocks : list BlockData.t),
    let store' := AnchorStore.storeBlocksSystemTxs store blocks in
    let found := AnchorStore.docOfTx b tx in
    Finder.outcome (Finder.findEvmHash parseAmount env transfer fetcher)
      = Finder.Success (Finder.FromBlock b tx) r ->
    b ∈ blocks ->
    (forall d, d ∈ (store ++ AnchorStore.allDocs blocks)%list ->
       SystemTransaction.hash d = SystemTx.hash tx -> d = found) ->
    Finder.lookupAsset env' (normalizeAddress (Transfer.systemAddress transfer))
      = Finder.lookupAsset env (normalizeAddress (Transfer.systemAddress transfer)) ->
    Finder.probeStore env' = Some store' ->
    Transfer.hypercoreTime transfer - 5000 <= BlockData.timestamp b
      <= Transfer.hypercoreTime transfer + 120000 ->
    JS.BigInt_toString <$> JS.BigInt (SystemTx.amountWei tx)
      = Some (SystemTx.amountWei tx) ->
    exists d',
      Finder.findEvmHash parseAmount env' transfer fetcher'
        = Finder.mkRun (Finder.Success (Finder.FromCache d') (Finder.resultOfDoc d')) [] 0 /\
      d' ∈ store' /\
      SystemTransaction.blockTimestamp d' <= BlockData.timestamp b /\
      ((forall e, e ∈ store' ->
          SystemTransaction.from e = SystemTransaction.from found ->
          SystemTransaction.assetRecipient e = SystemTransaction.assetRecipient found ->
          SystemTransaction.amountWei e = SystemTransaction.amountWei found ->
          Transfer.hypercoreTime transfer - 5000 <= SystemTransaction.blockTimestamp e
            <= Transfer.hypercoreTime transfer + 120000 ->
          e = found) ->
       d' = found /\
       Finder.hash (Finder.resultOfDoc d') = Finder.hash r /\
       Finder.explorerHash (Finder.resultOfDoc d') = Finder.explorerHash r /\
       Finder.block (Finder.resultOfDoc d') = Finder.block r /\
       Finder.blockHash (Finder.resultOfDoc d') = Finder.blockHash r /\
       Finder.blockTime (Finder.resultOfDoc d') = Finder.blockTime r).
Proof.
  intros parseAmount env env' transfer fetcher fetcher' b tx r store blocks store' found
    Hrun Hb Hhash Hasset Hstore Hwindow Hcanon.
  unfold Finder.findEvmHash in Hrun |- *. rewrite Hasset.
  destruct (Finder.lookupAsset env _) as [asset|]; [|discriminate].
  destruct (parseAmount _ _) as [expectedAmount|]; [|discriminate].
  match type of Hrun with
  | context [match ?x with Some d => Finder.finish _ | None => _ end] =>
      destruct x as [d|]; [discriminate|]
  end.
  apply searchRounds_success in Hrun
    as (b1 & tx1 & idx & nums & bs & Hm & _ & _ & Htx & Hmatch & Hr & _).
  injection Hm as <- <-.
  apply matchesTx_true in Hmatch as (Hfrom & Hto & Hamount).
  rewrite Hamount in Hcanon. simpl in Hcanon. injection Hcanon as Hcanon.
  assert (Hfound : found ∈ store').
  { subst store' found. rewrite storeBlocksSystemTxs_insertMany.
    apply insertMany_stores_doc; [now apply allDocs_elem | exact Hhash]. }
  assert (Hq : Finder.inProbeWindow transfer expectedAmount found).
  { unfold Finder.inProbeWindow, found, AnchorStore.docOfTx. simpl.
    unfold normalizeAddress in Hfrom, Hto. rewrite Hfrom, Hto.
    repeat split; try reflexivity; try lia. now symmetry. }
  apply inProbeWindow_query in Hq.
  destruct (findMatchingTx_finds _ _ _ Hfound Hq) as [d' Hd'].
  exists d'. rewrite Hstore, Hd'.
  apply findMatchingTx_Some in Hd' as (Hin' & Hq' & Hmin).
  split; [reflexivity|]. split; [exact Hin'|].
  split; [apply (Hmin found Hfound Hq)|].
  intros Huniq.
  assert (d' = found) as ->.
  { apply inProbeWindow_query in Hq' as (H1 & H2 & H3 & H4 & H5).
    apply inProbeWindow_query in Hq as (G1 & G2 & G3 & _).
    apply Huniq; [exact Hin' | congruence | congruence | congruence | lia]. }
  split; [reflexivity|]. rewrite Hr. repeat split; reflexivity.
Qed.

Lemma stored_match_is_found_in_store_witness :
  exists d',
    Finder.findEvmHash Viem.parseUnits
      {| Finder.bySystemAddress := Scenario.assets; Finder.refreshAssetCache := None;
         Finder.probeStore :=
           Some (AnchorStore.storeBlocksSystemTxs
                   (AnchorStore.allDocs [Scenario.block1500; Scenario.block1501])
                   [Scenario.block1500; Scenario.ownBlock 1501 (Scenario.T + 2000)]);
         Finder.boundsStore := None |}
      (Scenario.transfer Scenario.userLower) Scenario.deadFetcher
    = Finder.mkRun (Finder.Success (Finder.FromCache d') (Finder.resultOfDoc d')) [] 0.
Proof.
  destruct (stored_match_is_found_in_store Viem.parseUnits Scenario.adjacentEnv
              {| Finder.bySystemAddress := Scenario.assets;
                 Finder.refreshAssetCache := None;
                 Finder.probeStore :=
                   Some (AnchorStore.storeBlocksSystemTxs
                           (AnchorStore.allDocs [Scenario.block1500; Scenario.block1501])
                           [Scenario.block1500;
                            Scenario.ownBlock 1501 (Scenario.T + 2000)]);
                 Finder.boundsStore := None |}
              (Scenario.transfer Scenario.userLower) Scenario.ownFetcher
              Scenario.deadFetcher
              (Scenario.ownBlock 1501 (Scenario.T + 2000)) Scenario.ownTx
              (Finder.resultOfBlock (Scenario.ownBlock 1501 (Scenario.T + 2000))
                 Scenario.ownTx 2 0)
              (AnchorStore.allDocs [Scenario.block1500; Scenario.block1501])
              [Scenario.block1500; Scenario.ownBlock 1501 (Scenario.T + 2000)])
    as (d' & Hrun & _).
  - vm_compute. reflexivity.
  - right. left.
  - intros d Hd Hh. vm_compute in Hd.
    repeat (apply elem_of_cons in Hd as [->|Hd]; [try reflexivity; try discriminate|]).
    inversion Hd.
  - reflexivity.
  - reflexivity.
  - vm_compute. split; discriminate.
  - vm_compute. reflexivity.
  - exists d'. exact Hrun.
Defined.

(* ===================================================================== *)
(** * Further properties of the transfer store *)
(* ===================================================================== *)

Lemma insertLoop_new_key (docs : list Transfer.t) :
  forall (s s' : gmap string Transfer.t) (i : nat) inserted errors,
    TransferStore.insertLoop s i docs = (s', inserted, errors) ->
    forall h t, s' !! h = Some t ->
      s !! h = Some t \/ (t ∈ docs /\ Transfer.hypercoreHash t = h).
Proof.
  induction docs as [|x rest IH]; intros s s' i ins errs; simpl.
  - intros [= <- <- <-]. auto.
  - destruct (s !! Transfer.hypercoreHash x) eqn:Hx.
    + destruct (TransferStore.insertLoop s (S i) rest) as [[s1 i1] e1] eqn:E.
      intros [= <- <- <-] h t0 Ht.
      destruct (IH _ _ _ _ _ E h t0 Ht) as [Hold|[Hin Hh]]; [now left|].
      right. split; [now right | exact Hh].
    + destruct (TransferStore.insertLoop _ (S i) rest) as [[s1 i1] e1] eqn:E.
      intros [= <- <- <-] h t0 Ht.
      destruct (IH _ _ _ _ _ E h t0 Ht) as [Hold|[Hin Hh]].
      * destruct (decide (Transfer.hypercoreHash x = h)) as [<-|Hne].
        -- rewrite lookup_insert_eq in Hold. injection Hold as <-.
           right. split; [now left | reflexivity].
        -- rewrite lookup_insert_ne in Hold by exact Hne. now left.
      * right. split; [now right | exact Hh].
Qed.

Lemma apply_lookup op (s : gmap string Transfer.t) h t' :
  TransferStore.apply op s !! h = Some t' ->
  s !! h = Some t' \/
  (exists t evmData, s !! h = Some t /\ op = TransferStore.OpMarkMatched h evmData /\
                     t' = TransferStore.setMatched evmData t) \/
  (exists t reason, s !! h = Some t /\ op = TransferStore.OpMarkFailed h reason /\
                    t' = TransferStore.setFailed reason t) \/
  (exists batch n, s !! h = None /\ op = TransferStore.OpInsertBatch batch /\
                   n ∈ batch /\ TransferStore.hypercoreHash n = h /\
                   t' = TransferStore.docOfNew n).
Proof.
  destruct op as [batch|h' evmData|h' reason]; simpl.
  - rewrite insertTransfersBatch_store.
    destruct (TransferStore.insertLoop s 0 (map TransferStore.docOfNew batch))
      as [[s' ins] errs] eqn:E.
    simpl. intros Ht.
    destruct (insertLoop_new_key _ _ _ _ _ _ E h t' Ht) as [Hold|[Hnew Hh]];
      [now left|].
    apply list_elem_of_fmap in Hnew as (n & -> & Hn).
    destruct (s !! h) as [t|] eqn:Hs.
    + left. pose proof (insert_batch_keeps_existing s batch h t Hs) as Hkeep.
      rewrite insertTransfersBatch_store, E in Hkeep. simpl in Hkeep. congruence.
    + right. right. right. exists batch, n. auto.
  - unfold TransferStore.markTransferMatched. destruct (decide (h' = h)) as [->|Hne].
    + rewrite lookup_alter_eq. destruct (s !! h) as [t|]; simpl; [|discriminate].
      intros [= <-]. right. left. eauto.
    + rewrite lookup_alter_ne by exact Hne. now left.
  - unfold TransferStore.markTransferFailed. destruct (decide (h' = h)) as [->|Hne].
    + rewrite lookup_alter_eq. destruct (s !! h) as [t|]; simpl; [|discriminate].
      intros [= <-]. right. right. left. eauto.
    + rewrite lookup_alter_ne by exact Hne. now left.
Qed.

(** X9: the write operations keep the stored transfers consistent and
    never touch their HyperCore side.  If every stored document is filed
    under its own hash and has fields that agree with its status (PENDING:
    no EVM data and no failure reason; MATCHED: all five EVM fields set and
    no failure reason; FAILED: a failure reason), then the same holds after
    any bulk insert, mark-matched or mark-failed; the empty collection is
    consistent, so every collection reached by these operations is.  A
    document present before an operation keeps its hash, time, token,
    amount, value and fee fields, user, system address and watched address;
    a document marked failed also keeps whatever EVM data it had; and a
    mark operation on a hash that is not stored changes nothing. *)
Theorem store_operations_keep_documents_consistent :
  forall (op : TransferStore.Op) (s : gmap string Transfer.t),
    ((forall h t, s !! h = Some t -> TransferFacts.consistent h t) ->
     forall h t', TransferStore.apply op s !! h = Some t' ->
       TransferFacts.consistent h t') /\
    (forall h t, s !! h = Some t ->
       exists t', TransferStore.apply op s !! h = Some t' /\
         TransferFacts.hyperCoreData t' = TransferFacts.hyperCoreData t /\
         (forall reason, op = TransferStore.OpMarkFailed h reason ->
            Transfer.hyperevmHash t' = Transfer.hyperevmHash t /\
            Transfer.hyperevmExplorerHash t' = Transfer.hyperevmExplorerHash t /\
            Transfer.hyperevmBlock t' = Transfer.hyperevmBlock t /\
            Transfer.hyperevmBlockHash t' = Transfer.hyperevmBlockHash t /\
            Transfer.hyperevmTime t' = Transfer.hyperevmTime t /\
            Transfer.contractAddress t' = Transfer.contractAddress t)) /\
    (forall h evmData reason, s !! h = None ->
       TransferStore.markTransferMatched h evmData s = s /\
       TransferStore.markTransferFailed h reason s = s).
Proof.
  intros op s. split; [|split].
  - intros Hwf h t' Ht'.
    destruct (apply_lookup op s h t' Ht')
      as [Hs|[(t & e & Hs & _ & ->)|[(t & r & Hs & _ & ->)|(b & n & _ & _ & _ & Hh & ->)]]].
    + now apply Hwf.
    + destruct (Hwf h t Hs) as [Hh _]. split; [exact Hh|]. simpl.
      unfold TransferFacts.evmFilled. simpl. repeat split; eauto.
    + destruct (Hwf h t Hs) as [Hh _]. split; [exact Hh|]. simpl. eauto.
    + split; [exact Hh|]. simpl. unfold TransferFacts.evmEmpty. simpl.
      repeat split.
  - intros h t Hs. destruct op as [batch|h' evmData|h' reason]; simpl.
    + exists t. split; [now apply insert_batch_keeps_existing|].
      split; [reflexivity | discriminate].
    + unfold TransferStore.markTransferMatched.
      destruct (decide (h' = h)) as [->|Hne].
      * exists (TransferStore.setMatched evmData t). rewrite lookup_alter_eq, Hs.
        split; [reflexivity|]. split; [reflexivity | discriminate].
      * exists t. rewrite lookup_alter_ne by exact Hne.
        split; [exact Hs|]. split; [reflexivity | discriminate].
    + unfold TransferStore.markTransferFailed.
      destruct (decide (h' = h)) as [->|Hne].
      * exists (TransferStore.setFailed reason t). rewrite lookup_alter_eq, Hs.
        split; [reflexivity|]. split; [reflexivity|]. intros _ _. repeat split.
      * exists t. rewrite lookup_alter_ne by exact Hne.
        split; [exact Hs|]. split; [reflexivity|]. intros r [= -> _]. congruence.
  - intros h evmData reason Hs.
    unfold TransferStore.markTransferMatched, TransferStore.markTransferFailed.
    split; apply map_eq; intros k; destruct (decide (h = k)) as [<-|Hne].
    + now rewrite lookup_alter_eq, Hs.
    + now rewrite lookup_alter_ne.
    + now rewrite lookup_alter_eq, Hs.
    + now rewrite lookup_alter_ne.
Qed.

Lemma store_operations_keep_documents_consistent_witness :
  TransferFacts.consistent "0xc0de01"
    (TransferStore.setFailed "Not found"
       (TransferStore.setMatched Scenario.evmData
          (TransferStore.docOfNew (Scenario.newTransfer "0xc0de01")))).
Proof.
  apply (proj1 (store_operations_keep_documents_consistent
                  (TransferStore.OpMarkFailed "0xc0de01" "Not found")
                  Scenario.matchedStore)); [|vm_compute; reflexivity].
  apply (proj1 (store_operations_keep_documents_consistent
                  (TransferStore.OpMarkMatched "0xc0de01" Scenario.evmData)
                  (fst (TransferStore.insertTransfersBatch ∅
                          [Scenario.newTransfer "0xc0de01"])))).
  apply (proj1 (store_operations_keep_documents_consistent
                  (TransferStore.OpInsertBatch [Scenario.newTransfer "0xc0de01"]) ∅)).
  intros h t Ht. rewrite lookup_empty in Ht. discriminate.
Defined.

(* ===================================================================== *)
(** * Further properties of the matcher *)
(* ===================================================================== *)

(** ** The producer's refill *)

Lemma fold_setAdd (hs : list string) :
  forall set, exists added,
    fold_left (fun acc h => Matcher.setAdd h acc) hs set = (set ++ added)%list /\
    (forall h, h ∈ hs -> h ∈ (set ++ added)%list) /\
    (forall h, h ∈ added -> h ∈ hs) /\
    (length added <= length hs)%nat /\
    (NoDup set -> NoDup (set ++ added)%list).
Proof.
  induction hs as [|x rest IH]; intros set; simpl.
  - exists []. rewrite app_nil_r. split; [reflexivity|].
    split; [intros h H; inversion H|]. split; [intros h H; inversion H|].
    split; [simpl; lia | auto].
  - unfold Matcher.setAdd at 2. case_bool_decide as Hx.
    + destruct (IH set) as (added & -> & Hin & Hsub & Hlen & Hnd). exists added.
      split; [reflexivity|]. split; [|split; [|split; [lia | exact Hnd]]].
      * intros h Hh. apply elem_of_cons in Hh as [->|Hh]; [|now apply Hin].
        apply elem_of_app. now left.
      * intros h Hh. right. now apply Hsub.
    + destruct (IH (set ++ [x])%list) as (added & -> & Hin & Hsub & Hlen & Hnd).
      exists (x :: added). rewrite <- app_assoc. simpl.
      split; [reflexivity|]. split; [|split; [|split; [simpl; lia|]]].
      * intros h Hh. apply elem_of_cons in Hh as [->|Hh].
        -- apply elem_of_app. right. now left.
        -- specialize (Hin h Hh). rewrite <- app_assoc in Hin. exact Hin.
      * intros h Hh. apply elem_of_cons in Hh as [->|Hh]; [now left|].
        right. now apply Hsub.
      * intros Hset. rewrite <- app_assoc in Hnd. apply Hnd.
        apply NoDup_app. split; [exact Hset|]. split; [|apply NoDup_singleton].
        intros h Hh Hh'. apply list_elem_of_singleton in Hh' as ->. contradiction.
Qed.

Lemma addHashes_spec (newHashes set : list string) :
  Z.of_nat (length newHashes) <= 5000 ->
  (forall h, h ∈ newHashes -> h ∉ set) ->
  (forall h, h ∈ newHashes -> h ∈ Matcher.addHashes newHashes set) /\
  (forall h, h ∈ Matcher.addHashes newHashes set -> h ∈ set \/ h ∈ newHashes) /\
  Z.of_nat (length (Matcher.addHashes newHashes set)) <= 10000 /\
  (NoDup set -> NoDup (Matcher.addHashes newHashes set)).
Proof.
  intros Hnew Hfresh. unfold Matcher.addHashes.
  destruct (fold_setAdd newHashes set) as (added & -> & Hin & Hsub & Hlen & Hnd).
  assert (Helem : forall h, h ∈ (set ++ added)%list -> h ∈ set \/ h ∈ newHashes).
  { intros h Hh. apply elem_of_app in Hh as [Hh|Hh]; [now left | right; now apply Hsub]. }
  destruct (10000 <? Z.of_nat (length (set ++ added)%list)) eqn:E.
  - apply Z.ltb_lt in E. rewrite length_app in E.
    assert (Hk : (length (set ++ added)%list - Z.to_nat 5000 <= length set)%nat).
    { rewrite length_app. lia. }
    split; [|split; [|split]].
    + intros h Hh. specialize (Hin h Hh).
      rewrite drop_app_le by exact Hk. apply elem_of_app. right.
      apply elem_of_app in Hin as [Hin|Hin]; [|exact Hin].
      exfalso. now apply (Hfresh h Hh).
    + intros h Hh. apply Helem. eapply subseteq_drop. exact Hh.
    + rewrite length_drop, length_app. lia.
    + intros Hset. eapply sublist_NoDup; [now apply Hnd | apply sublist_drop].
  - apply Z.ltb_ge in E.
    split; [exact Hin|]. split; [exact Helem|]. split; [lia | exact Hnd].
Qed.

(** X10: a refill respects the queue capacity and the set of queued
    hashes.  A producer pass only appends to the queue, at most 256
    transfers, each of them returned by the pending query and with a hash
    that was not in the set of queued hashes; afterwards every such hash is
    in the set, and the set holds nothing but its former members and the new
    hashes.  The queue never grows beyond its capacity of 2048: a pass
    appends only when fewer than 100 transfers are queued.  The set of
    queued hashes never grows beyond 10000 entries and, having no duplicates
    before, has none afterwards.  When the statistics query or the pending
    query fails, or no transfer is pending, the queue and the set are left
    as they were. *)
Theorem producer_refill_is_bounded_and_deduplicated :
  forall (s3Fetcher rpcFetcher : Finder.BlockFetcherService)
         (db : Matcher.Db) (st : Matcher.State),
    let st' := Matcher.producer s3Fetcher rpcFetcher db st in
    (exists fresh,
       Matcher.queue st' = (Matcher.queue st ++ fresh)%list /\
       (length fresh <= 256)%nat /\
       (length fresh = 0%nat \/ (length (Matcher.queue st) < 100)%nat) /\
       (forall t, t ∈ fresh ->
          (Transfer.hypercoreHash t ∉ Matcher.queuedHashes st) /\
          Transfer.hypercoreHash t ∈ Matcher.queuedHashes st' /\
          exists pending, Matcher.pendingTransfers db = Some pending /\ t ∈ pending) /\
       (forall h, h ∈ Matcher.queuedHashes st' ->
          h ∈ Matcher.queuedHashes st \/ h ∈ map Transfer.hypercoreHash fresh) /\
       ((Matcher.getTransferStats db = None \/ Matcher.pendingTransfers db = None \/
         exists stats, Matcher.getTransferStats db = Some stats /\
                       Matcher.pending stats <= 0) ->
        fresh = [] /\ Matcher.queuedHashes st' = Matcher.queuedHashes st)) /\
    ((length (Matcher.queue st) <= 2048)%nat ->
     (length (Matcher.queue st') <= 2048)%nat) /\
    (Z.of_nat (length (Matcher.queuedHashes st)) <= 10000 ->
     Z.of_nat (length (Matcher.queuedHashes st')) <= 10000) /\
    (NoDup (Matcher.queuedHashes st) -> NoDup (Matcher.queuedHashes st')).
Proof.
  intros s3 rpc db st st'. subst st'. unfold Matcher.producer.
  assert (Hidle : forall st0 : Matcher.State,
    Matcher.queue st0 = Matcher.queue st ->
    Matcher.queuedHashes st0 = Matcher.queuedHashes st ->
    (exists fresh,
       Matcher.queue st0 = (Matcher.queue st ++ fresh)%list /\
       (length fresh <= 256)%nat /\
       (length fresh = 0%nat \/ (length (Matcher.queue st) < 100)%nat) /\
       (forall t, t ∈ fresh ->
          (Transfer.hypercoreHash t ∉ Matcher.queuedHashes st) /\
          Transfer.hypercoreHash t ∈ Matcher.queuedHashes st0 /\
          exists pending, Matcher.pendingTransfers db = Some pending /\ t ∈ pending) /\
       (forall h, h ∈ Matcher.queuedHashes st0 ->
          h ∈ Matcher.queuedHashes st \/ h ∈ map Transfer.hypercoreHash fresh) /\
       ((Matcher.getTransferStats db = None \/ Matcher.pendingTransfers db = None \/
         exists stats, Matcher.getTransferStats db = Some stats /\
                       Matcher.pending stats <= 0) ->
        fresh = [] /\ Matcher.queuedHashes st0 = Matcher.queuedHashes st)) /\
    ((length (Matcher.queue st) <= 2048)%nat ->
     (length (Matcher.queue st0) <= 2048)%nat) /\
    (Z.of_nat (length (Matcher.queuedHashes st)) <= 10000 ->
     Z.of_nat (length (Matcher.queuedHashes st0)) <= 10000) /\
    (NoDup (Matcher.queuedHashes st) -> NoDup (Matcher.queuedHashes st0))).
  { intros st0 Hq Hh. rewrite Hq, Hh. split; [|auto].
    exists []. rewrite app_nil_r. split; [reflexivity|]. split; [simpl; lia|].
    split; [now left|]. split; [intros t Ht; inversion Ht|]. split; auto. }
  destruct (Z.of_nat (length (Matcher.queue st)) <? Matcher.QUEUE_LOW_WATERMARK) eqn:Hlow;
    [|now apply Hidle].
  apply Z.ltb_lt in Hlow. unfold Matcher.QUEUE_LOW_WATERMARK in Hlow.
  destruct (Matcher.pending (default (Matcher.mkStats 0 0 0 0)
                               (Matcher.getTransferStats db)) >? 0) eqn:Hpending;
    [|now apply Hidle].
  apply Z.gtb_lt in Hpending.
  set (batchSize := Z.min (Matcher.QUEUE_CAPACITY - Z.of_nat (length (Matcher.queue st)))
                      Matcher.EVM_MATCHER_BATCH_SIZE).
  assert (HbatchSize : batchSize = 256).
  { unfold batchSize, Matcher.QUEUE_CAPACITY, Matcher.EVM_MATCHER_BATCH_SIZE. lia. }
  set (pending := default [] (Matcher.getPendingTransfers db batchSize)).
  set (fresh := filter (fun t => Transfer.hypercoreHash t ∉ Matcher.queuedHashes st)
                  pending).
  assert (Hpendinglen : (length pending <= 256)%nat).
  { unfold pending, Matcher.getPendingTransfers.
    destruct (Matcher.pendingTransfers db) as [l|]; simpl; [|lia].
    rewrite length_take, HbatchSize. lia. }
  assert (Hfreshlen : (length fresh <= 256)%nat).
  { unfold fresh. pose proof (length_filter
      (fun t => Transfer.hypercoreHash t ∉ Matcher.queuedHashes st) pending). lia. }
  assert (Hfresh : forall t, t ∈ fresh ->
            (Transfer.hypercoreHash t ∉ Matcher.queuedHashes st) /\
            exists l, Matcher.pendingTransfers db = Some l /\ t ∈ l).
  { intros t Ht. apply list_elem_of_filter in Ht as [Hnot Ht]. split; [exact Hnot|].
    unfold pending, Matcher.getPendingTransfers in Ht.
    destruct (Matcher.pendingTransfers db) as [l|]; simpl in Ht; [|inversion Ht].
    exists l. split; [reflexivity|]. eapply subseteq_take. exact Ht. }
  assert (Hset :
    let set' := match map Transfer.hypercoreHash fresh with
                | [] => Matcher.queuedHashes st
                | _ => Matcher.addHashes (map Transfer.hypercoreHash fresh)
                         (Matcher.queuedHashes st)
                end in
    (forall t, t ∈ fresh -> Transfer.hypercoreHash t ∈ set') /\
    (forall h, h ∈ set' ->
       h ∈ Matcher.queuedHashes st \/ h ∈ map Transfer.hypercoreHash fresh) /\
    (Z.of_nat (length (Matcher.queuedHashes st)) <= 10000 -> Z.of_nat (length set') <= 10000) /\
    (NoDup (Matcher.queuedHashes st) -> NoDup set') /\
    (fresh = [] -> set' = Matcher.queuedHashes st)).
  { destruct (map Transfer.hypercoreHash fresh) as [|h0 hs] eqn:Hmap.
    - simpl. split; [|auto].
      intros t Ht. destruct fresh; [inversion Ht | discriminate].
    - rewrite <- Hmap.
      destruct (addHashes_spec (map Transfer.hypercoreHash fresh)
                  (Matcher.queuedHashes st)) as (H1 & H2 & H3 & H4).
      + rewrite length_map. lia.
      + intros h Hh. apply list_elem_of_fmap in Hh as (t & -> & Ht).
        now apply Hfresh.
      + cbv zeta. split; [|split; [exact H2|split; [auto|split; [exact H4|]]]].
        * intros t Ht. apply H1. apply list_elem_of_fmap. eauto.
        * intros ->. discriminate. }
  cbv zeta in Hset. destruct Hset as (Hs1 & Hs2 & Hs3 & Hs4 & Hs5).
  cbn [Matcher.queue Matcher.queuedHashes].
  split; [|split; [|split; [exact Hs3 | exact Hs4]]].
  - exists fresh. split; [reflexivity|]. split; [exact Hfreshlen|].
    split; [right; lia|]. split; [|split; [exact Hs2|]].
    + intros t Ht. destruct (Hfresh t Ht) as [Hnot Hp]. auto.
    + intros Hfail.
      assert (fresh = []) as Hnil; [|split; [exact Hnil | now apply Hs5]].
      destruct Hfail as [Hstats|[Hpend|(stats & Hstats & Hle)]].
      * rewrite Hstats in Hpending. simpl in Hpending. lia.
      * unfold fresh, pending, Matcher.getPendingTransfers. now rewrite Hpend.
      * rewrite Hstats in Hpending. simpl in Hpending. lia.
  - intros _. rewrite length_app. lia.
Qed.

Lemma producer_refill_is_bounded_and_deduplicated_witness :
  (length (Matcher.queue
             (Matcher.producer Scenario.s3Fetcher Scenario.chainFetcher
                Samples.pendingDb Samples.idleState)) <= 2048)%nat /\
  NoDup (Matcher.queuedHashes
           (Matcher.producer Scenario.s3Fetcher Scenario.chainFetcher
              Samples.pendingDb Samples.idleState)) /\
  Matcher.queuedHashes
    (Matcher.producer Scenario.s3Fetcher Scenario.chainFetcher
       Samples.pendingDb Samples.idleState) = ["0xc0de00"; "0xc0de01"].
Proof.
  destruct (producer_refill_is_bounded_and_deduplicated Scenario.s3Fetcher
              Scenario.chainFetcher Samples.pendingDb Samples.idleState)
    as (_ & Hqueue & _ & Hnodup).
  split; [|split].
  - apply Hqueue. simpl. lia.
  - apply Hnodup. simpl. apply NoDup_singleton.
  - vm_compute. reflexivity.
Defined.

Lemma producer_queue_extends s3Fetcher rpcFetcher db st :
  exists fresh,
    Matcher.queue (Matcher.producer s3Fetcher rpcFetcher db st)
      = (Matcher.queue st ++ fresh)%list /\
    (((Matcher.QUEUE_LOW_WATERMARK <= Z.of_nat (length (Matcher.queue st)) \/
       Matcher.pending (default (Matcher.mkStats 0 0 0 0) (Matcher.getTransferStats db))
         <= 0) /\ fresh = []) \/
     (Z.of_nat (length (Matcher.queue st)) < Matcher.QUEUE_LOW_WATERMARK /\
      0 < Matcher.pending (default (Matcher.mkStats 0 0 0 0)
                             (Matcher.getTransferStats db)) /\
      fresh = filter (fun t => Transfer.hypercoreHash t ∉ Matcher.queuedHashes st)
                (default []
                   (Matcher.getPendingTransfers db
                      (Z.min (Matcher.QUEUE_CAPACITY - Z.of_nat (length (Matcher.queue st)))
                         Matcher.EVM_MATCHER_BATCH_SIZE))))).
Proof.
  unfold Matcher.producer.
  destruct (Z.of_nat (length (Matcher.queue st)) <? Matcher.QUEUE_LOW_WATERMARK) eqn:Hlow.
  - apply Z.ltb_lt in Hlow.
    destruct (Matcher.pending (default (Matcher.mkStats 0 0 0 0)
                                 (Matcher.getTransferStats db)) >? 0) eqn:Hp.
    + apply Z.gtb_lt in Hp. eexists. split; [reflexivity|]. right. auto.
    + rewrite Z.gtb_ltb in Hp. apply Z.ltb_ge in Hp.
      exists []. simpl. rewrite app_nil_r. split; [reflexivity|]. left. auto.
  - apply Z.ltb_ge in Hlow. exists []. rewrite app_nil_r.
    split; [reflexivity|]. left. auto.
Qed.

(** ** A worker pass *)

Lemma setDelete_spec h set :
  (h ∉ Worker.setDelete h set) /\
  (forall x, x <> h -> (x ∈ Worker.setDelete h set <-> x ∈ set)) /\
  (NoDup set -> NoDup (Worker.setDelete h set)).
Proof.
  unfold Worker.setDelete. split; [|split].
  - intros Hin. apply list_elem_of_filter in Hin as [Hne _]. congruence.
  - intros x Hx. rewrite list_elem_of_filter. tauto.
  - apply NoDup_filter.
Qed.

Lemma mark_other_unchanged (s : gmap string Transfer.t) h k evmData reason :
  k <> h ->
  TransferStore.markTransferMatched h evmData s !! k = s !! k /\
  TransferStore.markTransferFailed h reason s !! k = s !! k.
Proof.
  intros Hne. unfold TransferStore.markTransferMatched, TransferStore.markTransferFailed.
  split; apply lookup_alter_ne; congruence.
Qed.

(** X11: a worker pass settles exactly one transfer and touches nothing
    else.  A pass that completes removes the head of the queue, keeps the
    rest of the queue and the active fetcher, leaves every other stored
    transfer as it is, adds and removes no document, and raises exactly one
    of the three counters by one.  If the finder succeeded the stored
    transfer is MATCHED and carries the hash, explorer hash, block, block
    hash and block time of the finder's result; if the finder reported
    NotFound it is FAILED with the number of blocks searched in the reason;
    in both cases the set of queued hashes is unchanged.  On a timeout or any
    other failure the transfers collection is unchanged and the transfer's
    hash, and only that hash, leaves the set of queued hashes.  A pass on an
    empty queue waits, and a pass dies only on a defect of the finder or on
    a rejected update. *)
Theorem worker_pass_settles_one_transfer :
  forall (parseAmount : string -> Z -> option Z) (env : Finder.Env)
         (timedOut dbUp : bool) (st : Matcher.State) (counters : Worker.Counters)
         (store : gmap string Transfer.t),
    match Worker.worker parseAmount env timedOut dbUp st counters store with
    | Worker.Suspended => Matcher.queue st = []
    | Worker.Died =>
        exists transfer rest, Matcher.queue st = transfer :: rest /\
          timedOut = false /\
          (Finder.outcome (Finder.findEvmHash parseAmount env transfer
                             (Matcher.fetcherRef st)) = Finder.Defect \/
           dbUp = false)
    | Worker.Done st' counters' store' =>
        exists transfer rest,
          let h := Transfer.hypercoreHash transfer in
          let found := Finder.outcome (Finder.findEvmHash parseAmount env transfer
                                         (Matcher.fetcherRef st)) in
          Matcher.queue st = transfer :: rest /\
          Matcher.queue st' = rest /\
          Matcher.fetcherRef st' = Matcher.fetcherRef st /\
          (forall k, k <> h -> store' !! k = store !! k) /\
          (forall k, is_Some (store' !! k) <-> is_Some (store !! k)) /\
          Worker.matched counters' + Worker.failed counters' + Worker.errors counters'
            = Worker.matched counters + Worker.failed counters
              + Worker.errors counters + 1 /\
          ((exists m r, timedOut = false /\ found = Finder.Success m r /\
              Worker.matched counters' = Worker.matched counters + 1 /\
              Matcher.queuedHashes st' = Matcher.queuedHashes st /\
              forall t, store !! h = Some t ->
                exists t', store' !! h = Some t' /\
                  Transfer.status t' = MATCHED /\
                  Transfer.hyperevmHash t' = Some (Finder.hash r) /\
                  Transfer.hyperevmExplorerHash t' = Some (Finder.explorerHash r) /\
                  Transfer.hyperevmBlock t' = Some (Finder.block r) /\
                  Transfer.hyperevmBlockHash t' = Some (Finder.blockHash r) /\
                  Transfer.hyperevmTime t' = Some (Finder.blockTime r)) \/
           (exists n, timedOut = false /\ found = Finder.NotFoundError n /\
              Worker.failed counters' = Worker.failed counters + 1 /\
              Matcher.queuedHashes st' = Matcher.queuedHashes st /\
              forall t, store !! h = Some t ->
                exists t', store' !! h = Some t' /\
                  Transfer.status t' = FAILED /\
                  Transfer.failReason t' = Some (Worker.notFoundReason n)) \/
           ((timedOut = true \/ (exists e, found = Finder.FetchFailure e) \/
             found = Finder.RefreshFailure) /\
            Worker.errors counters' = Worker.errors counters + 1 /\
            store' = store /\
            (h ∉ Matcher.queuedHashes st') /\
            forall k, k <> h ->
              (k ∈ Matcher.queuedHashes st' <-> k ∈ Matcher.queuedHashes st)))
    end.
Proof.
  intros parseAmount env timedOut dbUp st counters store.
  unfold Worker.worker.
  destruct (Matcher.queue st) as [|transfer rest] eqn:Hq; [reflexivity|].
  unfold Worker.processTransfer.
  set (h := Transfer.hypercoreHash transfer).
  assert (Hkeep : forall evmData reason k,
            (is_Some (TransferStore.markTransferMatched h evmData store !! k)
               <-> is_Some (store !! k)) /\
            (is_Some (TransferStore.markTransferFailed h reason store !! k)
               <-> is_Some (store !! k))).
  { intros evmData reason k.
    unfold TransferStore.markTransferMatched, TransferStore.markTransferFailed.
    destruct (decide (h = k)) as [<-|Hne].
    - rewrite !lookup_alter_eq. destruct (store !! h); simpl; split; split; eauto;
        intros [? ?]; discriminate.
    - rewrite !lookup_alter_ne by exact Hne. tauto. }
  assert (Herror :
    (timedOut = true \/
     (exists e, Finder.outcome (Finder.findEvmHash parseAmount env transfer
                                  (Matcher.fetcherRef st)) = Finder.FetchFailure e) \/
     Finder.outcome (Finder.findEvmHash parseAmount env transfer (Matcher.fetcherRef st))
       = Finder.RefreshFailure) ->
    exists transfer0 rest0,
      let h := Transfer.hypercoreHash transfer0 in
      let found := Finder.outcome (Finder.findEvmHash parseAmount env transfer0
                                     (Matcher.fetcherRef st)) in
      transfer :: rest = transfer0 :: rest0 /\
      rest = rest0 /\
      Matcher.fetcherRef st = Matcher.fetcherRef st /\
      (forall k, k <> h -> store !! k = store !! k) /\
      (forall k, is_Some (store !! k) <-> is_Some (store !! k)) /\
      Worker.matched counters + Worker.failed counters + (Worker.errors counters + 1)
        = Worker.matched counters + Worker.failed counters + Worker.errors counters + 1 /\
      ((exists m r, timedOut = false /\ found = Finder.Success m r /\
          Worker.matched counters = Worker.matched counters + 1 /\
          Worker.setDelete (Transfer.hypercoreHash transfer) (Matcher.queuedHashes st)
            = Matcher.queuedHashes st /\
          forall t, store !! h = Some t ->
            exists t', store !! h = Some t' /\
              Transfer.status t' = MATCHED /\
              Transfer.hyperevmHash t' = Some (Finder.hash r) /\
              Transfer.hyperevmExplorerHash t' = Some (Finder.explorerHash r) /\
              Transfer.hyperevmBlock t' = Some (Finder.block r) /\
              Transfer.hyperevmBlockHash t' = Some (Finder.blockHash r) /\
              Transfer.hyperevmTime t' = Some (Finder.blockTime r)) \/
       (exists n, timedOut = false /\ found = Finder.NotFoundError n /\
          Worker.failed counters = Worker.failed counters + 1 /\
          Worker.setDelete (Transfer.hypercoreHash transfer) (Matcher.queuedHashes st)
            = Matcher.queuedHashes st /\
          forall t, store !! h = Some t ->
            exists t', store !! h = Some t' /\
              Transfer.status t' = FAILED /\
              Transfer.failReason t' = Some (Worker.notFoundReason n)) \/
       ((timedOut = true \/ (exists e, found = Finder.FetchFailure e) \/
         found = Finder.RefreshFailure) /\
        Worker.errors counters + 1 = Worker.errors counters + 1 /\
        store = store /\
        (h ∉ Worker.setDelete (Transfer.hypercoreHash transfer) (Matcher.queuedHashes st)) /\
        forall k, k <> h ->
          (k ∈ Worker.setDelete (Transfer.hypercoreHash transfer) (Matcher.queuedHashes st)
           <-> k ∈ Matcher.queuedHashes st)))).
  { intros Hcause. exists transfer, rest. cbv zeta.
    destruct (setDelete_spec (Transfer.hypercoreHash transfer) (Matcher.queuedHashes st))
      as (Hgone & Hothers & _).
    split; [reflexivity|]. split; [reflexivity|]. split; [reflexivity|].
    split; [reflexivity|]. split; [tauto|]. split; [lia|].
    right. right. split; [exact Hcause|]. split; [reflexivity|].
    split; [reflexivity|]. split; [exact Hgone | exact Hothers]. }
  destruct timedOut; [simpl; apply Herror; now left|].
  destruct (Finder.outcome (Finder.findEvmHash parseAmount env transfer
                              (Matcher.fetcherRef st))) as [m r|n|e| |] eqn:Hfound.
  - destruct dbUp; [|exists transfer, rest; auto]. simpl.
    exists transfer, rest. cbv zeta. fold h. rewrite Hfound.
    split; [reflexivity|]. split; [reflexivity|]. split; [reflexivity|].
    split; [intros k Hk; now apply mark_other_unchanged|].
    split; [intros k; apply (Hkeep (Worker.evmDataOf r) ""%string k)|]. split; [lia|].
    left. exists m, r. split; [reflexivity|]. split; [reflexivity|].
    split; [reflexivity|]. split; [reflexivity|].
    intros t Ht. exists (TransferStore.setMatched (Worker.evmDataOf r) t).
    unfold TransferStore.markTransferMatched. rewrite lookup_alter_eq, Ht.
    repeat split.
  - destruct dbUp; [|exists transfer, rest; auto]. simpl.
    exists transfer, rest. cbv zeta. fold h. rewrite Hfound.
    split; [reflexivity|]. split; [reflexivity|]. split; [reflexivity|].
    split; [intros k Hk; now apply (mark_other_unchanged store h k (Worker.evmDataOf
      (Finder.mkResult "" "" 0 "" 0 None 0 0)))|].
    split; [intros k; apply (Hkeep (Worker.evmDataOf
      (Finder.mkResult "" "" 0 "" 0 None 0 0)) (Worker.notFoundReason n) k)|].
    split; [lia|].
    right. left. exists n. split; [reflexivity|]. split; [reflexivity|].
    split; [reflexivity|]. split; [reflexivity|].
    intros t Ht. exists (TransferStore.setFailed (Worker.notFoundReason n) t).
    unfold TransferStore.markTransferFailed. rewrite lookup_alter_eq, Ht.
    repeat split.
  - simpl. apply Herror. right. left. exists e. reflexivity.
  - simpl. apply Herror. right. right. reflexivity.
  - exists transfer, rest. auto.
Qed.

(** X12: a transfer whose attempt ended in an error is queued again, a
    settled one is not.  Suppose a worker pass on the transfer at the head
    of the queue completes.  If it ended in an error (timeout, fetch or
    refresh failure), then the next producer pass that finds fewer than 100
    transfers queued and gets the transfer among the first 256 pending ones
    appends it to the queue again.  If instead it ended as matched or
    failed and the transfer's hash was in the set of queued hashes, no
    transfer with that hash is appended by the next producer pass, whatever
    the pending query returns. *)
Theorem errored_transfer_is_queued_again :
  forall (parseAmount : string -> Z -> option Z) (env : Finder.Env)
         (timedOut dbUp : bool) (s3Fetcher rpcFetcher : Finder.BlockFetcherService)
         (db : Matcher.Db) (st st' : Matcher.State)
         (counters counters' : Worker.Counters) (store store' : gmap string Transfer.t)
         (transfer : Transfer.t) (rest : list Transfer.t),
    Matcher.queue st = transfer :: rest ->
    Worker.worker parseAmount env timedOut dbUp st counters store
      = Worker.Done st' counters' store' ->
    exists fresh,
      Matcher.queue (Matcher.producer s3Fetcher rpcFetcher db st') = (rest ++ fresh)%list /\
      (Worker.errors counters' = Worker.errors counters + 1 ->
       (length rest < 100)%nat ->
       forall stats pending,
         Matcher.getTransferStats db = Some stats -> 0 < Matcher.pending stats ->
         Matcher.pendingTransfers db = Some pending ->
         transfer ∈ take 256 pending ->
         transfer ∈ fresh) /\
      (Worker.errors counters' = Worker.errors counters ->
       Transfer.hypercoreHash transfer ∈ Matcher.queuedHashes st ->
       forall t, t ∈ fresh ->
         Transfer.hypercoreHash t <> Transfer.hypercoreHash transfer).
Proof.
  intros parseAmount env timedOut dbUp s3 rpc db st st' c c' store store' transfer rest
    Hq Hstep.
  unfold Worker.worker in Hstep. rewrite Hq in Hstep.
  destruct (Worker.processTransfer parseAmount env timedOut dbUp transfer
              (Matcher.fetcherRef st) store) as [[status store1]|]; [|discriminate].
  destruct (producer_queue_extends s3 rpc db st') as (fresh & Hfresh & Hcase).
  assert (Hrest : Matcher.queue st' = rest) by (destruct status; now injection Hstep as <-).
  exists fresh. split; [now rewrite <- Hrest|]. split.
  - intros Herr Hlen stats pending Hstats Hpos Hpending Hin.
    assert (Hst' : Matcher.queuedHashes st'
                   = Worker.setDelete (Transfer.hypercoreHash transfer)
                       (Matcher.queuedHashes st)).
    { destruct status; injection Hstep as <- <- <-; simpl in Herr; try lia. reflexivity. }
    destruct Hcase as [[Hidle _]|(_ & _ & ->)].
    + exfalso. rewrite Hrest in Hidle. rewrite Hstats in Hidle. simpl in Hidle.
      unfold Matcher.QUEUE_LOW_WATERMARK in Hidle. lia.
    + apply list_elem_of_filter. split.
      * rewrite Hst'. apply setDelete_spec.
      * unfold Matcher.getPendingTransfers. rewrite Hpending. simpl.
        rewrite Hrest. unfold Matcher.QUEUE_CAPACITY, Matcher.EVM_MATCHER_BATCH_SIZE.
        replace (Z.to_nat (Z.min (2048 - Z.of_nat (length rest)) 256)) with 256%nat
          by lia.
        exact Hin.
  - intros Hsame Hqueued t Ht Heq.
    assert (Hst' : Matcher.queuedHashes st' = Matcher.queuedHashes st).
    { destruct status; injection Hstep as <- <- <-; simpl in Hsame; try lia; reflexivity. }
    destruct Hcase as [[_ ->]|(_ & _ & ->)]; [inversion Ht|].
    apply list_elem_of_filter in Ht as [Hnot _]. apply Hnot.
    rewrite Heq, Hst'. exact Hqueued.
Qed.

Lemma errored_transfer_is_queued_again_witness :
  exists fresh,
    Matcher.queue
      (Matcher.producer Scenario.s3Fetcher Scenario.chainFetcher Samples.pendingDb
         (Matcher.mkState [] Scenario.deadFetcher ["0xc0de00"]))
      = ([] ++ fresh)%list /\
    Scenario.transfer Scenario.userLower ∈ fresh.
Proof.
  destruct (errored_transfer_is_queued_again Viem.parseUnits Scenario.adjacentEnv
              false true Scenario.s3Fetcher Scenario.chainFetcher Samples.pendingDb
              Samples.failingState
              (Matcher.mkState [] Scenario.deadFetcher ["0xc0de00"])
              (Worker.mkCounters 0 0 0) (Worker.mkCounters 0 0 1)
              Samples.pendingStore Samples.pendingStore
              (Scenario.transfer Scenario.userLower) [])
    as (fresh & Hqueue & Herror & _).
  - reflexivity.
  - vm_compute. reflexivity.
  - exists fresh. split; [exact Hqueue|].
    apply (Herror eq_refl) with (stats := Matcher.mkStats 1 0 0 1)
                                (pending := [Scenario.transfer Scenario.userLower]).
    + simpl. lia.
    + reflexivity.
    + simpl. lia.
    + reflexivity.
    + left.
Defined.

(* ===================================================================== *)
(** * System addresses *)
(* ===================================================================== *)

Lemma roundTrips_below_4096 :
  forallb UtilsFacts.roundTrips (UtilsFacts.indices 4096) = true.
Proof. vm_compute. reflexivity. Qed.

Lemma parseDigits_bound s :
  forall acc v, 0 <= acc -> Hex.parseDigits s acc = Some v ->
    acc * 16 ^ Z.of_nat (String.length s) <= v
      < (acc + 1) * 16 ^ Z.of_nat (String.length s).
Proof.
  induction s as [|c rest IH]; intros acc v Hacc; simpl String.length.
  - simpl. intros [= <-]. lia.
  - cbn [Hex.parseDigits]. destruct (Hex.valueOf c) as [d|] eqn:Hd; [|discriminate].
    assert (Hrange : 0 <= d < 16).
    { unfold Hex.valueOf in Hd.
      repeat match type of Hd with
             | (if ?b then _ else _) = _ => destruct b eqn:?
             end; try discriminate; injection Hd as <-;
        repeat match goal with
               | H : (_ && _)%bool = true |- _ => apply andb_true_iff in H as [? ?]
               | H : (_ <=? _)%nat = true |- _ => apply Nat.leb_le in H
               end; lia. }
    intros Hv. apply IH in Hv; [|lia].
    rewrite Nat2Z.inj_succ, Z.pow_succ_r by lia. nia.
Qed.

Lemma trimEnd_length s : (String.length (Hex.trimEnd s) <= String.length s)%nat.
Proof.
  induction s as [|c rest IH]; simpl; [lia|].
  destruct (Hex.trimEnd rest) as [|c' rest'].
  - destruct (Hex.isWhiteSpace c); simpl; lia.
  - simpl in *. lia.
Qed.

Lemma substring_length_le n m s : (String.length (substring n m s) <= m)%nat.
Proof.
  revert n m. induction s as [|c rest IH]; intros n m.
  - destruct n, m; simpl; lia.
  - destruct n as [|n]; destruct m as [|m]; simpl; try lia.
    + specialize (IH 0%nat m). lia.
    + apply IH.
    + apply IH.
Qed.

Lemma BigInt0x_bound s v :
  Hex.BigInt0x (Hex.sliceLast 3 s) = Some v -> 0 <= v < 4096.
Proof.
  unfold Hex.BigInt0x, Hex.sliceLast.
  set (t := substring (String.length s - 3) 3 s).
  pose proof (substring_length_le (String.length s - 3) 3 s) as Hlen. fold t in Hlen.
  pose proof (trimEnd_length t) as Htrim.
  destruct (Hex.trimEnd t) as [|c rest] eqn:E; [discriminate|].
  intros Hv. apply parseDigits_bound in Hv; [|lia].
  assert (Hpow : 16 ^ Z.of_nat (String.length (String c rest)) <= 4096).
  { change 4096 with (16 ^ 3). apply Z.pow_le_mono_r; lia. }
  lia.
Qed.

Lemma toLowerCase_app s t :
  JS.toLowerCase (s ++ t) = JS.toLowerCase s ++ JS.toLowerCase t.
Proof. induction s as [|c s IH]; simpl; [reflexivity | now rewrite IH]. Qed.

(** X13: system addresses and token indices correspond on 0..4095.  For a
    token index from 0 to 4095 the computed system address has 42
    characters, is in lower case, is recognised as a system address and not
    as the HYPE address, and the index extracted from it is the index it was
    computed from; so distinct indices in that range get distinct addresses.
    For every index the computed address is recognised as a system address
    and is not the HYPE address.  An extracted index always lies between 0
    and 4095 and comes from an address recognised as a system address other
    than HYPE; extraction returns null exactly for the HYPE address and for
    addresses that are not system addresses.  The three address functions
    give the same answer for two addresses that differ only in case. *)
Theorem system_address_round_trip :
  (forall index, 0 <= index < 4096 ->
     let a := Utils.computeSystemAddress index in
     String.length a = 42%nat /\
     normalizeAddress a = a /\
     Utils.isSystemAddress a = true /\
     Utils.isHypeAddress a = false /\
     Utils.extractIndexFromSystemAddress a = Utils.Returns (Some index) /\
     forall other, 0 <= other < 4096 ->
       Utils.computeSystemAddress other = a -> other = index) /\
  (forall index,
     Utils.isSystemAddress (Utils.computeSystemAddress index) = true /\
     Utils.isHypeAddress (Utils.computeSystemAddress index) = false) /\
  (forall addr index,
     Utils.extractIndexFromSystemAddress addr = Utils.Returns (Some index) ->
     0 <= index < 4096 /\
     Utils.isSystemAddress addr = true /\ Utils.isHypeAddress addr = false) /\
  (forall addr,
     Utils.extractIndexFromSystemAddress addr = Utils.Returns None <->
     Utils.isHypeAddress addr = true \/ Utils.isSystemAddress addr = false) /\
  (forall a b, JS.toLowerCase a = JS.toLowerCase b ->
     Utils.isSystemAddress a = Utils.isSystemAddress b /\
     Utils.isHypeAddress a = Utils.isHypeAddress b /\
     Utils.extractIndexFromSystemAddress a = Utils.extractIndexFromSystemAddress b).
Proof.
  assert (Hcheck : forall index, 0 <= index < 4096 ->
            UtilsFacts.roundTrips index = true).
  { intros index Hrange.
    pose proof roundTrips_below_4096 as Hall. rewrite forallb_forall in Hall.
    apply Hall. unfold UtilsFacts.indices. apply in_map_iff.
    exists (Z.to_nat index). split; [lia|]. apply in_seq. lia. }
  assert (Hround : forall index, 0 <= index < 4096 ->
            let a := Utils.computeSystemAddress index in
            String.length a = 42%nat /\ normalizeAddress a = a /\
            Utils.isSystemAddress a = true /\ Utils.isHypeAddress a = false /\
            Utils.extractIndexFromSystemAddress a = Utils.Returns (Some index)).
  { intros index Hrange a. pose proof (Hcheck index Hrange) as H.
    unfold UtilsFacts.roundTrips in H. fold a in H.
    repeat (apply andb_true_iff in H as [H ?]).
    split; [now apply Nat.eqb_eq|]. split; [now apply String.eqb_eq|].
    split; [assumption|]. split; [now apply negb_true_iff|].
    destruct (Utils.extractIndexFromSystemAddress a) as [[i|]|]; try discriminate.
    match goal with Hi : (i =? index) = true |- _ => apply Z.eqb_eq in Hi as -> end.
    reflexivity. }
  split; [|split; [|split; [|split]]].
  - intros index Hrange a. destruct (Hround index Hrange) as (H1 & H2 & H3 & H4 & H5).
    repeat (split; [assumption|]).
    intros other Hother Heq. destruct (Hround other Hother) as (_ & _ & _ & _ & H6).
    cbv zeta in H6. rewrite Heq in H6. fold a in H5. congruence.
  - intros index. unfold Utils.isSystemAddress, Utils.isHypeAddress,
      Utils.computeSystemAddress, normalizeAddress.
    rewrite toLowerCase_app. split; reflexivity.
  - intros addr index. unfold Utils.extractIndexFromSystemAddress,
      Utils.isSystemAddress, Utils.isHypeAddress.
    destruct (String.eqb (normalizeAddress addr) Utils.HYPE_SYSTEM_ADDRESS);
      [discriminate|].
    destruct (String.prefix _ (normalizeAddress addr)); simpl; [|discriminate].
    destruct (Hex.BigInt0x _) as [v|] eqn:Hv; [|discriminate].
    intros [= <-]. split; [now apply BigInt0x_bound in Hv | auto].
  - intros addr. unfold Utils.extractIndexFromSystemAddress,
      Utils.isSystemAddress, Utils.isHypeAddress.
    destruct (String.eqb (normalizeAddress addr) Utils.HYPE_SYSTEM_ADDRESS);
      [split; auto|].
    destruct (String.prefix _ (normalizeAddress addr)); simpl.
    + destruct (Hex.BigInt0x _); split; try discriminate; intros [H|H]; discriminate.
    + split; auto.
  - intros a b Heq. unfold Utils.extractIndexFromSystemAddress,
      Utils.isSystemAddress, Utils.isHypeAddress, normalizeAddress.
    rewrite Heq. auto.
Qed.

Lemma system_address_round_trip_witness :
  Utils.extractIndexFromSystemAddress (Utils.computeSystemAddress 222)
    = Utils.Returns (Some 222) /\
  Utils.computeSystemAddress 222 = "0x20000000000000000000000000000000000000de" /\
  0 <= 268 < 4096.
Proof.
  destruct system_address_round_trip as (Hround & _ & Hextract & _).
  split; [|split].
  - apply (Hround 222). lia.
  - reflexivity.
  - apply (Hextract "0x200000000000000000000000000000000000010C" 268). reflexivity.
Defined.

(* ===================================================================== *)
(** * The asset cache *)
(* ===================================================================== *)

Lemma computeSystemAddress_not_hype index :
  normalizeAddress (Utils.computeSystemAddress index) <> Utils.HYPE_SYSTEM_ADDRESS.
Proof.
  unfold Utils.computeSystemAddress, normalizeAddress. rewrite toLowerCase_app.
  discriminate.
Qed.

Lemma digitOf_lower d : 0 <= d < 16 -> JS.lower_ascii (Hex.digitOf d) = Hex.digitOf d.
Proof.
  intros Hd.
  assert (H : d = 0 \/ d = 1 \/ d = 2 \/ d = 3 \/ d = 4 \/ d = 5 \/ d = 6 \/ d = 7 \/
              d = 8 \/ d = 9 \/ d = 10 \/ d = 11 \/ d = 12 \/ d = 13 \/ d = 14 \/ d = 15)
    by lia.
  repeat (destruct H as [->|H]; [reflexivity|]). subst d. reflexivity.
Qed.

Lemma digitsOf_lower fuel :
  forall n acc, JS.toLowerCase acc = acc ->
    JS.toLowerCase (Hex.digitsOf fuel n acc) = Hex.digitsOf fuel n acc.
Proof.
  induction fuel as [|fuel IH]; intros n acc Hacc; simpl; [exact Hacc|].
  assert (Hstep : JS.toLowerCase (String (Hex.digitOf (n mod 16)) acc)
                  = String (Hex.digitOf (n mod 16)) acc).
  { simpl. rewrite Hacc, digitOf_lower; [reflexivity|].
    apply Z.mod_pos_bound. lia. }
  destruct (n / 16 =? 0); [exact Hstep | now apply IH].
Qed.

Lemma computeSystemAddress_lower index :
  normalizeAddress (Utils.computeSystemAddress index) = Utils.computeSystemAddress index.
Proof.
  unfold normalizeAddress, Utils.computeSystemAddress, Hex.padStart.
  rewrite !toLowerCase_app. f_equal. f_equal.
  - induction (3 - String.length (Hex.toString16 index))%nat as [|k IH];
      simpl; [reflexivity | now rewrite IH].
  - unfold Hex.toString16. destruct (index <? 0).
    + cbn [JS.toLowerCase]. f_equal. now apply digitsOf_lower.
    + now apply digitsOf_lower.
Qed.

Lemma addToken_fold tokens :
  let c := fold_left Assets.addToken tokens (Assets.mkCaches ∅ ∅ ∅ false) in
  (forall k asset, Assets.bySystemAddress c !! k = Some asset ->
     exists token, token ∈ tokens /\ asset = Assets.parseToken token /\
       k = normalizeAddress (SpotAsset.systemAddress asset)) /\
  (forall token, token ∈ tokens ->
     exists token', token' ∈ tokens /\
       Utils.computeSystemAddress (Assets.index token')
         = Utils.computeSystemAddress (Assets.index token) /\
       Assets.bySystemAddress c
         !! normalizeAddress (Utils.computeSystemAddress (Assets.index token))
         = Some (Assets.parseToken token')) /\
  (forall i asset, Assets.byIndex c !! i = Some asset ->
     exists token, token ∈ tokens /\ asset = Assets.parseToken token /\
       i = Assets.index token) /\
  (forall n asset, Assets.byName c !! n = Some asset ->
     exists token, token ∈ tokens /\ asset = Assets.parseToken token /\
       n = Assets.name token).
Proof.
  induction tokens as [|t tokens IH] using rev_ind; cbv zeta.
  - simpl. repeat split; try (intros ? ? H; rewrite lookup_empty in H; discriminate).
    intros token H. inversion H.
  - rewrite fold_left_app. cbn [fold_left].
    set (c := fold_left Assets.addToken tokens (Assets.mkCaches ∅ ∅ ∅ false)) in *.
    cbv zeta in IH. destruct IH as (Hsound & Hcomplete & Hindex & Hname).
    unfold Assets.addToken. cbn [Assets.bySystemAddress Assets.byIndex Assets.byName].
    split; [|split; [|split]].
    + intros k asset Hk.
      destruct (decide (normalizeAddress (SpotAsset.systemAddress (Assets.parseToken t))
                        = k)) as [<-|Hne].
      * rewrite lookup_insert_eq in Hk. injection Hk as <-.
        exists t. split; [apply elem_of_app; right; now left | auto].
      * rewrite lookup_insert_ne in Hk by exact Hne.
        destruct (Hsound k asset Hk) as (token & Hin & Ha & Hkey).
        exists token. split; [apply elem_of_app; now left | auto].
    + intros token Hin.
      destruct (decide (normalizeAddress (SpotAsset.systemAddress (Assets.parseToken t))
                        = normalizeAddress
                            (Utils.computeSystemAddress (Assets.index token))))
        as [Heq|Hne].
      * exists t. split; [apply elem_of_app; right; now left|].
        rewrite <- Heq, lookup_insert_eq. split; [|reflexivity].
        cbn [Assets.parseToken SpotAsset.systemAddress] in Heq.
        now rewrite !computeSystemAddress_lower in Heq.
      * apply elem_of_app in Hin as [Hin|Hin].
        -- destruct (Hcomplete token Hin) as (token' & Hin' & Haddr & Hlook).
           exists token'. split; [apply elem_of_app; now left|]. split; [exact Haddr|].
           now rewrite lookup_insert_ne.
        -- apply list_elem_of_singleton in Hin as ->. exfalso. now apply Hne.
    + intros i asset Hi.
      destruct (decide (SpotAsset.index (Assets.parseToken t) = i)) as [<-|Hne].
      * rewrite lookup_insert_eq in Hi. injection Hi as <-.
        exists t. split; [apply elem_of_app; right; now left | auto].
      * rewrite lookup_insert_ne in Hi by exact Hne.
        destruct (Hindex i asset Hi) as (token & Hin & Ha & Hkey).
        exists token. split; [apply elem_of_app; now left | auto].
    + intros n asset Hn.
      destruct (decide (SpotAsset.name (Assets.parseToken t) = n)) as [<-|Hne].
      * rewrite lookup_insert_eq in Hn. injection Hn as <-.
        exists t. split; [apply elem_of_app; right; now left | auto].
      * rewrite lookup_insert_ne in Hn by exact Hne.
        destruct (Hname n asset Hn) as (token & Hin & Ha & Hkey).
        exists token. split; [apply elem_of_app; now left | auto].
Qed.

(** X14: what the asset cache answers after it was populated.  Whatever
    tokens the API returned, the HYPE system address, in any case, is
    answered with the native HYPE asset and 18 decimals, and so is the name
    HYPE; the finder therefore computes HYPE amounts with 18 decimals
    without a refresh.  For every returned token the lookup of its computed
    system address answers with a returned token of the same system
    address, and with that very token, whose EVM decimals are its wei
    decimals plus its extra decimals (zero without a contract), when no other
    returned token has the same system address.  Every asset the cache
    answers with is the HYPE asset or built from a returned token and filed
    under its own system address; an address that is not cached gets 18
    decimals; and the lookup by index only answers with returned tokens,
    never with the native HYPE asset. *)
Theorem populateCaches_serves_lookups :
  forall (tokens : list Assets.SpotMetaToken),
    let c := Assets.populateCaches tokens in
    (forall a, JS.toLowerCase a = Utils.HYPE_SYSTEM_ADDRESS ->
       getAssetBySystemAddress (Assets.bySystemAddress c) a = Some Assets.HYPE_ASSET /\
       Assets.getEvmDecimals c a = 18 /\
       forall env, Finder.bySystemAddress env = Assets.bySystemAddress c ->
         Finder.evmDecimalsOf <$> Finder.lookupAsset env (normalizeAddress a) = Some 18) /\
    Assets.getAssetByName c "HYPE" = Some Assets.HYPE_ASSET /\
    (forall token, token ∈ tokens ->
       exists token', token' ∈ tokens /\
         Utils.computeSystemAddress (Assets.index token')
           = Utils.computeSystemAddress (Assets.index token) /\
         getAssetBySystemAddress (Assets.bySystemAddress c)
           (Utils.computeSystemAddress (Assets.index token))
           = Some (Assets.parseToken token') /\
         ((forall other, other ∈ tokens ->
             Utils.computeSystemAddress (Assets.index other)
               = Utils.computeSystemAddress (Assets.index token) ->
             other = token) ->
          token' = token /\
          Assets.getEvmDecimals c (Utils.computeSystemAddress (Assets.index token))
            = Assets.weiDecimals token
              + default 0 (Assets.evm_extra_wei_decimals <$> Assets.evmContract token))) /\
    (forall a asset,
       getAssetBySystemAddress (Assets.bySystemAddress c) a = Some asset ->
       asset = Assets.HYPE_ASSET \/
       exists token, token ∈ tokens /\ asset = Assets.parseToken token /\
         normalizeAddress a = SpotAsset.systemAddress asset) /\
    (forall a, getAssetBySystemAddress (Assets.bySystemAddress c) a = None ->
       Assets.getEvmDecimals c a = 18) /\
    (forall i asset, Assets.getAssetByIndex c i = Some asset ->
       exists token, token ∈ tokens /\ asset = Assets.parseToken token /\
         Assets.index token = i).
Proof.
  intros tokens c. subst c. unfold Assets.populateCaches.
  destruct (addToken_fold tokens) as (Hsound & Hcomplete & Hindex & _).
  set (c := fold_left Assets.addToken tokens (Assets.mkCaches ∅ ∅ ∅ false)) in *.
  unfold Assets.getEvmDecimals, Assets.getAssetByName, Assets.getAssetByIndex,
    getAssetBySystemAddress.
  cbn [Assets.bySystemAddress Assets.byIndex Assets.byName].
  split; [|split; [|split; [|split; [|split]]]].
  - intros a Ha. unfold normalizeAddress. rewrite Ha, lookup_insert_eq.
    split; [reflexivity|]. split; [reflexivity|].
    intros env Henv. unfold Finder.lookupAsset, getAssetBySystemAddress, normalizeAddress.
    rewrite Henv. cbn [Assets.bySystemAddress].
    change (JS.toLowerCase Utils.HYPE_SYSTEM_ADDRESS) with Utils.HYPE_SYSTEM_ADDRESS.
    now rewrite lookup_insert_eq.
  - apply lookup_insert_eq.
  - intros token Hin. destruct (Hcomplete token Hin) as (token' & Hin' & Haddr & Hlook).
    exists token'. split; [exact Hin'|]. split; [exact Haddr|].
    rewrite lookup_insert_ne by (intros H; symmetry in H;
                                 now apply computeSystemAddress_not_hype in H).
    rewrite Hlook. split; [reflexivity|].
    intros Huniq. assert (token' = token) as -> by now apply Huniq.
    split; reflexivity.
  - intros a asset Ha.
    destruct (decide (Utils.HYPE_SYSTEM_ADDRESS = normalizeAddress a)) as [Heq|Hne].
    + rewrite <- Heq, lookup_insert_eq in Ha. injection Ha as <-. now left.
    + rewrite lookup_insert_ne in Ha by exact Hne.
      destruct (Hsound _ _ Ha) as (token & Hin & Hasset & Hkey). right.
      exists token. split; [exact Hin|]. split; [exact Hasset|].
      rewrite Hkey, Hasset. cbn [Assets.parseToken SpotAsset.systemAddress].
      apply computeSystemAddress_lower.
  - intros a Ha. now rewrite Ha.
  - intros i asset Hi. destruct (Hindex i asset Hi) as (token & Hin & Ha & Hkey).
    exists token. auto.
Qed.

Lemma populateCaches_serves_lookups_witness :
  getAssetBySystemAddress
    (Assets.bySystemAddress
       (Assets.populateCaches
          [Assets.mkToken "HYPE" 150 8 None;
           Assets.mkToken "BUDDY" 222 8
             (Some (Assets.mkContract "0x93f2e5f3f6a2a3b1ae8a0d1b3c5e7f9a1b3c5d7e" (-2)))]))
    "0x2222222222222222222222222222222222222222" = Some Assets.HYPE_ASSET /\
  Assets.getEvmDecimals
    (Assets.populateCaches
       [Assets.mkToken "HYPE" 150 8 None;
        Assets.mkToken "BUDDY" 222 8
          (Some (Assets.mkContract "0x93f2e5f3f6a2a3b1ae8a0d1b3c5e7f9a1b3c5d7e" (-2)))])
    (Utils.computeSystemAddress 222) = 8 + -2.
Proof.
  destruct (populateCaches_serves_lookups
              [Assets.mkToken "HYPE" 150 8 None;
               Assets.mkToken "BUDDY" 222 8
                 (Some (Assets.mkContract "0x93f2e5f3f6a2a3b1ae8a0d1b3c5e7f9a1b3c5d7e"
                          (-2)))]) as (Hhype & _ & Htoken & _).
  split.
  - apply Hhype. reflexivity.
  - destruct (Htoken (Assets.mkToken "BUDDY" 222 8
                        (Some (Assets.mkContract
                                 "0x93f2e5f3f6a2a3b1ae8a0d1b3c5e7f9a1b3c5d7e" (-2)))))
      as (token' & _ & _ & _ & Huniq); [right; left|].
    apply Huniq. intros other Hother Haddr.
    apply elem_of_cons in Hother as [->|Hother]; [vm_compute in Haddr; discriminate|].
    apply list_elem_of_singleton in Hother. exact Hother.
Defined.

(* ===================================================================== *)
(** * The watched addresses *)
(* ===================================================================== *)

Lemma findActiveAddresses_elem (s : gmap string WatchedAddress.t) d :
  d ∈ WatchedAddresses.findActiveAddresses s <->
  WatchedAddress.isActive d = true /\ exists k, s !! k = Some d.
Proof.
  unfold WatchedAddresses.findActiveAddresses. rewrite list_elem_of_filter.
  rewrite list_elem_of_fmap. split.
  - intros (Hactive & [k x] & -> & Hin). apply elem_of_map_to_list in Hin. eauto.
  - intros (Hactive & k & Hk). split; [exact Hactive|].
    exists (k, d). split; [reflexivity | now apply elem_of_map_to_list].
Qed.

Lemma updateOne_spec normalized set (s : gmap string WatchedAddress.t) :
  match s !! normalized with
  | Some d =>
      WatchedAddresses.updateOne normalized set s
      = (<[normalized := set d]> s,
         negb (bool_decide (WatchedAddress.lastIndexedTime (set d)
                            = WatchedAddress.lastIndexedTime d)
               && Bool.eqb (WatchedAddress.isActive (set d)) (WatchedAddress.isActive d)))
  | None => WatchedAddresses.updateOne normalized set s = (s, false)
  end.
Proof.
  unfold WatchedAddresses.updateOne, WatchedAddresses.setFields.
  destruct (s !! normalized); reflexivity.
Qed.

(** X15: adding, deactivating, activating and resetting a watched address.
    All four look the address up in lower case, so two spellings of an
    address that differ only in case act on the same document, and none of
    them touches another document.  Adding answers true exactly when the
    address was not stored; it then stores it active with cursor 0, and
    otherwise changes nothing: adding a stored address neither reactivates
    it nor resets its cursor, and adding twice is adding once.
    Deactivating, activating and resetting answer false and change nothing
    when the address is not stored; on a stored address they set the flag
    (resetting also sets the cursor to 0), keep the other fields, and answer
    true exactly when the document was changed.  After deactivating, the
    address is not among the active ones. *)
Theorem watched_address_operations :
  forall (address : string) (s : gmap string WatchedAddress.t),
    let key := JS.toLowerCase address in
    (* adding *)
    (snd (WatchedAddresses.addWatchedAddress address s) = true <-> s !! key = None) /\
    (s !! key = None ->
     fst (WatchedAddresses.addWatchedAddress address s) !! key
       = Some (WatchedAddress.mk key (Some 0) true)) /\
    (is_Some (s !! key) -> fst (WatchedAddresses.addWatchedAddress address s) = s) /\
    WatchedAddresses.addWatchedAddress address
      (fst (WatchedAddresses.addWatchedAddress address s))
    = (fst (WatchedAddresses.addWatchedAddress address s), false) /\
    (* a missing address *)
    (s !! key = None ->
     WatchedAddresses.deactivateAddress address s = (s, false) /\
     WatchedAddresses.activateAddress address s = (s, false) /\
     WatchedAddresses.resetAddress address s = (s, false)) /\
    (* a stored address *)
    (forall d, s !! key = Some d ->
       WatchedAddresses.deactivateAddress address s
       = (<[key := WatchedAddress.mk (WatchedAddress.address d)
                     (WatchedAddress.lastIndexedTime d) false]> s,
          WatchedAddress.isActive d) /\
       WatchedAddresses.activateAddress address s
       = (<[key := WatchedAddress.mk (WatchedAddress.address d)
                     (WatchedAddress.lastIndexedTime d) true]> s,
          negb (WatchedAddress.isActive d)) /\
       WatchedAddresses.resetAddress address s
       = (<[key := WatchedAddress.mk (WatchedAddress.address d) (Some 0) true]> s,
          negb (bool_decide (WatchedAddress.lastIndexedTime d = Some 0)
                && WatchedAddress.isActive d)) /\
       forall d', d' ∈ WatchedAddresses.findActiveAddresses
                        (fst (WatchedAddresses.deactivateAddress address s)) ->
         d' ∈ WatchedAddresses.findActiveAddresses s /\
         fst (WatchedAddresses.deactivateAddress address s) !! key <> Some d') /\
    (* other documents, and the spelling of the address *)
    (forall k, k <> key ->
       fst (WatchedAddresses.addWatchedAddress address s) !! k = s !! k /\
       fst (WatchedAddresses.deactivateAddress address s) !! k = s !! k /\
       fst (WatchedAddresses.activateAddress address s) !! k = s !! k /\
       fst (WatchedAddresses.resetAddress address s) !! k = s !! k) /\
    (forall other, JS.toLowerCase other = key ->
       WatchedAddresses.addWatchedAddress other s
         = WatchedAddresses.addWatchedAddress address s /\
       WatchedAddresses.deactivateAddress other s
         = WatchedAddresses.deactivateAddress address s /\
       WatchedAddresses.activateAddress other s
         = WatchedAddresses.activateAddress address s /\
       WatchedAddresses.resetAddress other s
         = WatchedAddresses.resetAddress address s).
Proof.
  intros address s key.
  unfold WatchedAddresses.addWatchedAddress, WatchedAddresses.deactivateAddress,
    WatchedAddresses.activateAddress, WatchedAddresses.resetAddress.
  fold key.
  pose proof (updateOne_spec key
                (fun d => WatchedAddress.mk (WatchedAddress.address d)
                            (WatchedAddress.lastIndexedTime d) false) s) as Hoff.
  pose proof (updateOne_spec key
                (fun d => WatchedAddress.mk (WatchedAddress.address d)
                            (WatchedAddress.lastIndexedTime d) true) s) as Hon.
  pose proof (updateOne_spec key
                (fun d => WatchedAddress.mk (WatchedAddress.address d) (Some 0) true) s)
    as Hreset.
  destruct (s !! key) as [d|] eqn:Hs.
  - rewrite Hoff, Hon, Hreset. cbn [fst snd WatchedAddress.lastIndexedTime
                                  WatchedAddress.isActive].
    rewrite Hs.
    split; [split; discriminate|]. split; [discriminate|]. split; [reflexivity|].
    split; [reflexivity|]. split; [discriminate|]. split; [|split].
    + intros d0 [= <-].
      split; [f_equal; repeat case_bool_decide;
              destruct (WatchedAddress.isActive d); simpl; congruence|].
      split; [f_equal; repeat case_bool_decide;
              destruct (WatchedAddress.isActive d); simpl; congruence|].
      split; [f_equal; repeat case_bool_decide;
              destruct (WatchedAddress.isActive d); simpl; congruence|].
      intros d' Hd'. apply findActiveAddresses_elem in Hd' as (Hactive & k & Hk).
      destruct (decide (key = k)) as [<-|Hne].
      * rewrite lookup_insert_eq in Hk. injection Hk as <-. discriminate.
      * rewrite lookup_insert_ne in Hk by exact Hne. split.
        -- apply findActiveAddresses_elem. eauto.
        -- rewrite lookup_insert_eq. intros [= <-]. discriminate.
    + intros k Hk. rewrite !lookup_insert_ne by congruence. auto.
    + intros other ->. fold key. rewrite Hs. auto.
  - rewrite Hoff, Hon, Hreset. cbn [fst snd]. rewrite lookup_insert_eq.
    split; [split; reflexivity|]. split; [reflexivity|].
    split; [intros [? ?]; discriminate|]. split; [reflexivity|].
    split; [auto|]. split; [discriminate|]. split.
    + intros k Hk. rewrite lookup_insert_ne by congruence. auto.
    + intros other ->. fold key. rewrite Hs. auto.
Qed.

Lemma watched_address_operations_witness :
  fst (WatchedAddresses.addWatchedAddress "0x4F0A01BADAA24F762CEE620883F16C4460C06BE0" ∅)
    !! "0x4f0a01badaa24f762cee620883f16c4460c06be0"
  = Some (WatchedAddress.mk "0x4f0a01badaa24f762cee620883f16c4460c06be0" (Some 0) true) /\
  WatchedAddresses.resetAddress "0xABC" ∅ = (∅, false).
Proof.
  destruct (watched_address_operations "0x4F0A01BADAA24F762CEE620883F16C4460C06BE0" ∅)
    as (_ & Hadd & _).
  destruct (watched_address_operations "0xABC" ∅) as (_ & _ & _ & _ & Hmissing & _).
  split.
  - apply Hadd. apply lookup_empty.
  - apply Hmissing. apply lookup_empty.
Defined.

(* ===================================================================== *)
(** * The indexer *)
(* ===================================================================== *)

(** ** Pages of transfers *)





(** ** The address worker *)




(** ** The sync loop *)

Lemma startStep_fold docs :
  forall w,
    let w1 := fold_left Indexer.startStep docs w in
    (forall k, k ∈ Indexer.runningKeys w1 <->
       k ∈ Indexer.runningKeys w \/ k ∈ map WatchedAddress.address docs) /\
    (NoDup (Indexer.runningKeys w) -> NoDup (Indexer.runningKeys w1)) /\
    (forall k, k ∈ Indexer.runningKeys w \/ k ∉ map WatchedAddress.address docs ->
       Indexer.fibers w1 !! k = Indexer.fibers w !! k) /\
    (forall doc, doc ∈ docs -> WatchedAddress.address doc ∉ Indexer.runningKeys w ->
       exists doc', doc' ∈ docs /\
         WatchedAddress.address doc' = WatchedAddress.address doc /\
         Indexer.fibers w1 !! WatchedAddress.address doc
         = Some (default 0 (WatchedAddress.lastIndexedTime doc'))).
Proof.
  induction docs as [|x docs IH]; intros w; cbv zeta.
  - simpl. split; [intros k; split; [auto | intros [H|H]; [exact H | inversion H]]|].
    split; [auto|]. split; [auto|]. intros doc H. inversion H.
  - cbn [fold_left map]. specialize (IH (Indexer.startStep w x)). cbv zeta in IH.
    destruct IH as (Hkeys & Hnodup & Hkeep & Hstart).
    set (w1 := fold_left Indexer.startStep docs (Indexer.startStep w x)) in *.
    unfold Indexer.startStep in Hkeys, Hnodup, Hkeep, Hstart.
    case_bool_decide as Hx; cbn [Indexer.runningKeys Indexer.fibers] in *.
    + split; [|split; [exact Hnodup|split]].
      * intros k. rewrite Hkeys. rewrite elem_of_cons. split; [tauto|].
        intros [H|[->|H]]; auto.
      * intros k [Hk|Hk]; apply Hkeep; [now left|].
        right. intros H. apply Hk. now right.
      * intros doc Hdoc Hnew. apply elem_of_cons in Hdoc as [->|Hdoc]; [contradiction|].
        destruct (Hstart doc Hdoc Hnew) as (doc' & Hin' & Haddr & Hfiber).
        exists doc'. split; [now right | auto].
    + split; [|split; [|split]].
      * intros k. rewrite Hkeys, elem_of_app, list_elem_of_singleton, elem_of_cons.
        tauto.
      * intros Hnd. apply Hnodup. apply NoDup_app. split; [exact Hnd|].
        split; [|apply NoDup_singleton].
        intros k Hk Hk'. apply list_elem_of_singleton in Hk' as ->. contradiction.
      * intros k Hk.
        assert (Hne : WatchedAddress.address x <> k).
        { intros <-. destruct Hk as [Hk|Hk]; [contradiction|]. apply Hk. now left. }
        rewrite Hkeep.
        -- now rewrite lookup_insert_ne.
        -- destruct Hk as [Hk|Hk]; [left; apply elem_of_app; now left|].
           right. intros H. apply Hk. now right.
      * intros doc Hdoc Hnew.
        destruct (decide (WatchedAddress.address doc = WatchedAddress.address x))
          as [Heq|Hne].
        -- exists x. split; [now left|]. split; [now symmetry|].
           rewrite Heq, Hkeep; [apply lookup_insert_eq|].
           left. apply elem_of_app. right. now left.
        -- apply elem_of_cons in Hdoc as [->|Hdoc]; [congruence|].
           destruct (Hstart doc Hdoc) as (doc' & Hin' & Haddr & Hfiber).
           { intros H. apply elem_of_app in H as [H|H]; [contradiction|].
             apply list_elem_of_singleton in H. contradiction. }
           exists doc'. split; [now right | auto].
Qed.

Lemma stopStep_fold activeAddresses keys :
  forall w,
    let w2 := fold_left (Indexer.stopStep activeAddresses) keys w in
    (forall k, k ∈ Indexer.runningKeys w2 <->
       k ∈ Indexer.runningKeys w /\ (k ∈ activeAddresses \/ k ∉ keys)) /\
    (NoDup (Indexer.runningKeys w) -> NoDup (Indexer.runningKeys w2)) /\
    (forall k, k ∈ activeAddresses \/ k ∉ keys ->
       Indexer.fibers w2 !! k = Indexer.fibers w !! k) /\
    (forall k, k ∉ activeAddresses -> k ∈ keys -> Indexer.fibers w2 !! k = None).
Proof.
  induction keys as [|x keys IH]; intros w; cbv zeta.
  - simpl. split; [intros k; split; [intros H; split; [exact H|right; intros H'; inversion H']
                                    | tauto]|].
    split; [auto|]. split; [auto|]. intros k _ H. inversion H.
  - cbn [fold_left]. specialize (IH (Indexer.stopStep activeAddresses w x)).
    cbv zeta in IH. destruct IH as (Hkeys & Hnodup & Hkeep & Hstop).
    set (w2 := fold_left (Indexer.stopStep activeAddresses) keys
                 (Indexer.stopStep activeAddresses w x)) in *.
    unfold Indexer.stopStep in Hkeys, Hnodup, Hkeep, Hstop.
    case_bool_decide as Hx; cbn [Indexer.runningKeys Indexer.fibers] in *.
    + split; [|split; [exact Hnodup|split]].
      * intros k. rewrite Hkeys, elem_of_cons. split; [|tauto].
        intros [Hk [Ha|Hn]]; split; auto.
        destruct (decide (k = x)) as [->|Hne]; [now left | right; tauto].
      * intros k [Hk|Hk]; apply Hkeep; [now left|].
        right. intros H. apply Hk. now right.
      * intros k Hk Hin. apply elem_of_cons in Hin as [->|Hin]; [contradiction|].
        now apply Hstop.
    + split; [|split; [|split]].
      * intros k. rewrite Hkeys, list_elem_of_filter, elem_of_cons. split.
        -- intros [[Hne Hk] [Ha|Hn]]; split; auto. right. tauto.
        -- intros [Hk [Ha|Hn]].
           ++ split; [|now left]. split; [|exact Hk]. intros ->. contradiction.
           ++ split; [|right; tauto]. split; [|exact Hk]. intros ->. tauto.
      * intros Hnd. apply Hnodup. now apply NoDup_filter.
      * intros k Hk.
        assert (Hne : x <> k).
        { intros <-. destruct Hk as [Hk|Hk]; [contradiction|]. apply Hk. now left. }
        rewrite Hkeep.
        -- now rewrite lookup_delete_ne.
        -- destruct Hk as [Hk|Hk]; [now left|]. right. intros H. apply Hk. now right.
      * intros k Hk Hin.
        destruct (decide (k ∈ keys)) as [Hin'|Hnin]; [now apply Hstop|].
        apply elem_of_cons in Hin as [->|Hin]; [|contradiction].
        rewrite Hkeep by now right. apply lookup_delete_eq.
Qed.

(** X18: a sync pass makes the running workers match the active addresses
    without restarting any.  After a pass over the active documents the
    keys of the running workers are exactly the addresses of those
    documents, without repetition, and only keyed addresses have a fiber.
    An address that was not running is started from the cursor of its
    document, from 0 when the document has none; a fiber of an address that
    is no longer active is removed; and an address that was running and is
    still active keeps what it had, whether a live fiber or none.  So when a
    worker has ended while its address stays active, a sync pass does not
    start it again; it is started again by the first pass that finds the
    address active after a pass that found it inactive. *)
Theorem sync_reconciles_workers :
  forall (docs : list WatchedAddress.t) (w : Indexer.Workers),
    let active := map WatchedAddress.address docs in
    let w' := Indexer.sync docs w in
    (forall k, k ∈ Indexer.runningKeys w' <-> k ∈ active) /\
    (NoDup (Indexer.runningKeys w) -> NoDup (Indexer.runningKeys w')) /\
    ((forall k, is_Some (Indexer.fibers w !! k) -> k ∈ Indexer.runningKeys w) ->
     forall k, is_Some (Indexer.fibers w' !! k) -> k ∈ Indexer.runningKeys w') /\
    (forall doc, doc ∈ docs ->
       WatchedAddress.address doc ∉ Indexer.runningKeys w ->
       exists doc', doc' ∈ docs /\
         WatchedAddress.address doc' = WatchedAddress.address doc /\
         Indexer.fibers w' !! WatchedAddress.address doc
         = Some (default 0 (WatchedAddress.lastIndexedTime doc'))) /\
    (forall k, k ∉ active -> k ∈ Indexer.runningKeys w ->
       Indexer.fibers w' !! k = None) /\
    (forall k, k ∈ active -> k ∈ Indexer.runningKeys w ->
       Indexer.fibers w' !! k = Indexer.fibers w !! k) /\
    (forall k, k ∈ active -> k ∈ Indexer.runningKeys w ->
       Indexer.fibers (Indexer.sync docs (Indexer.workerEnded k w)) !! k = None) /\
    (forall k later, k ∉ active -> k ∈ map WatchedAddress.address later ->
       is_Some (Indexer.fibers (Indexer.sync later w') !! k)).
Proof.
  assert (Hsync : forall docs w,
    let active := map WatchedAddress.address docs in
    let w' := Indexer.sync docs w in
    (forall k, k ∈ Indexer.runningKeys w' <-> k ∈ active) /\
    (NoDup (Indexer.runningKeys w) -> NoDup (Indexer.runningKeys w')) /\
    (forall doc, doc ∈ docs ->
       WatchedAddress.address doc ∉ Indexer.runningKeys w ->
       exists doc', doc' ∈ docs /\
         WatchedAddress.address doc' = WatchedAddress.address doc /\
         Indexer.fibers w' !! WatchedAddress.address doc
         = Some (default 0 (WatchedAddress.lastIndexedTime doc'))) /\
    (forall k, k ∉ active -> k ∈ Indexer.runningKeys w ->
       Indexer.fibers w' !! k = None) /\
    (forall k, k ∈ active -> k ∈ Indexer.runningKeys w ->
       Indexer.fibers w' !! k = Indexer.fibers w !! k) /\
    (forall k, k ∉ active -> k ∉ Indexer.runningKeys w ->
       Indexer.fibers w' !! k = Indexer.fibers w !! k)).
  { intros docs w active w'. subst w'. unfold Indexer.sync. fold active.
    destruct (startStep_fold docs w) as (Hk1 & Hn1 & Hf1 & Hs1).
    set (w1 := fold_left Indexer.startStep docs w) in *.
    destruct (stopStep_fold active (Indexer.runningKeys w1) w1) as (Hk2 & Hn2 & Hf2 & Hs2).
    set (w2 := fold_left (Indexer.stopStep active) (Indexer.runningKeys w1) w1) in *.
    split; [|split; [|split; [|split; [|split]]]].
    - intros k. rewrite Hk2, Hk1. fold active. tauto.
    - auto.
    - intros doc Hdoc Hnew. destruct (Hs1 doc Hdoc Hnew) as (doc' & Hin' & Haddr & Hfiber).
      exists doc'. split; [exact Hin'|]. split; [exact Haddr|].
      rewrite Hf2; [exact Hfiber|]. left. unfold active. apply list_elem_of_fmap. eauto.
    - intros k Hk Hrun. apply Hs2; [exact Hk|]. apply Hk1. now left.
    - intros k Hk Hrun. rewrite Hf2 by now left. apply Hf1. now left.
    - intros k Hk Hrun. rewrite Hf2.
      + apply Hf1. now right.
      + right. rewrite Hk1. fold active. tauto. }
  intros docs w active w'.
  destruct (Hsync docs w) as (Hkeys & Hnodup & Hstart & Hstop & Hkeep & Hout).
  fold active in Hkeys, Hstop, Hkeep, Hout. fold w' in Hkeys, Hnodup, Hstart, Hstop, Hkeep, Hout.
  split; [exact Hkeys|]. split; [exact Hnodup|]. split; [|split; [exact Hstart|]].
  - intros Hinv k Hk. apply Hkeys.
    destruct (decide (k ∈ active)) as [Ha|Hna]; [exact Ha|]. exfalso.
    destruct (decide (k ∈ Indexer.runningKeys w)) as [Hr|Hnr].
    + rewrite (Hstop k Hna Hr) in Hk. destruct Hk; discriminate.
    + rewrite (Hout k Hna Hnr) in Hk. apply Hnr. now apply Hinv.
  - split; [exact Hstop|]. split; [exact Hkeep|]. split.
    + intros k Ha Hr.
      destruct (Hsync docs (Indexer.workerEnded k w)) as (_ & _ & _ & _ & Hkeep' & _).
      fold active in Hkeep'. rewrite (Hkeep' k Ha Hr). apply lookup_delete_eq.
    + intros k later Hna Hlater.
      destruct (Hsync later w') as (_ & _ & Hstart' & _).
      apply list_elem_of_fmap in Hlater as (doc & -> & Hdoc).
      destruct (Hstart' doc Hdoc) as (doc' & _ & _ & Hfiber).
      * intros H. apply Hkeys in H. contradiction.
      * rewrite Hfiber. eauto.
Qed.

Lemma sync_reconciles_workers_witness :
  NoDup (Indexer.runningKeys
           (Indexer.sync [WatchedAddress.mk "0xaa" (Some 7) true]
              (Indexer.mkWorkers ["0xbb"] {[ "0xbb" := 0 ]}))) /\
  Indexer.fibers
    (Indexer.sync [WatchedAddress.mk "0xaa" (Some 7) true]
       (Indexer.mkWorkers ["0xbb"] {[ "0xbb" := 0 ]})) !! "0xbb" = None /\
  Indexer.fibers
    (Indexer.sync [WatchedAddress.mk "0xaa" (Some 7) true]
       (Indexer.workerEnded "0xaa" (Indexer.mkWorkers ["0xaa"] {[ "0xaa" := 0 ]})))
    !! "0xaa" = None.
Proof.
  destruct (sync_reconciles_workers [WatchedAddress.mk "0xaa" (Some 7) true]
              (Indexer.mkWorkers ["0xbb"] {[ "0xbb" := 0 ]}))
    as (_ & Hnodup & _ & _ & Hstop & _).
  destruct (sync_reconciles_workers [WatchedAddress.mk "0xaa" (Some 7) true]
              (Indexer.mkWorkers ["0xaa"] {[ "0xaa" := 0 ]}))
    as (_ & _ & _ & _ & _ & _ & Hended & _).
  split; [|split].
  - apply Hnodup. simpl. apply NoDup_singleton.
  - apply Hstop; simpl.
    + intros H. apply list_elem_of_singleton in H. discriminate.
    + now left.
  - apply Hended; simpl; now left.
Defined.

(* ===================================================================== *)
(** * Decoding ERC20 transfer calls *)
(* ===================================================================== *)

Lemma substring_length n m s :
  (n + m <= String.length s)%nat -> String.length (substring n m s) = m.
Proof.
  revert n m. induction s as [|c rest IH]; intros n m Hlen; simpl in Hlen.
  - assert (n = 0%nat) by lia. assert (m = 0%nat) by lia. subst. reflexivity.
  - destruct n as [|n]; destruct m as [|m]; simpl; try reflexivity.
    + f_equal. apply (IH 0%nat m). simpl. lia.
    + apply IH. lia.
    + apply IH. lia.
Qed.

Lemma toLowerCase_length s : String.length (JS.toLowerCase s) = String.length s.
Proof. induction s as [|c s IH]; simpl; [reflexivity | now rewrite IH]. Qed.

Lemma substring_app_skip a b n m :
  substring (String.length a + n) m (a ++ b) = substring n m b.
Proof. induction a as [|c a IH]; simpl; [reflexivity | exact IH]. Qed.

Lemma substring_app_take a b :
  substring 0 (String.length a) (a ++ b) = a.
Proof.
  induction a as [|c a IH]; simpl.
  - destruct b; reflexivity.
  - now rewrite IH.
Qed.

Lemma substring_app_skip_at a b n m k :
  k = (String.length a + n)%nat -> substring k m (a ++ b) = substring n m b.
Proof. intros ->. apply substring_app_skip. Qed.

Lemma substring_app_take_at a b m :
  m = String.length a -> substring 0 m (a ++ b) = a.
Proof. intros ->. apply substring_app_take. Qed.

Lemma append_length a b : String.length (a ++ b) = (String.length a + String.length b)%nat.
Proof. induction a as [|c a IH]; simpl; [reflexivity | now rewrite IH]. Qed.

Lemma append_assoc (a b c : string) : ((a ++ b) ++ c = a ++ (b ++ c))%string.
Proof.
  induction a as [|x a IH]; [reflexivity|].
  change (String x ((a ++ b) ++ c) = String x (a ++ (b ++ c))). now rewrite IH.
Qed.

Lemma encoded_layout padding recipient amountDigits rest :
  String.length padding = 24%nat ->
  String.length recipient = 40%nat ->
  String.length amountDigits = 64%nat ->
  let input := (Calldata.encoded padding recipient amountDigits ++ rest)%string in
  (String.length input <? 138)%nat = false /\
  String.prefix "0x" input = true /\
  Calldata.slice 2 10 input = Calldata.TRANSFER_SELECTOR /\
  Calldata.slice 34 74 input = recipient /\
  Calldata.slice 74 138 input = amountDigits.
Proof.
  intros Hpad Hrec Hdigits input. subst input. unfold Calldata.encoded.
  rewrite !append_assoc. split; [|split; [|split; [|split]]].
  - apply Nat.ltb_ge. rewrite !append_length, Hpad, Hrec, Hdigits. simpl. lia.
  - reflexivity.
  - unfold Calldata.slice.
    change (substring 2 (10 - 2)
              ("0x" ++ Calldata.TRANSFER_SELECTOR ++ padding ++ recipient
                 ++ amountDigits ++ rest))
      with (substring 0 (String.length Calldata.TRANSFER_SELECTOR)
              (Calldata.TRANSFER_SELECTOR ++ padding ++ recipient
                 ++ amountDigits ++ rest)).
    apply substring_app_take.
  - unfold Calldata.slice, Calldata.TRANSFER_SELECTOR.
    change (substring 34 (74 - 34)
              ("0x" ++ "a9059cbb" ++ padding ++ recipient ++ amountDigits ++ rest))
      with (substring 24 40 (padding ++ recipient ++ amountDigits ++ rest)).
    rewrite (substring_app_skip_at padding _ 0 40 24) by (rewrite Hpad; reflexivity).
    apply substring_app_take_at. now rewrite Hrec.
  - unfold Calldata.slice, Calldata.TRANSFER_SELECTOR.
    change (substring 74 (138 - 74)
              ("0x" ++ "a9059cbb" ++ padding ++ recipient ++ amountDigits ++ rest))
      with (substring 64 64 (padding ++ recipient ++ amountDigits ++ rest)).
    rewrite (substring_app_skip_at padding _ 40 64 64) by (rewrite Hpad; reflexivity).
    rewrite (substring_app_skip_at recipient _ 0 64 40) by (rewrite Hrec; reflexivity).
    apply substring_app_take_at. now rewrite Hdigits.
Qed.

Lemma decodeTransferInput_returns input decoded :
  Calldata.decodeTransferInput input = Utils.Returns (Some decoded) ->
  (138 <= String.length input)%nat /\
  String.length (Calldata.to decoded) = 42%nat /\
  String.prefix "0x" (Calldata.to decoded) = true /\
  JS.toLowerCase (Calldata.to decoded) = Calldata.to decoded /\
  0 <= Calldata.amount decoded < 2 ^ 256.
Proof.
  unfold Calldata.decodeTransferInput.
  destruct (String.length input <? 138)%nat eqn:Hlen; [discriminate|].
  apply Nat.ltb_ge in Hlen.
  destruct (negb _); [discriminate|].
  destruct (Hex.BigInt0x _) as [amount|] eqn:Hamount; [|discriminate].
  intros [= <-]. cbn [Calldata.to Calldata.amount].
  split; [exact Hlen|].
  assert (Hoffset : ((if String.prefix "0x" input then 2 else 0) <= 2)%nat)
    by (destruct (String.prefix "0x" input); lia).
  set (offset := if String.prefix "0x" input then 2%nat else 0%nat) in *.
  split.
  { rewrite append_length, toLowerCase_length. unfold Calldata.slice.
    rewrite substring_length by lia. change (String.length "0x") with 2%nat. lia. }
  split; [destruct (JS.toLowerCase _); reflexivity|].
  split.
  { rewrite toLowerCase_app. now rewrite toLowerCase_idemp. }
  unfold Hex.BigInt0x in Hamount.
  pose proof (trimEnd_length (Calldata.slice (offset + 72) (offset + 136) input))
    as Htrim.
  pose proof (substring_length_le (offset + 72) (offset + 136 - (offset + 72)) input)
    as Hsub.
  fold (Calldata.slice (offset + 72) (offset + 136) input) in Hsub.
  destruct (Hex.trimEnd _) as [|c digits] eqn:E; [discriminate|].
  apply parseDigits_bound in Hamount; [|lia].
  assert (Hpow : 16 ^ Z.of_nat (String.length (String c digits)) <= 2 ^ 256).
  { change (2 ^ 256) with (16 ^ 64). apply Z.pow_le_mono_r; lia. }
  lia.
Qed.

(** X19: what decoding an ERC20 transfer call returns.  An input shorter
    than 138 characters, or whose selector (after an optional 0x) is not
    a9059cbb, is answered with null.  A decoded recipient is a 42-character
    string that starts with 0x and is in lower case, and a decoded amount
    lies between 0 and 2^256 - 1.  For call data made of 0x, the selector,
    24 characters of padding, a 40-character recipient and 64 amount digits
    that BigInt reads as a hexadecimal number, followed by anything, the
    recipient returned is 0x followed by the recipient in lower case and
    the amount is that number, whatever the padding holds.  The length test
    counts the 0x: the same call data without 0x and without anything after
    the amount has 136 characters and is answered with null. *)
Theorem decodeTransferInput_decodes_transfer_calls :
  forall (input : string),
    ((String.length input < 138)%nat ->
     Calldata.decodeTransferInput input = Utils.Returns None) /\
    ((if String.prefix "0x" input then Calldata.slice 2 10 input
      else Calldata.slice 0 8 input) <> Calldata.TRANSFER_SELECTOR ->
     Calldata.decodeTransferInput input = Utils.Returns None) /\
    (forall decoded,
       Calldata.decodeTransferInput input = Utils.Returns (Some decoded) ->
       (138 <= String.length input)%nat /\
       String.length (Calldata.to decoded) = 42%nat /\
       String.prefix "0x" (Calldata.to decoded) = true /\
       JS.toLowerCase (Calldata.to decoded) = Calldata.to decoded /\
       0 <= Calldata.amount decoded < 2 ^ 256) /\
    (forall padding recipient amountDigits rest value,
       String.length padding = 24%nat ->
       String.length recipient = 40%nat ->
       String.length amountDigits = 64%nat ->
       Hex.BigInt0x amountDigits = Some value ->
       (input = Calldata.encoded padding recipient amountDigits ++ rest ->
        Calldata.decodeTransferInput input
        = Utils.Returns (Some (Calldata.mkDecoded ("0x" ++ JS.toLowerCase recipient)
                                 value))) /\
       (input = Calldata.TRANSFER_SELECTOR ++ padding ++ recipient ++ amountDigits ->
        Calldata.decodeTransferInput input = Utils.Returns None)).
Proof.
  intros input. split; [|split; [|split]].
  - intros Hshort. unfold Calldata.decodeTransferInput.
    apply Nat.ltb_lt in Hshort. now rewrite Hshort.
  - intros Hselector. unfold Calldata.decodeTransferInput.
    destruct (String.length input <? 138)%nat; [reflexivity|].
    apply String.eqb_neq in Hselector. now rewrite Hselector.
  - intros decoded. apply decodeTransferInput_returns.
  - intros padding recipient amountDigits rest value Hpad Hrec Hdigits Hvalue. split.
    + intros ->.
      destruct (encoded_layout padding recipient amountDigits rest Hpad Hrec Hdigits)
        as (Hlong & Hprefix & Hsel & Hto & Hamount).
      unfold Calldata.decodeTransferInput. rewrite Hlong, Hprefix, Hsel.
      change (2 + 32)%nat with 34%nat. change (2 + 72)%nat with 74%nat.
      change (2 + 136)%nat with 138%nat.
      rewrite Hto, Hamount, Hvalue. reflexivity.
    + intros ->. unfold Calldata.decodeTransferInput.
      assert (Hshort : (String.length (Calldata.TRANSFER_SELECTOR ++ padding ++ recipient
                                         ++ amountDigits) <? 138)%nat = true).
      { apply Nat.ltb_lt. rewrite !append_length, Hpad, Hrec, Hdigits. simpl. lia. }
      now rewrite Hshort.
Qed.

Lemma decodeTransferInput_decodes_transfer_calls_witness :
  Calldata.decodeTransferInput
    (Calldata.encoded "000000000000000000000000"
       "30D83D444E230F652e2c62cb5697c8dad503987B"
       "0000000000000000000000000000000000000000000000000de0b6b3a7640000" ++ "")
  = Utils.Returns
      (Some (Calldata.mkDecoded "0x30d83d444e230f652e2c62cb5697c8dad503987b"
               1000000000000000000)).
Proof.
  apply (proj1 (proj2 (proj2 (proj2 (decodeTransferInput_decodes_transfer_calls
           (Calldata.encoded "000000000000000000000000"
              "30D83D444E230F652e2c62cb5697c8dad503987B"
              "0000000000000000000000000000000000000000000000000de0b6b3a7640000" ++ ""))))
           "000000000000000000000000" "30D83D444E230F652e2c62cb5697c8dad503987B"
           "0000000000000000000000000000000000000000000000000de0b6b3a7640000" ""
           1000000000000000000 eq_refl eq_refl eq_refl eq_refl)).
  reflexivity.
Defined.

(* ===================================================================== *)
(** * The RPC block fetcher *)
(* ===================================================================== *)

Lemma matchesTx_reads_decimal tx user systemAddress expectedAmount v :
  JS.BigInt (SystemTx.amountWei tx) = Some v ->
  Finder.matchesTx tx user systemAddress expectedAmount <> None.
Proof.
  intros Hv. unfold Finder.matchesTx. repeat case_bool_decide; try discriminate.
  rewrite Hv. discriminate.
Qed.

Lemma normalizeSystemTx_shape computeExplorerHash tx stx :
  Rpc.normalizeSystemTx computeExplorerHash tx = Utils.Returns (Some stx) ->
  FetcherFacts.wellFormed stx /\
  forall user systemAddress expectedAmount,
    Finder.matchesTx stx user systemAddress expectedAmount <> None.
Proof.
  unfold Rpc.normalizeSystemTx, FetcherFacts.wellFormed.
  destruct (Numeral.BigInt (RpcSystemTx.chainId tx)) as [chainId|]; [|discriminate].
  destruct (Numeral.BigInt (RpcSystemTx.nonce tx)) as [nonce|]; [|discriminate].
  destruct (Numeral.BigInt (RpcSystemTx.gasPrice tx)) as [gasPrice|]; [|discriminate].
  destruct (Numeral.BigInt (RpcSystemTx.gas tx)) as [gas|]; [|discriminate].
  destruct (Numeral.BigInt (RpcSystemTx.value tx)) as [value|]; [|discriminate].
  destruct (computeExplorerHash _) as [explorerHash|]; [|discriminate].
  destruct (negb _ && _).
  - intros [= <-]. cbn [SystemTx.from SystemTx.assetRecipient SystemTx.amountWei
                        SystemTx.contractAddress].
    rewrite !toLowerCase_idemp.
    split; [|intros; eapply matchesTx_reads_decimal; apply BigInt_toString_inv].
    repeat (split; [reflexivity|]).
    exists value. split; [apply BigInt_toString_inv | reflexivity].
  - destruct (Calldata.decodeTransferInput (RpcSystemTx.input tx)) as [[decoded|]|]
      eqn:Hdecode; try discriminate.
    intros [= <-]. cbn [SystemTx.from SystemTx.assetRecipient SystemTx.amountWei
                        SystemTx.contractAddress].
    destruct (decodeTransferInput_returns _ _ Hdecode) as (_ & _ & _ & Hlower & _).
    split; [|intros; eapply matchesTx_reads_decimal; apply BigInt_toString_inv].
    split; [apply toLowerCase_idemp|]. split; [exact Hlower|].
    split; [simpl; now rewrite toLowerCase_idemp|].
    exists (Calldata.amount decoded). split; [apply BigInt_toString_inv | reflexivity].
Qed.

Lemma ascending_sublist l1 l2 :
  l1 `sublist_of` l2 -> FetcherFacts.ascending l2 -> FetcherFacts.ascending l1.
Proof.
  induction 1 as [|x l1 l2 Hsub IH|x l1 l2 Hsub IH]; simpl.
  - auto.
  - intros [Hx Hrest]. split; [|now apply IH].
    intros y Hy. apply Hx. now apply (sublist_subseteq _ _ Hsub).
  - intros [_ Hrest]. now apply IH.
Qed.

(** X20: what the RPC fetcher makes of a system transaction.  A system
    transaction that is kept has the hash of the RPC transaction, its
    sender in lower case, a recipient in lower case, and an amount written
    in plain decimal, so that the finder's match predicate reads it without
    throwing and storing it changes none of its address fields.  It is
    kept as a native transfer, without contract address, exactly when its
    input is 0x and its value is not the string 0x0: the recipient is then
    the lower-case [to] and the amount the value that BigInt reads.
    Otherwise it is kept only if its input decodes as a transfer call: the
    contract address is then the lower-case [to], the recipient the decoded
    42-character address and the amount the decoded one, below 2^256. *)
Theorem normalizeSystemTx_output_is_well_formed :
  forall (computeExplorerHash : Rpc.TxFields -> option string)
         (tx : RpcSystemTx.t) (stx : SystemTx.t),
    Rpc.normalizeSystemTx computeExplorerHash tx = Utils.Returns (Some stx) ->
    SystemTx.hash stx = RpcSystemTx.hash tx /\
    SystemTx.from stx = JS.toLowerCase (RpcSystemTx.from tx) /\
    JS.toLowerCase (SystemTx.assetRecipient stx) = SystemTx.assetRecipient stx /\
    match SystemTx.contractAddress stx with
    | None =>
        RpcSystemTx.input tx = "0x" /\ RpcSystemTx.value tx <> "0x0" /\
        SystemTx.assetRecipient stx = JS.toLowerCase (RpcSystemTx.to tx) /\
        exists value, Numeral.BigInt (RpcSystemTx.value tx) = Some value /\
          SystemTx.amountWei stx = JS.BigInt_toString value
    | Some contract =>
        contract = JS.toLowerCase (RpcSystemTx.to tx) /\
        (RpcSystemTx.input tx <> "0x" \/ RpcSystemTx.value tx = "0x0") /\
        exists decoded,
          Calldata.decodeTransferInput (RpcSystemTx.input tx)
            = Utils.Returns (Some decoded) /\
          SystemTx.assetRecipient stx = Calldata.to decoded /\
          String.length (SystemTx.assetRecipient stx) = 42%nat /\
          SystemTx.amountWei stx = JS.BigInt_toString (Calldata.amount decoded) /\
          0 <= Calldata.amount decoded < 2 ^ 256
    end /\
    (exists amount, JS.BigInt (SystemTx.amountWei stx) = Some amount /\
       JS.BigInt_toString amount = SystemTx.amountWei stx) /\
    (forall user systemAddress expectedAmount,
       Finder.matchesTx stx user systemAddress expectedAmount <> None) /\
    (forall block,
       SystemTransaction.from (AnchorStore.docOfTx block stx) = SystemTx.from stx /\
       SystemTransaction.assetRecipient (AnchorStore.docOfTx block stx)
         = SystemTx.assetRecipient stx /\
       SystemTransaction.contractAddress (AnchorStore.docOfTx block stx)
         = SystemTx.contractAddress stx).
Proof.
  intros computeExplorerHash tx stx. unfold Rpc.normalizeSystemTx.
  destruct (Numeral.BigInt (RpcSystemTx.chainId tx)) as [chainId|]; [|discriminate].
  destruct (Numeral.BigInt (RpcSystemTx.nonce tx)) as [nonce|]; [|discriminate].
  destruct (Numeral.BigInt (RpcSystemTx.gasPrice tx)) as [gasPrice|]; [|discriminate].
  destruct (Numeral.BigInt (RpcSystemTx.gas tx)) as [gas|]; [|discriminate].
  destruct (Numeral.BigInt (RpcSystemTx.value tx)) as [value|] eqn:Hvalue; [|discriminate].
  destruct (computeExplorerHash _) as [explorerHash|]; [|discriminate].
  destruct (negb (String.eqb (RpcSystemTx.value tx) "0x0")
            && String.eqb (RpcSystemTx.input tx) "0x") eqn:Hnative.
  - apply andb_true_iff in Hnative as [Hv Hi]. apply negb_true_iff in Hv.
    apply String.eqb_neq in Hv. apply String.eqb_eq in Hi.
    intros [= <-]. cbn [SystemTx.hash SystemTx.from SystemTx.assetRecipient
                        SystemTx.amountWei SystemTx.contractAddress].
    split; [reflexivity|]. split; [reflexivity|]. split; [apply toLowerCase_idemp|].
    split; [split; [exact Hi|]; split; [exact Hv|]; split; [reflexivity|]; eauto|].
    split; [exists value; split; [apply BigInt_toString_inv | reflexivity]|].
    split; [intros; eapply matchesTx_reads_decimal; apply BigInt_toString_inv|].
    intros block. unfold AnchorStore.docOfTx. simpl. now rewrite !toLowerCase_idemp.
  - destruct (Calldata.decodeTransferInput (RpcSystemTx.input tx)) as [[decoded|]|]
      eqn:Hdecode; try discriminate.
    intros [= <-]. cbn [SystemTx.hash SystemTx.from SystemTx.assetRecipient
                        SystemTx.amountWei SystemTx.contractAddress].
    destruct (decodeTransferInput_returns _ _ Hdecode) as (_ & Hlen & _ & Hlower & Hrange).
    split; [reflexivity|]. split; [reflexivity|]. split; [exact Hlower|].
    split.
    { split; [reflexivity|]. split.
      - apply andb_false_iff in Hnative as [Hv|Hi].
        + right. apply negb_false_iff in Hv. now apply String.eqb_eq in Hv.
        + left. now apply String.eqb_neq in Hi.
      - exists decoded. auto. }
    split; [exists (Calldata.amount decoded);
            split; [apply BigInt_toString_inv | reflexivity]|].
    split; [intros; eapply matchesTx_reads_decimal; apply BigInt_toString_inv|].
    intros block. unfold AnchorStore.docOfTx. simpl.
    now rewrite !toLowerCase_idemp, Hlower.
Qed.

Lemma normalizeSystemTx_output_is_well_formed_witness :
  SystemTx.amountWei
    {| SystemTx.hash := "0xa1"; SystemTx.explorerHash := "0xe1";
       SystemTx.from := "0x2222222222222222222222222222222222222222";
       SystemTx.assetRecipient := "0x30d83d444e230f652e2c62cb5697c8dad503987b";
       SystemTx.amountWei := "1000000000000000000";
       SystemTx.contractAddress := None |}
  = JS.BigInt_toString 1000000000000000000 /\
  RpcSystemTx.input
    (RpcSystemTx.mk "0xa1" "0x2222222222222222222222222222222222222222"
       "0x30D83D444E230F652e2c62cb5697c8dad503987B" "0x" "0xde0b6b3a7640000"
       "0x0" "0x5208" "0x0" "0x3e7") = "0x".
Proof.
  destruct (normalizeSystemTx_output_is_well_formed (fun _ => Some "0xe1")
              (RpcSystemTx.mk "0xa1" "0x2222222222222222222222222222222222222222"
                 "0x30D83D444E230F652e2c62cb5697c8dad503987B" "0x" "0xde0b6b3a7640000"
                 "0x0" "0x5208" "0x0" "0x3e7")
              {| SystemTx.hash := "0xa1"; SystemTx.explorerHash := "0xe1";
                 SystemTx.from := "0x2222222222222222222222222222222222222222";
                 SystemTx.assetRecipient := "0x30d83d444e230f652e2c62cb5697c8dad503987b";
                 SystemTx.amountWei := "1000000000000000000";
                 SystemTx.contractAddress := None |})
    as (_ & _ & _ & Hnative & _).
  - vm_compute. reflexivity.
  - cbn [SystemTx.contractAddress] in Hnative.
    destruct Hnative as (Hinput & _ & _ & value & Hvalue & Hamount).
    split; [|exact Hinput].
    rewrite Hamount. f_equal. vm_compute in Hvalue. now injection Hvalue.
Defined.

(** ** Chunks, answers and order *)

Lemma chunksOf_spec size fuel :
  forall l, (0 < size)%nat -> (length l <= fuel)%nat ->
    concat (Rpc.chunksOf fuel size l) = l /\
    forall chunk, chunk ∈ Rpc.chunksOf fuel size l ->
      (1 <= length chunk <= size)%nat.
Proof.
  induction fuel as [|fuel IH]; intros l Hsize Hfuel.
  - destruct l; [|simpl in Hfuel; lia]. simpl. split; [reflexivity|].
    intros chunk H. inversion H.
  - destruct l as [|x l]; [simpl; split; [reflexivity | intros chunk H; inversion H]|].
    cbn [Rpc.chunksOf].
    destruct (IH (drop size (x :: l)) Hsize) as [Hconcat Hchunks].
    { rewrite length_drop. simpl in *. lia. }
    split.
    + cbn [concat]. rewrite Hconcat. apply take_drop.
    + intros chunk Hchunk. apply elem_of_cons in Hchunk as [->|Hchunk];
        [|now apply Hchunks].
      rewrite length_take. simpl. lia.
Qed.

Lemma buildBatchCalls_length blockNumbers :
  length (Rpc.buildBatchCalls blockNumbers) = (2 * length blockNumbers)%nat.
Proof.
  unfold Rpc.buildBatchCalls. induction blockNumbers as [|n rest IH]; simpl; [reflexivity|].
  rewrite IH. lia.
Qed.

Lemma normalizeAll_spec computeExplorerHash txs :
  forall systemTxs,
    Rpc.normalizeAll computeExplorerHash txs = Some systemTxs ->
    forall stx, stx ∈ systemTxs ->
      exists tx, tx ∈ txs /\
        Rpc.normalizeSystemTx computeExplorerHash tx = Utils.Returns (Some stx).
Proof.
  induction txs as [|tx rest IH]; intros systemTxs; simpl.
  - intros [= <-] stx H. inversion H.
  - destruct (Rpc.normalizeSystemTx computeExplorerHash tx) as [r|] eqn:Htx;
      [|discriminate].
    destruct (Rpc.normalizeAll computeExplorerHash rest) as [l|]; [|discriminate].
    intros [= <-] stx Hstx.
    assert (Hrest : stx ∈ l -> exists tx0, tx0 ∈ tx :: rest /\
              Rpc.normalizeSystemTx computeExplorerHash tx0 = Utils.Returns (Some stx)).
    { intros Hl. destruct (IH l eq_refl stx Hl) as (tx0 & Hin & Hn).
      exists tx0. split; [now right | exact Hn]. }
    destruct r as [s|]; [|now apply Hrest].
    apply elem_of_cons in Hstx as [->|Hstx]; [|now apply Hrest].
    exists tx. split; [now left | exact Htx].
Qed.

Lemma parseFrom_spec computeExplorerHash results blockNumbers :
  forall i blocks,
    Rpc.parseFrom computeExplorerHash i blockNumbers results = Rpc.ParsedBlocks blocks ->
    map BlockData.number blocks `sublist_of` blockNumbers /\
    forall b, b ∈ blocks ->
      (exists seconds, BlockData.timestamp b = seconds * 1000 /\
         Numeral.isSafeInteger (BlockData.timestamp b) = true) /\
      forall stx, stx ∈ BlockData.systemTxs b ->
        exists tx, Rpc.normalizeSystemTx computeExplorerHash tx = Utils.Returns (Some stx).
Proof.
  induction blockNumbers as [|n rest IH]; intros i blocks; cbn [Rpc.parseFrom].
  - intros [= <-]. split; [constructor | intros b H; inversion H].
  - destruct (default Rpc.RNull (results !! (i * 2)%nat)) as [|blockResp|txs0].
    + intros H. destruct (IH _ _ H) as [Hsub Hall].
      split; [now apply sublist_cons | exact Hall].
    + destruct (Rpc.normalizeAll computeExplorerHash _) as [systemTxs|] eqn:Htxs;
        [|discriminate].
      destruct (Rpc.parseFrom computeExplorerHash (S i) rest results) as [more| |] eqn:Hrest;
        try discriminate.
      destruct (Numeral.parseInt16 _) as [seconds|]; [|discriminate].
      destruct (Numeral.isSafeInteger (seconds * 1000)) eqn:Hsafe; [|discriminate].
      intros [= <-]. destruct (IH _ _ Hrest) as [Hsub Hall].
      split; [simpl; now apply sublist_skip|].
      intros b Hb. apply elem_of_cons in Hb as [->|Hb]; [|now apply Hall].
      split; [simpl; eauto|]. simpl. intros stx Hstx.
      destruct (normalizeAll_spec _ _ _ Htxs stx Hstx) as (tx & _ & Htx). eauto.
    + destruct (Rpc.normalizeAll computeExplorerHash _); [|discriminate].
      destruct (Rpc.parseFrom computeExplorerHash (S i) rest results); discriminate.
Qed.

Lemma insertByNumber_spec b sorted :
  Rpc.insertByNumber b sorted ≡ₚ b :: sorted /\
  (FetcherFacts.ascending (map BlockData.number sorted) ->
   FetcherFacts.ascending (map BlockData.number (Rpc.insertByNumber b sorted))).
Proof.
  induction sorted as [|x rest [IHp IHs]]; simpl.
  - split; [reflexivity|]. intros _. split; [intros y H; inversion H | exact I].
  - destruct (BlockData.number b <=? BlockData.number x) eqn:E.
    + apply Z.leb_le in E. split; [reflexivity|]. intros [Hx Hrest]. simpl.
      split; [|split; assumption].
      intros y Hy. apply elem_of_cons in Hy as [->|Hy]; [exact E|].
      specialize (Hx y Hy). lia.
    + apply Z.leb_gt in E. split.
      * rewrite IHp. apply Permutation_swap.
      * intros [Hx Hrest]. simpl. split; [|now apply IHs].
        intros y Hy. apply list_elem_of_fmap in Hy as (c & -> & Hc).
        rewrite IHp in Hc. apply elem_of_cons in Hc as [->|Hc]; [lia|].
        apply Hx. apply list_elem_of_fmap. eauto.
Qed.

Lemma sortByNumber_spec blocks :
  Rpc.sortByNumber blocks ≡ₚ blocks /\
  FetcherFacts.ascending (map BlockData.number (Rpc.sortByNumber blocks)).
Proof.
  unfold Rpc.sortByNumber. induction blocks as [|b rest [IHp IHs]]; simpl.
  - split; [reflexivity | exact I].
  - destruct (insertByNumber_spec b (fold_right Rpc.insertByNumber [] rest)) as [Hp Hs].
    split; [now rewrite Hp, IHp | now apply Hs].
Qed.

Lemma sortByNumber_ascending blocks :
  FetcherFacts.ascending (map BlockData.number blocks) ->
  Rpc.sortByNumber blocks = blocks.
Proof.
  unfold Rpc.sortByNumber. induction blocks as [|b rest IH]; simpl; [reflexivity|].
  intros [Hb Hrest]. rewrite IH by exact Hrest.
  destruct rest as [|x rest']; [reflexivity|]. simpl.
  assert (BlockData.number b <= BlockData.number x) as Hle by (apply Hb; now left).
  apply Z.leb_le in Hle. now rewrite Hle.
Qed.

Lemma fetchChunk_spec computeExplorerHash rpcBatch chunk retries :
  forall request,
    (request < snd (Rpc.fetchChunk computeExplorerHash rpcBatch retries request chunk)
     <= request + retries + 1)%nat /\
    (forall blocks,
       fst (Rpc.fetchChunk computeExplorerHash rpcBatch retries request chunk)
       = Rpc.Blocks blocks ->
       exists results,
         rpcBatch (Rpc.buildBatchCalls chunk)
           (pred (snd (Rpc.fetchChunk computeExplorerHash rpcBatch retries request chunk)))
         = inr results /\
         Rpc.parseRpcResults computeExplorerHash chunk results = Rpc.ParsedBlocks blocks) /\
    (forall e,
       fst (Rpc.fetchChunk computeExplorerHash rpcBatch retries request chunk)
       = Rpc.Failed e ->
       rpcBatch (Rpc.buildBatchCalls chunk)
         (pred (snd (Rpc.fetchChunk computeExplorerHash rpcBatch retries request chunk)))
       = inl e /\
       (snd (Rpc.fetchChunk computeExplorerHash rpcBatch retries request chunk)
        = (request + retries + 1)%nat \/ Rpc.retryable e = false)).
Proof.
  induction retries as [|retries IH]; intros request; cbn [Rpc.fetchChunk].
  - destruct (rpcBatch (Rpc.buildBatchCalls chunk) request) as [e|results] eqn:Hrpc;
      cbn [fst snd pred].
    + split; [lia|]. split; [discriminate|].
      intros e' [= <-]. split; [exact Hrpc | left; lia].
    + split; [lia|]. split; [|intros e; destruct (Rpc.parseRpcResults _ _ _); discriminate].
      intros blocks Hblocks. exists results. split; [exact Hrpc|].
      destruct (Rpc.parseRpcResults computeExplorerHash chunk results); congruence.
  - destruct (rpcBatch (Rpc.buildBatchCalls chunk) request) as [e|results] eqn:Hrpc.
    + destruct (Rpc.retryable e) eqn:Hretry.
      * destruct (IH (S request)) as (Hsent & Hblocks & Hfailed).
        split; [lia|]. split; [exact Hblocks|].
        intros e' He'. destruct (Hfailed e' He') as [Hlast Hwhy].
        split; [exact Hlast|]. destruct Hwhy as [Hwhy|Hwhy]; [left; lia | now right].
      * cbn [fst snd pred]. split; [lia|]. split; [discriminate|].
        intros e' [= <-]. split; [exact Hrpc | now right].
    + cbn [fst snd pred]. split; [lia|].
      split; [|intros e; destruct (Rpc.parseRpcResults _ _ _); discriminate].
      intros blocks Hblocks. exists results. split; [exact Hrpc|].
      destruct (Rpc.parseRpcResults computeExplorerHash chunk results); congruence.
Qed.

Lemma fetchChunks_spec computeExplorerHash rpcBatch chunks :
  forall request,
    (request <= snd (Rpc.fetchChunks computeExplorerHash rpcBatch request chunks)
     <= request + 4 * length chunks)%nat /\
    forall blocks,
      fst (Rpc.fetchChunks computeExplorerHash rpcBatch request chunks) = Rpc.Blocks blocks ->
      (request + length chunks
       <= snd (Rpc.fetchChunks computeExplorerHash rpcBatch request chunks))%nat /\
      map BlockData.number blocks `sublist_of` concat chunks /\
      forall b, b ∈ blocks ->
        (exists seconds, BlockData.timestamp b = seconds * 1000 /\
           Numeral.isSafeInteger (BlockData.timestamp b) = true) /\
        forall stx, stx ∈ BlockData.systemTxs b ->
          exists tx, Rpc.normalizeSystemTx computeExplorerHash tx = Utils.Returns (Some stx).
Proof.
  induction chunks as [|chunk rest IH]; intros request; cbn [Rpc.fetchChunks].
  - cbn [fst snd length]. split; [lia|]. intros blocks [= <-].
    split; [lia|]. split; [constructor | intros b H; inversion H].
  - destruct (fetchChunk_spec computeExplorerHash rpcBatch chunk 3 request)
      as (Hsent & Hblocks & _).
    destruct (Rpc.fetchChunk computeExplorerHash rpcBatch 3 request chunk)
      as [[first|e| |] request'] eqn:Hchunk; cbn [fst snd] in Hsent, Hblocks.
    + destruct (Hblocks first eq_refl) as (results & _ & Hparse).
      destruct (IH request') as [Hsent' Hrest].
      destruct (Rpc.fetchChunks computeExplorerHash rpcBatch request' rest)
        as [[more|e| |] sent]; cbn [fst snd length] in *;
        (split; [lia|]); try discriminate.
      intros blocks [= <-]. destruct (Hrest more eq_refl) as (Hcount & Hsub & Hall).
      destruct (parseFrom_spec _ _ _ _ _ Hparse) as [Hsub1 Hall1].
      split; [lia|]. split.
      * rewrite map_app. cbn [concat]. now apply sublist_app.
      * intros b Hb. apply elem_of_app in Hb as [Hb|Hb]; auto.
    + cbn [fst snd length]. split; [lia | discriminate].
    + cbn [fst snd length]. split; [lia | discriminate].
    + destruct (IH request') as [Hsent' _].
      destruct (Rpc.fetchChunks computeExplorerHash rpcBatch request' rest)
        as [[more|e| |] sent]; cbn [fst snd length] in *;
        (split; [lia | discriminate]).
Qed.

Lemma fetchChunks_failed computeExplorerHash rpcBatch chunks :
  forall request e,
    fst (Rpc.fetchChunks computeExplorerHash rpcBatch request chunks) = Rpc.Failed e ->
    exists chunk, chunk ∈ chunks /\
      rpcBatch (Rpc.buildBatchCalls chunk)
        (pred (snd (Rpc.fetchChunks computeExplorerHash rpcBatch request chunks))) = inl e /\
      (Rpc.retryable e = true ->
       (request + 4 <= snd (Rpc.fetchChunks computeExplorerHash rpcBatch request chunks))%nat).
Proof.
  induction chunks as [|chunk rest IH]; intros request e; cbn [Rpc.fetchChunks];
    [discriminate|].
  destruct (fetchChunk_spec computeExplorerHash rpcBatch chunk 3 request)
    as (Hsent & _ & Hfailed).
  destruct (Rpc.fetchChunk computeExplorerHash rpcBatch 3 request chunk)
    as [[first|e'| |] request'] eqn:Hchunk; cbn [fst snd] in Hsent, Hfailed.
  - specialize (IH request' e).
    destruct (Rpc.fetchChunks computeExplorerHash rpcBatch request' rest)
      as [[more|e''| |] sent]; cbn [fst snd] in *; try discriminate.
    intros He. destruct (IH He) as (c & Hc & Hlast & Hretry).
    exists c. split; [now right|]. split; [exact Hlast|]. intros H. specialize (Hretry H). lia.
  - cbn [fst snd]. intros [= <-]. destruct (Hfailed e' eq_refl) as [Hlast Hwhy].
    exists chunk. split; [now left|]. split; [exact Hlast|].
    intros Hretry. destruct Hwhy as [->|Hwhy]; [lia | congruence].
  - discriminate.
  - specialize (IH request' e).
    destruct (Rpc.fetchChunks computeExplorerHash rpcBatch request' rest)
      as [[more|e''| |] sent]; cbn [fst snd] in *; try discriminate.
    intros He. destruct (IH He) as (c & Hc & Hlast & Hretry).
    exists c. split; [now right|]. split; [exact Hlast|]. intros H. specialize (Hretry H). lia.
Qed.

Lemma fetchChunk_ext computeExplorerHash rpcBatch rpcBatch' chunk retries :
  forall request,
    (forall n, (request <= n <= request + retries)%nat ->
       rpcBatch (Rpc.buildBatchCalls chunk) n = rpcBatch' (Rpc.buildBatchCalls chunk) n) ->
    Rpc.fetchChunk computeExplorerHash rpcBatch retries request chunk
    = Rpc.fetchChunk computeExplorerHash rpcBatch' retries request chunk.
Proof.
  induction retries as [|retries IH]; intros request Hagree; cbn [Rpc.fetchChunk];
    rewrite (Hagree request) by lia; [reflexivity|].
  destruct (rpcBatch' (Rpc.buildBatchCalls chunk) request) as [e|results]; [|reflexivity].
  destruct (Rpc.retryable e); [|reflexivity].
  apply IH. intros n Hn. apply Hagree. lia.
Qed.

Lemma fetchChunks_ext computeExplorerHash rpcBatch rpcBatch' chunks :
  forall request,
    (forall chunk n, chunk ∈ chunks -> (request <= n < request + 4 * length chunks)%nat ->
       rpcBatch (Rpc.buildBatchCalls chunk) n = rpcBatch' (Rpc.buildBatchCalls chunk) n) ->
    Rpc.fetchChunks computeExplorerHash rpcBatch request chunks
    = Rpc.fetchChunks computeExplorerHash rpcBatch' request chunks.
Proof.
  induction chunks as [|chunk rest IH]; intros request Hagree; cbn [Rpc.fetchChunks];
    [reflexivity|].
  cbn [length] in Hagree.
  rewrite (fetchChunk_ext computeExplorerHash rpcBatch rpcBatch' chunk 3 request)
    by (intros n Hn; apply Hagree; [now left | lia]).
  destruct (fetchChunk_spec computeExplorerHash rpcBatch' chunk 3 request) as (Hsent & _).
  destruct (Rpc.fetchChunk computeExplorerHash rpcBatch' 3 request chunk)
    as [outcome request']; cbn [snd] in Hsent.
  assert (Hrest : Rpc.fetchChunks computeExplorerHash rpcBatch request' rest
                  = Rpc.fetchChunks computeExplorerHash rpcBatch' request' rest).
  { apply IH. intros c n Hc Hn. apply Hagree; [now right | lia]. }
  now rewrite Hrest.
Qed.

Lemma fetchBlocks_chunks computeExplorerHash rpcBatch blockNumbers :
  Rpc.fetchBlocks computeExplorerHash rpcBatch blockNumbers
  = match Rpc.fetchChunks computeExplorerHash rpcBatch 0
            (Rpc.chunksOf (length blockNumbers) 10 blockNumbers) with
    | (Rpc.Blocks results, sent) => (Rpc.Blocks (Rpc.sortByNumber results), sent)
    | other => other
    end.
Proof. destruct blockNumbers; reflexivity. Qed.

(** X21: what the RPC fetcher returns and asks.  When fetching a list of
    block numbers ends with blocks, the blocks are in ascending order of
    number; their numbers are taken from the requested list, with no more
    occurrences than requested, so never more blocks than requested; every
    timestamp is a whole number of seconds in milliseconds, within the safe
    integers; and every system transaction is well formed: addresses in
    lower case and the amount in plain decimal, which the finder's match
    predicate reads without throwing.  The requested numbers are cut, in
    order, into chunks of one to ten numbers, each asked in one batch of two
    calls per number, so no batch exceeds the limit of 20 calls.  At most
    four requests are sent per chunk and, when blocks are returned, at least
    one; the outcome does not depend on what the endpoint would answer to
    any other batch or to a later request.  A failure is the endpoint's
    answer to the last request sent, and an error that the retry policy
    retries (rate limited, Timeout, HTTP 5xx) is returned only after four
    requests.  An empty request is answered
    with no blocks without asking, and a request in ascending order whose
    answers are all read is answered in the order of the request. *)
Theorem rpc_fetchBlocks_returns_requested_blocks :
  forall (computeExplorerHash : Rpc.TxFields -> option string)
         (rpcBatch : list Rpc.Call -> nat -> Finder.BlockFetchError + list Rpc.Result)
         (blockNumbers : list Z),
    let chunks := Rpc.chunksOf (length blockNumbers) 10 blockNumbers in
    (concat chunks = blockNumbers /\
     forall chunk, chunk ∈ chunks ->
       (1 <= length chunk <= 10)%nat /\
       Z.of_nat (length (Rpc.buildBatchCalls chunk)) <= Rpc.MAX_BATCH_SIZE) /\
    (snd (Rpc.fetchBlocks computeExplorerHash rpcBatch blockNumbers)
     <= 4 * length chunks)%nat /\
    (forall rpcBatch',
       (forall chunk n, chunk ∈ chunks -> (n < 4 * length chunks)%nat ->
          rpcBatch (Rpc.buildBatchCalls chunk) n
          = rpcBatch' (Rpc.buildBatchCalls chunk) n) ->
       Rpc.fetchBlocks computeExplorerHash rpcBatch blockNumbers
       = Rpc.fetchBlocks computeExplorerHash rpcBatch' blockNumbers) /\
    Rpc.fetchBlocks computeExplorerHash rpcBatch [] = (Rpc.Blocks [], 0%nat) /\
    (forall e sent,
       Rpc.fetchBlocks computeExplorerHash rpcBatch blockNumbers = (Rpc.Failed e, sent) ->
       (Rpc.retryable e = true -> (4 <= sent)%nat) /\
       exists chunk, chunk ∈ chunks /\
         rpcBatch (Rpc.buildBatchCalls chunk) (pred sent) = inl e) /\
    (forall blocks sent,
       Rpc.fetchBlocks computeExplorerHash rpcBatch blockNumbers = (Rpc.Blocks blocks, sent) ->
       (length chunks <= sent)%nat /\
       FetcherFacts.ascending (map BlockData.number blocks) /\
       map BlockData.number blocks ⊆+ blockNumbers /\
       (length blocks <= length blockNumbers)%nat /\
       (forall b, b ∈ blocks ->
          BlockData.number b ∈ blockNumbers /\
          (exists seconds, BlockData.timestamp b = seconds * 1000 /\
             Numeral.isSafeInteger (BlockData.timestamp b) = true) /\
          forall stx, stx ∈ BlockData.systemTxs b ->
            FetcherFacts.wellFormed stx /\
            forall user systemAddress expectedAmount,
              Finder.matchesTx stx user systemAddress expectedAmount <> None) /\
       (FetcherFacts.ascending blockNumbers ->
        map BlockData.number blocks `sublist_of` blockNumbers)).
Proof.
  intros computeExplorerHash rpcBatch blockNumbers chunks.
  destruct (chunksOf_spec 10 (length blockNumbers) blockNumbers) as [Hconcat Hchunks];
    [lia | lia |]. fold chunks in Hconcat, Hchunks.
  destruct (fetchChunks_spec computeExplorerHash rpcBatch chunks 0) as [Hsent Hblocks].
  split; [|split; [|split; [|split; [reflexivity|split]]]].
  - split; [exact Hconcat|]. intros chunk Hchunk.
    destruct (Hchunks chunk Hchunk) as [H1 H10]. split; [lia|].
    rewrite buildBatchCalls_length. unfold Rpc.MAX_BATCH_SIZE. lia.
  - rewrite fetchBlocks_chunks. fold chunks.
    destruct (Rpc.fetchChunks computeExplorerHash rpcBatch 0 chunks) as [[results|e| |] sent];
      cbn [snd] in *; lia.
  - intros rpcBatch' Hagree. rewrite !fetchBlocks_chunks. fold chunks.
    rewrite (fetchChunks_ext computeExplorerHash rpcBatch rpcBatch' chunks 0);
      [reflexivity|].
    intros chunk n Hchunk Hn. apply Hagree; [exact Hchunk | lia].
  - intros e sent. rewrite fetchBlocks_chunks. fold chunks.
    pose proof (fetchChunks_failed computeExplorerHash rpcBatch chunks 0 e) as Hfailed.
    destruct (Rpc.fetchChunks computeExplorerHash rpcBatch 0 chunks)
      as [[results|e'| |] sent'] eqn:Hfetch; try discriminate.
    intros [= <- <-]. cbn [fst snd] in Hfailed.
    destruct (Hfailed eq_refl) as (chunk & Hchunk & Hlast & Hretry).
    split; [intros H; specialize (Hretry H); lia | eauto].
  - intros blocks sent. rewrite fetchBlocks_chunks. fold chunks.
    destruct (Rpc.fetchChunks computeExplorerHash rpcBatch 0 chunks)
      as [[results|e| |] sent'] eqn:Hfetch; try discriminate.
    intros [= <- <-]. cbn [fst snd] in Hsent, Hblocks.
    destruct (Hblocks results eq_refl) as (Hcount & Hsub & Hall). rewrite Hconcat in Hsub.
    destruct (sortByNumber_spec results) as [Hperm Hsorted].
    assert (Hmulti : map BlockData.number (Rpc.sortByNumber results) ⊆+ blockNumbers).
    { rewrite Hperm. now apply sublist_submseteq. }
    split; [lia|]. split; [exact Hsorted|]. split; [exact Hmulti|].
    split; [apply submseteq_length in Hmulti; now rewrite length_map in Hmulti|].
    split.
    + intros b Hb. split.
      * apply (elem_of_submseteq _ _ _ (list_elem_of_fmap_2 BlockData.number _ _ Hb) Hmulti).
      * rewrite Hperm in Hb. destruct (Hall b Hb) as [Hts Htxs]. split; [exact Hts|].
        intros stx Hstx. destruct (Htxs stx Hstx) as (tx & Htx).
        pose proof (normalizeSystemTx_shape _ _ _ Htx) as (Hwf & Hread).
        split; assumption.
    + intros Hasc.
      assert (Hres : FetcherFacts.ascending (map BlockData.number results)).
      { eapply ascending_sublist; eauto. }
      now rewrite (sortByNumber_ascending results Hres).
Qed.

Lemma rpc_fetchBlocks_returns_requested_blocks_witness :
  exists blocks,
    Rpc.fetchBlocks (fun _ => Some "0xe1") Samples.busyEndpoint [12; 11] = (Rpc.Blocks blocks, 2%nat) /\
    length blocks = 2%nat /\
    FetcherFacts.ascending (map BlockData.number blocks) /\
    map BlockData.number blocks ⊆+ [12; 11].
Proof.
  eexists. split; [vm_compute; reflexivity|]. split; [reflexivity|].
  destruct (rpc_fetchBlocks_returns_requested_blocks (fun _ => Some "0xe1")
              Samples.busyEndpoint [12; 11]) as (_ & _ & _ & _ & _ & Hblocks).
  destruct (Hblocks _ _ ltac:(vm_compute; reflexivity)) as (_ & Hasc & Hsub & _).
  split; [exact Hasc | exact Hsub].
Defined.

(** ** Buffers written in hexadecimal *)

Lemma digitOf_reads d :
  0 <= d < 16 ->
  Hex.isWhiteSpace (Hex.digitOf d) = false /\ Numeral.digitIn 16 (Hex.digitOf d) = Some d.
Proof.
  intros Hd.
  assert (d = 0 \/ d = 1 \/ d = 2 \/ d = 3 \/ d = 4 \/ d = 5 \/ d = 6 \/ d = 7 \/ d = 8 \/
          d = 9 \/ d = 10 \/ d = 11 \/ d = 12 \/ d = 13 \/ d = 14 \/ d = 15) as Hcases by lia.
  repeat (destruct Hcases as [->|Hcases]; [split; reflexivity|]).
  subst d. split; reflexivity.
Qed.

Lemma byte_digits (b : Byte.byte) :
  0 <= Z.of_N (Byte.to_N b) / 16 < 16 /\ 0 <= Z.of_N (Byte.to_N b) mod 16 < 16 /\
  0 <= Z.of_N (Byte.to_N b) < 256.
Proof.
  pose proof (Byte.to_N_bounded b) as Hb.
  assert (0 <= Z.of_N (Byte.to_N b) < 256) as Hn by lia.
  split; [|split; [|exact Hn]].
  - split; [apply Z.div_pos; lia | apply Z.div_lt_upper_bound; lia].
  - apply Z.mod_pos_bound. lia.
Qed.

Lemma trimEnd_cons c rest :
  Hex.isWhiteSpace c = false -> Hex.trimEnd (String c rest) = String c (Hex.trimEnd rest).
Proof.
  intros Hc. cbn [Hex.trimEnd]. rewrite Hc. now destruct (Hex.trimEnd rest).
Qed.

Lemma hexOf_cons b rest :
  S3.hexOf (b :: rest)
  = String (Hex.digitOf (Z.of_N (Byte.to_N b) / 16))
      (String (Hex.digitOf (Z.of_N (Byte.to_N b) mod 16)) (S3.hexOf rest)).
Proof. reflexivity. Qed.

Lemma hexOf_trimEnd buf : Hex.trimEnd (S3.hexOf buf) = S3.hexOf buf.
Proof.
  induction buf as [|b rest IH]; [reflexivity|].
  rewrite hexOf_cons. destruct (byte_digits b) as (Hhi & Hlo & _).
  rewrite !trimEnd_cons, IH by (apply digitOf_reads; assumption). reflexivity.
Qed.

Lemma hexOf_lower buf : JS.toLowerCase (S3.hexOf buf) = S3.hexOf buf.
Proof.
  induction buf as [|b rest IH]; [reflexivity|].
  rewrite hexOf_cons. destruct (byte_digits b) as (Hhi & Hlo & _).
  cbn [JS.toLowerCase]. now rewrite !digitOf_lower, IH by assumption.
Qed.

Lemma toHex_lower buf : JS.toLowerCase (S3.toHex buf) = S3.toHex buf.
Proof.
  unfold S3.toHex. change ("0x" ++ S3.hexOf buf)%string with (String "0" (String "x" (S3.hexOf buf))).
  cbn [JS.toLowerCase]. now rewrite hexOf_lower.
Qed.

Lemma hexOf_length buf : String.length (S3.hexOf buf) = (2 * length buf)%nat.
Proof.
  induction buf as [|b rest IH]; [reflexivity|].
  rewrite hexOf_cons. cbn [String.length length]. rewrite IH. lia.
Qed.

Lemma allDigits_hexOf buf :
  forall acc,
    Numeral.allDigits 16 (S3.hexOf buf) acc
    = Some (fold_left (fun acc b => 256 * acc + Z.of_N (Byte.to_N b)) buf acc).
Proof.
  induction buf as [|b rest IH]; intros acc; [reflexivity|].
  rewrite hexOf_cons. destruct (byte_digits b) as (Hhi & Hlo & _).
  cbn [Numeral.allDigits fold_left].
  destruct (digitOf_reads _ Hhi) as [_ ->]. destruct (digitOf_reads _ Hlo) as [_ ->].
  rewrite IH. do 2 f_equal.
  pose proof (Z.div_mod (Z.of_N (Byte.to_N b)) 16). lia.
Qed.

Lemma toBigInt_spec buf :
  S3.toBigInt buf
  = match buf with [] => None | _ => Some (FetcherFacts.bigEndian buf) end.
Proof.
  unfold S3.toBigInt, S3.toHex, Numeral.BigInt, Numeral.trim.
  change ("0x" ++ S3.hexOf buf)%string with (String "0" (String "x" (S3.hexOf buf))).
  cbn [Numeral.trimStart]. change (Hex.isWhiteSpace "0") with false. cbn iota.
  rewrite !trimEnd_cons, hexOf_trimEnd by reflexivity.
  destruct buf as [|b rest]; [reflexivity|].
  unfold Numeral.nonEmptyDigits. rewrite hexOf_cons at 1.
  now rewrite allDigits_hexOf.
Qed.

Lemma bigEndian_bounds buf : 0 <= FetcherFacts.bigEndian buf < 256 ^ Z.of_nat (length buf).
Proof.
  unfold FetcherFacts.bigEndian.
  assert (forall acc n, 0 <= acc < 256 ^ n -> 0 <= n ->
            0 <= fold_left (fun acc b => 256 * acc + Z.of_N (Byte.to_N b)) buf acc
            < 256 ^ (n + Z.of_nat (length buf))) as Hgen.
  { induction buf as [|b rest IH]; intros acc n Hacc Hn; cbn [fold_left length].
    - now rewrite Z.add_0_r.
    - destruct (byte_digits b) as (_ & _ & Hb).
      replace (n + Z.of_nat (S (length rest))) with ((n + 1) + Z.of_nat (length rest)) by lia.
      apply IH; [|lia]. rewrite Z.pow_add_r by lia. change (256 ^ 1) with 256. lia. }
  apply (Hgen 0 0); [change (256 ^ 0) with 1; lia | lia].
Qed.

Lemma toHex_empty buf : S3.toHex buf = "0x" <-> buf = [].
Proof.
  split; [|now intros ->].
  intros H. apply (f_equal String.length) in H. unfold S3.toHex in H.
  rewrite append_length, hexOf_length in H. cbn in H.
  destruct buf; [reflexivity | cbn in H; lia].
Qed.

Lemma hexOf_app a b : S3.hexOf (a ++ b)%list = (S3.hexOf a ++ S3.hexOf b)%string.
Proof.
  induction a as [|x a IH]; [reflexivity|].
  change ((x :: a) ++ b)%list with (x :: (a ++ b)). now rewrite !hexOf_cons, IH.
Qed.

Lemma substring_all s : substring 0 (String.length s) s = s.
Proof. induction s as [|c s IH]; simpl; [reflexivity | now rewrite IH]. Qed.

Lemma sliceLast_toHex buf :
  (20 <= length buf)%nat ->
  Hex.sliceLast 40 (S3.toHex buf) = S3.hexOf (drop (length buf - 20) buf).
Proof.
  intros Hlen. unfold Hex.sliceLast, S3.toHex.
  rewrite <- (take_drop (length buf - 20) buf) at 1 2.
  rewrite hexOf_app, <- append_assoc.
  assert (Hlast : String.length (S3.hexOf (drop (length buf - 20) buf)) = 40%nat).
  { rewrite hexOf_length, length_drop. lia. }
  rewrite (substring_app_skip_at _ _ 0 40);
    [rewrite <- Hlast at 1; apply substring_all|].
  rewrite !append_length, Hlast. lia.
Qed.

(** ** What the S3 fetcher makes of a block *)

Lemma extractFromAddressFromLogs_spec contractAddress logs :
  forall fromAddress,
    S3.extractFromAddressFromLogs logs contractAddress = Some fromAddress ->
    JS.toLowerCase fromAddress = fromAddress /\
    exists log topic0 topic1 more,
      log ∈ logs /\
      S3.toHex (S3.address log) = JS.toLowerCase contractAddress /\
      S3.topics log = Some (topic0 :: topic1 :: more) /\ more <> [] /\
      S3.toHex topic0 = Calldata.TRANSFER_EVENT_TOPIC /\
      fromAddress = JS.toLowerCase ("0x" ++ Hex.sliceLast 40 (S3.toHex topic1)) /\
      ((20 <= length topic1)%nat ->
       fromAddress = ("0x" ++ S3.hexOf (drop (length topic1 - 20) topic1))%string).
Proof.
  induction logs as [|log rest IH]; intros fromAddress; cbn [S3.extractFromAddressFromLogs];
    [discriminate|].
  assert (Hrest : S3.extractFromAddressFromLogs rest contractAddress = Some fromAddress ->
                  JS.toLowerCase fromAddress = fromAddress /\
                  exists log0 topic0 topic1 more,
                    log0 ∈ log :: rest /\
                    S3.toHex (S3.address log0) = JS.toLowerCase contractAddress /\
                    S3.topics log0 = Some (topic0 :: topic1 :: more) /\ more <> [] /\
                    S3.toHex topic0 = Calldata.TRANSFER_EVENT_TOPIC /\
                    fromAddress = JS.toLowerCase ("0x" ++ Hex.sliceLast 40 (S3.toHex topic1)) /\
                    ((20 <= length topic1)%nat ->
                     fromAddress
                     = ("0x" ++ S3.hexOf (drop (length topic1 - 20) topic1))%string)).
  { intros H. destruct (IH _ H) as (Hlower & l & t0 & t1 & more & Hl & Hrest).
    split; [exact Hlower|]. exists l, t0, t1, more. split; [now right | exact Hrest]. }
  rewrite toHex_lower.
  destruct (String.eqb (S3.toHex (S3.address log)) (JS.toLowerCase contractAddress))
    eqn:Haddress; cbn [negb]; [|exact Hrest].
  apply String.eqb_eq in Haddress.
  destruct (S3.topics log) as [[|topic0 [|topic1 [|topic2 more]]]|] eqn:Htopics;
    try exact Hrest.
  rewrite toHex_lower.
  destruct (String.eqb (S3.toHex topic0) Calldata.TRANSFER_EVENT_TOPIC) eqn:Htopic;
    cbn [negb]; [|exact Hrest].
  apply String.eqb_eq in Htopic. clear Hrest IH. intros H.
  assert (Hfrom : fromAddress
                  = JS.toLowerCase ("0x" ++ Hex.sliceLast 40 (S3.toHex topic1)))
    by congruence.
  clear H. rewrite Hfrom.
  split; [apply toLowerCase_idemp|].
  exists log, topic0, topic1, (topic2 :: more).
  split; [now left|]. split; [exact Haddress|]. split; [exact Htopics|].
  split; [discriminate|]. split; [exact Htopic|]. split; [reflexivity|].
  intros Hlen. rewrite (sliceLast_toHex topic1 Hlen).
  change ("0x" ++ S3.hexOf (drop (length topic1 - 20) topic1))%string
    with (S3.toHex (drop (length topic1 - 20) topic1)).
  apply toHex_lower.
Qed.

Lemma parseSystemTx_returns computeTxHashes sysTx stx :
  S3.parseSystemTx computeTxHashes sysTx = Utils.Returns (Some stx) ->
  FetcherFacts.wellFormed stx /\
  (forall user systemAddress expectedAmount,
     Finder.matchesTx stx user systemAddress expectedAmount <> None) /\
  exists txData,
    S3.tx sysTx = Some txData /\
    match SystemTx.contractAddress stx with
    | None =>
        SystemTx.from stx = Utils.HYPE_SYSTEM_ADDRESS /\
        S3.input txData = [] /\
        SystemTx.assetRecipient stx = S3.toHex (S3.to txData) /\
        0 < FetcherFacts.bigEndian (S3.value txData) /\
        SystemTx.amountWei stx
        = JS.BigInt_toString (FetcherFacts.bigEndian (S3.value txData))
    | Some contract =>
        contract = S3.toHex (S3.to txData) /\
        (exists decoded,
           Calldata.decodeTransferInput (S3.toHex (S3.input txData))
           = Utils.Returns (Some decoded) /\
           SystemTx.assetRecipient stx = Calldata.to decoded /\
           SystemTx.amountWei stx = JS.BigInt_toString (Calldata.amount decoded)) /\
        S3.extractFromAddressFromLogs (S3.logs sysTx) contract = Some (SystemTx.from stx)
    end.
Proof.
  unfold S3.parseSystemTx, FetcherFacts.wellFormed.
  destruct (S3.tx sysTx) as [txData|]; [|discriminate].
  rewrite toHex_lower, !toBigInt_spec.
  destruct (S3.value txData) as [|v0 value] eqn:Hvalue; [discriminate|].
  destruct (S3.chainId txData) as [|c0 chainId]; [discriminate|].
  destruct (S3.nonce txData) as [|n0 nonce]; [discriminate|].
  destruct (S3.gasPrice txData) as [|p0 gasPrice]; [discriminate|].
  destruct (S3.gas txData) as [|g0 gas]; [discriminate|].
  destruct (String.eqb (S3.toHex (S3.input txData)) "0x"
            && (0 <? FetcherFacts.bigEndian (v0 :: value))) eqn:Hnative.
  - apply andb_true_iff in Hnative as [Hinput Hpositive].
    apply String.eqb_eq, toHex_empty in Hinput. apply Z.ltb_lt in Hpositive.
    destruct (computeTxHashes _ _) as [[hash explorerHash]|]; [|discriminate].
    intros [= <-]. cbn [SystemTx.from SystemTx.assetRecipient SystemTx.amountWei
                        SystemTx.contractAddress].
    split; [|split; [intros; eapply matchesTx_reads_decimal; apply BigInt_toString_inv|]].
    + split; [reflexivity|]. split; [apply toHex_lower|]. split; [reflexivity|].
      eexists. split; [apply BigInt_toString_inv | reflexivity].
    + exists txData. split; [reflexivity|]. rewrite Hvalue. auto.
  - destruct (Calldata.decodeTransferInput (S3.toHex (S3.input txData)))
      as [[decoded|]|] eqn:Hdecode; try discriminate.
    destruct (S3.extractFromAddressFromLogs (S3.logs sysTx) (S3.toHex (S3.to txData)))
      as [fromAddress|] eqn:Hfrom; [|discriminate].
    destruct (computeTxHashes _ _) as [[hash explorerHash]|]; [|discriminate].
    intros [= <-]. cbn [SystemTx.from SystemTx.assetRecipient SystemTx.amountWei
                        SystemTx.contractAddress].
    destruct (decodeTransferInput_returns _ _ Hdecode) as (_ & _ & _ & Hlower & _).
    destruct (extractFromAddressFromLogs_spec _ _ _ Hfrom) as [Hfromlower _].
    split; [|split; [intros; eapply matchesTx_reads_decimal; apply BigInt_toString_inv|]].
    + split; [exact Hfromlower|]. split; [exact Hlower|].
      split; [change (Some (JS.toLowerCase (S3.toHex (S3.to txData)))
                      = Some (S3.toHex (S3.to txData))); now rewrite toHex_lower|].
      eexists. split; [apply BigInt_toString_inv | reflexivity].
    + exists txData. split; [reflexivity|]. split; [reflexivity|]. split; [|exact Hfrom].
      exists decoded. auto.
Qed.

Lemma parseSystemTx_throws_on_empty computeTxHashes sysTx txData :
  S3.tx sysTx = Some txData ->
  S3.value txData = [] \/ S3.chainId txData = [] \/ S3.nonce txData = [] \/
  S3.gasPrice txData = [] \/ S3.gas txData = [] ->
  S3.parseSystemTx computeTxHashes sysTx = Utils.Throws.
Proof.
  intros Htx Hempty. unfold S3.parseSystemTx. rewrite Htx, !toBigInt_spec.
  destruct (S3.value txData), (S3.chainId txData), (S3.nonce txData),
    (S3.gasPrice txData), (S3.gas txData); try reflexivity.
  destruct Hempty as [H|[H|[H|[H|H]]]]; discriminate.
Qed.

Lemma parseSystemTxs_spec computeTxHashes sysTxs :
  forall results,
    S3.parseSystemTxs computeTxHashes sysTxs = Utils.Returns results ->
    (length results <= length sysTxs)%nat /\
    forall stx, stx ∈ results ->
      exists sysTx, sysTx ∈ sysTxs /\
        S3.parseSystemTx computeTxHashes sysTx = Utils.Returns (Some stx).
Proof.
  induction sysTxs as [|sysTx rest IH]; intros results; cbn [S3.parseSystemTxs].
  - intros [= <-]. split; [reflexivity | intros stx H; inversion H].
  - destruct (S3.parseSystemTx computeTxHashes sysTx) as [r|] eqn:Hfirst; [|discriminate].
    destruct (S3.parseSystemTxs computeTxHashes rest) as [more|]; [|discriminate].
    destruct (IH more eq_refl) as [Hlen Hall]. intros [= <-].
    assert (Hmore : forall stx, stx ∈ more ->
              exists s, s ∈ sysTx :: rest /\
                S3.parseSystemTx computeTxHashes s = Utils.Returns (Some stx)).
    { intros stx Hstx. destruct (Hall stx Hstx) as (s & Hs & Hparse).
      exists s. split; [now right | exact Hparse]. }
    destruct r as [stx0|]; cbn [length].
    + split; [lia|]. intros stx Hstx. apply elem_of_cons in Hstx as [->|Hstx]; [|auto].
      exists sysTx. split; [now left | exact Hfirst].
    + split; [lia | exact Hmore].
Qed.

Lemma parseSystemTxs_throws computeTxHashes sysTxs sysTx :
  sysTx ∈ sysTxs ->
  S3.parseSystemTx computeTxHashes sysTx = Utils.Throws ->
  S3.parseSystemTxs computeTxHashes sysTxs = Utils.Throws.
Proof.
  intros Hin Hthrows. induction sysTxs as [|s rest IH]; [inversion Hin|].
  cbn [S3.parseSystemTxs]. apply elem_of_cons in Hin as [<-|Hin].
  - now rewrite Hthrows.
  - rewrite (IH Hin). now destruct (S3.parseSystemTx computeTxHashes s).
Qed.

(** X22: what the S3 fetcher makes of the system transactions of a block.
    Every transaction it keeps has addresses in lower case and an amount in
    plain decimal that the finder's match predicate reads without throwing,
    and comes from a raw transaction with a Legacy body; no more
    transactions are kept than the block holds.  A transaction is kept as a
    native transfer, without contract address and sent by the HYPE system
    address, only when its input is empty and its value, read most
    significant byte first, is positive: the amount is that value and the
    recipient the hexadecimal [to].  Otherwise it is kept only when its
    input decodes as a transfer call and a log of the same contract with at
    least three topics, the first being the Transfer event, exists: the
    sender is then read from the second topic of the first such log (its
    last 20 bytes when it has at least 20).  A Legacy transaction one of
    whose value, chain id, nonce, gas price or gas is an empty buffer makes
    the parse of the whole block throw. *)
Theorem s3_parseSystemTxs_output_is_well_formed :
  forall (computeTxHashes : S3.TxFields -> string -> option (string * string))
         (sysTxs : list S3.SysTx),
    (forall results,
       S3.parseSystemTxs computeTxHashes sysTxs = Utils.Returns results ->
       (length results <= length sysTxs)%nat /\
       forall stx, stx ∈ results ->
         FetcherFacts.wellFormed stx /\
         (forall user systemAddress expectedAmount,
            Finder.matchesTx stx user systemAddress expectedAmount <> None) /\
         exists sysTx txData,
           sysTx ∈ sysTxs /\ S3.tx sysTx = Some txData /\
           match SystemTx.contractAddress stx with
           | None =>
               SystemTx.from stx = Utils.HYPE_SYSTEM_ADDRESS /\
               S3.input txData = [] /\
               SystemTx.assetRecipient stx = S3.toHex (S3.to txData) /\
               0 < FetcherFacts.bigEndian (S3.value txData) /\
               SystemTx.amountWei stx
               = JS.BigInt_toString (FetcherFacts.bigEndian (S3.value txData))
           | Some contract =>
               contract = S3.toHex (S3.to txData) /\
               (exists decoded,
                  Calldata.decodeTransferInput (S3.toHex (S3.input txData))
                  = Utils.Returns (Some decoded) /\
                  SystemTx.assetRecipient stx = Calldata.to decoded /\
                  SystemTx.amountWei stx = JS.BigInt_toString (Calldata.amount decoded)) /\
               exists log topic0 topic1 more,
                 log ∈ S3.logs sysTx /\
                 S3.toHex (S3.address log) = contract /\
                 S3.topics log = Some (topic0 :: topic1 :: more) /\ more <> [] /\
                 S3.toHex topic0 = Calldata.TRANSFER_EVENT_TOPIC /\
                 SystemTx.from stx
                 = JS.toLowerCase ("0x" ++ Hex.sliceLast 40 (S3.toHex topic1)) /\
                 ((20 <= length topic1)%nat ->
                  SystemTx.from stx
                  = ("0x" ++ S3.hexOf (drop (length topic1 - 20) topic1))%string)
           end) /\
    (forall sysTx txData,
       sysTx ∈ sysTxs -> S3.tx sysTx = Some txData ->
       S3.value txData = [] \/ S3.chainId txData = [] \/ S3.nonce txData = [] \/
       S3.gasPrice txData = [] \/ S3.gas txData = [] ->
       S3.parseSystemTxs computeTxHashes sysTxs = Utils.Throws).
Proof.
  intros computeTxHashes sysTxs. split.
  - intros results Hresults.
    destruct (parseSystemTxs_spec _ _ _ Hresults) as [Hlen Hall].
    split; [exact Hlen|]. intros stx Hstx.
    destruct (Hall stx Hstx) as (sysTx & HsysTx & Hparse).
    destruct (parseSystemTx_returns _ _ _ Hparse) as (Hwf & Hread & txData & Htx & Hkind).
    split; [exact Hwf|]. split; [exact Hread|].
    exists sysTx, txData. split; [exact HsysTx|]. split; [exact Htx|].
    destruct (SystemTx.contractAddress stx) as [contract|]; [|exact Hkind].
    destruct Hkind as (Hcontract & Hdecoded & Hfrom).
    split; [exact Hcontract|]. split; [exact Hdecoded|].
    destruct (extractFromAddressFromLogs_spec _ _ _ Hfrom)
      as (_ & log & topic0 & topic1 & more & Hlog & Haddress & Hrest).
    exists log, topic0, topic1, more. split; [exact Hlog|]. split; [|exact Hrest].
    rewrite Haddress, Hcontract. apply toHex_lower.
  - intros sysTx txData HsysTx Htx Hempty.
    apply (parseSystemTxs_throws _ _ sysTx HsysTx).
    now apply (parseSystemTx_throws_on_empty _ _ txData).
Qed.

Lemma s3_parseSystemTxs_output_is_well_formed_witness :
  exists results,
    S3.parseSystemTxs Samples.s3Hashes [Samples.s3Native; Samples.s3Erc20; Samples.s3NoLegacy]
    = Utils.Returns results /\
    map SystemTx.from results
    = ["0x2222222222222222222222222222222222222222";
       "0x20000000000000000000000000000000000000c8"] /\
    (length results <= 3)%nat /\
    forall stx, stx ∈ results -> FetcherFacts.wellFormed stx.
Proof.
  eexists. split; [vm_compute; reflexivity|]. split; [reflexivity|].
  destruct (s3_parseSystemTxs_output_is_well_formed Samples.s3Hashes
              [Samples.s3Native; Samples.s3Erc20; Samples.s3NoLegacy]) as [Hresults _].
  destruct (Hresults _ ltac:(vm_compute; reflexivity)) as [Hlen Hall].
  split; [exact Hlen|]. intros stx Hstx. now destruct (Hall stx Hstx).
Defined.

Lemma parseS3Block_spec computeTxHashes blockNum raw block :
  S3.parseS3Block computeTxHashes blockNum raw = S3.ParsedBlock block ->
  BlockData.number block = blockNum /\
  BlockData.hash block = S3.toHex (S3.hash raw) /\
  BlockData.timestamp block = FetcherFacts.bigEndian (S3.timestamp raw) * 1000 /\
  Numeral.isSafeInteger (BlockData.timestamp block) = true /\
  S3.parseSystemTxs computeTxHashes (S3.system_txs raw)
  = Utils.Returns (BlockData.systemTxs block).
Proof.
  unfold S3.parseS3Block. rewrite toBigInt_spec.
  destruct (S3.timestamp raw) as [|t0 timestamp]; [discriminate|].
  destruct (S3.parseSystemTxs computeTxHashes (S3.system_txs raw)) as [systemTxs|];
    [|discriminate].
  destruct (Numeral.isSafeInteger _) eqn:Hsafe; [|discriminate].
  intros [= <-]. cbn [BlockData.number BlockData.hash BlockData.timestamp
                      BlockData.systemTxs]. auto.
Qed.

Lemma s3_fetchBlock_spec computeTxHashes s3Get position blockNum retries :
  forall attempt,
    match S3.fetchBlock computeTxHashes s3Get retries attempt position blockNum with
    | S3.Block block =>
        exists k raw, (attempt <= k <= attempt + retries)%nat /\
          s3Get position ("/" ++ S3.blockToS3Key blockNum) k = S3.Data raw /\
          S3.parseS3Block computeTxHashes blockNum raw = S3.ParsedBlock block
    | S3.Failed e =>
        exists k, (attempt <= k <= attempt + retries)%nat /\
          (s3Get position ("/" ++ S3.blockToS3Key blockNum) k = S3.FetchFails e \/
           s3Get position ("/" ++ S3.blockToS3Key blockNum) k = S3.NoData /\
           e = Finder.mkFetchError
                 ("Invalid data for block " ++ JS.BigInt_toString blockNum) "s3") /\
          (S3.retryable e = true -> k = (attempt + retries)%nat)
    | _ => True
    end.
Proof.
  induction retries as [|retries IH]; intros attempt; cbn [S3.fetchBlock].
  - destruct (s3Get position ("/" ++ S3.blockToS3Key blockNum) attempt)
      as [e| | |raw] eqn:Hget; try exact I.
    + exists attempt. split; [lia|]. split; [now left | intros; lia].
    + exists attempt. split; [lia|]. split; [right; now split | intros; lia].
    + destruct (S3.parseS3Block computeTxHashes blockNum raw) eqn:Hparse; try exact I.
      exists attempt, raw. split; [lia | auto].
  - assert (Hnext :
      match S3.fetchBlock computeTxHashes s3Get retries (S attempt) position blockNum with
      | S3.Block block =>
          exists k raw, (attempt <= k <= attempt + S retries)%nat /\
            s3Get position ("/" ++ S3.blockToS3Key blockNum) k = S3.Data raw /\
            S3.parseS3Block computeTxHashes blockNum raw = S3.ParsedBlock block
      | S3.Failed e =>
          exists k, (attempt <= k <= attempt + S retries)%nat /\
            (s3Get position ("/" ++ S3.blockToS3Key blockNum) k = S3.FetchFails e \/
             s3Get position ("/" ++ S3.blockToS3Key blockNum) k = S3.NoData /\
             e = Finder.mkFetchError
                   ("Invalid data for block " ++ JS.BigInt_toString blockNum) "s3") /\
            (S3.retryable e = true -> k = (attempt + S retries)%nat)
      | _ => True
      end).
    { specialize (IH (S attempt)).
      destruct (S3.fetchBlock computeTxHashes s3Get retries (S attempt) position blockNum);
        try exact I.
      - destruct IH as (k & raw & Hk & Hrest). exists k, raw. split; [lia | exact Hrest].
      - destruct IH as (k & Hk & Hwhat & Hretry). exists k. split; [lia|].
        split; [exact Hwhat|]. intros H. specialize (Hretry H). lia. }
    destruct (s3Get position ("/" ++ S3.blockToS3Key blockNum) attempt)
      as [e| | |raw] eqn:Hget; try exact I.
    + destruct (S3.retryable e) eqn:Hretry; [exact Hnext|].
      exists attempt. split; [lia|]. split; [now left | congruence].
    + destruct (S3.retryable _) eqn:Hretry; [exact Hnext|].
      exists attempt. split; [lia|]. split; [right; now split | congruence].
    + destruct (S3.parseS3Block computeTxHashes blockNum raw) eqn:Hparse; try exact I.
      exists attempt, raw. split; [lia | auto].
Qed.

Lemma s3_fetchBlock_ext computeTxHashes s3Get s3Get' position blockNum retries :
  forall attempt,
    (forall k, (attempt <= k <= attempt + retries)%nat ->
       s3Get position ("/" ++ S3.blockToS3Key blockNum) k
       = s3Get' position ("/" ++ S3.blockToS3Key blockNum) k) ->
    S3.fetchBlock computeTxHashes s3Get retries attempt position blockNum
    = S3.fetchBlock computeTxHashes s3Get' retries attempt position blockNum.
Proof.
  induction retries as [|retries IH]; intros attempt Hagree; cbn [S3.fetchBlock];
    rewrite (Hagree attempt) by lia; [reflexivity|].
  rewrite (IH (S attempt)) by (intros k Hk; apply Hagree; lia). reflexivity.
Qed.

Lemma fetchFrom_spec computeTxHashes s3Get blockNumbers :
  forall position,
    length (S3.fetchFrom computeTxHashes s3Get position blockNumbers) = length blockNumbers /\
    forall i outcome,
      S3.fetchFrom computeTxHashes s3Get position blockNumbers !! i = Some outcome ->
      exists n, blockNumbers !! i = Some n /\
        outcome = S3.fetchBlock computeTxHashes s3Get 3 0 (position + i) n.
Proof.
  induction blockNumbers as [|n rest IH]; intros position; cbn [S3.fetchFrom length].
  - split; [reflexivity | intros i outcome H; inversion H].
  - destruct (IH (S position)) as [Hlen Hall]. split; [now rewrite Hlen|].
    intros [|i] outcome; cbn.
    + intros [= <-]. exists n. split; [reflexivity|]. now rewrite Nat.add_0_r.
    + intros H. destruct (Hall i outcome H) as (m & Hm & ->).
      exists m. split; [exact Hm|].
      now replace (position + S i)%nat with (S position + i)%nat by lia.
Qed.

Lemma fetchFrom_ext computeTxHashes s3Get s3Get' blockNumbers :
  forall position,
    (forall i n attempt, blockNumbers !! i = Some n -> (attempt <= 3)%nat ->
       s3Get (position + i)%nat ("/" ++ S3.blockToS3Key n) attempt
       = s3Get' (position + i)%nat ("/" ++ S3.blockToS3Key n) attempt) ->
    S3.fetchFrom computeTxHashes s3Get position blockNumbers
    = S3.fetchFrom computeTxHashes s3Get' position blockNumbers.
Proof.
  induction blockNumbers as [|n rest IH]; intros position Hagree; cbn [S3.fetchFrom];
    [reflexivity|].
  f_equal.
  - apply s3_fetchBlock_ext. intros k Hk.
    specialize (Hagree 0%nat n k eq_refl). rewrite Nat.add_0_r in Hagree. apply Hagree. lia.
  - apply IH. intros i m attempt Hm Hattempt.
    specialize (Hagree (S i) m attempt Hm Hattempt).
    now replace (position + S i)%nat with (S position + i)%nat in Hagree by lia.
Qed.

Lemma blocksOf_spec outcomes :
  forall blocks, S3.blocksOf outcomes = Some blocks -> outcomes = map S3.Block blocks.
Proof.
  induction outcomes as [|o rest IH]; intros blocks; cbn [S3.blocksOf].
  - now intros [= <-].
  - destruct o as [b| | |]; try discriminate.
    destruct (S3.blocksOf rest) as [more|]; [|discriminate].
    intros [= <-]. cbn [map]. now rewrite (IH more eq_refl).
Qed.

Lemma fetchFrom_blocks computeTxHashes s3Get blockNumbers :
  forall position results,
    S3.fetchFrom computeTxHashes s3Get position blockNumbers = map S3.Block results ->
    map BlockData.number results = blockNumbers /\
    forall b, b ∈ results ->
      exists i attempt raw,
        blockNumbers !! i = Some (BlockData.number b) /\ (attempt <= 3)%nat /\
        s3Get (position + i)%nat ("/" ++ S3.blockToS3Key (BlockData.number b)) attempt
        = S3.Data raw /\
        S3.parseS3Block computeTxHashes (BlockData.number b) raw = S3.ParsedBlock b.
Proof.
  induction blockNumbers as [|n rest IH]; intros position results; cbn [S3.fetchFrom].
  - destruct results; [|discriminate]. intros _.
    split; [reflexivity | intros b H; inversion H].
  - destruct results as [|b more]; [discriminate|]. cbn [map]. intros H.
    assert (Hfirst : S3.fetchBlock computeTxHashes s3Get 3 0 position n = S3.Block b)
      by congruence.
    assert (Hrest : S3.fetchFrom computeTxHashes s3Get (S position) rest
                    = map S3.Block more) by congruence.
    clear H.
    destruct (IH _ _ Hrest) as [Hnumbers Hall].
    pose proof (s3_fetchBlock_spec computeTxHashes s3Get position n 3 0) as Hspec.
    rewrite Hfirst in Hspec. destruct Hspec as (k & raw & Hk & Hget & Hparse).
    destruct (parseS3Block_spec _ _ _ _ Hparse) as (Hn & _). subst n.
    split; [now rewrite Hnumbers|].
    intros b' Hb'. apply elem_of_cons in Hb' as [->|Hb'].
    + exists 0%nat, k, raw. rewrite Nat.add_0_r. split; [reflexivity|]. split; [lia | auto].
    + destruct (Hall b' Hb') as (i & attempt & raw' & Hi & Hattempt & Hget' & Hparse').
      exists (S i), attempt, raw'. split; [exact Hi|]. split; [exact Hattempt|].
      now replace (position + S i)%nat with (S position + i)%nat by lia.
Qed.

Lemma s3_fetchBlocks_outcomes computeTxHashes s3Get blockNumbers :
  S3.fetchBlocks computeTxHashes s3Get blockNumbers
  = let outcomes := S3.fetchFrom computeTxHashes s3Get 0 blockNumbers in
    match filter (fun o => S3.isFailure o = true) outcomes with
    | [] =>
        match S3.blocksOf outcomes with
        | Some results => S3.Blocks (Rpc.sortByNumber results)
        | None => S3.BlocksInexact
        end
    | causes => S3.Stopped causes
    end.
Proof. destruct blockNumbers; reflexivity. Qed.

(** X23: what the S3 fetcher returns.  When fetching a list of block
    numbers ends with blocks, there is exactly one block for every
    requested number, occurrence by occurrence, so as many blocks as were
    requested, in ascending order of number (in the order of the request
    when that is ascending).  Every block was read from the object stored
    under the key of its number, at one of at most four attempts; its hash
    is the hexadecimal of the raw hash, its timestamp the raw seconds times
    1000, within the safe integers, and its system transactions are the
    parse of the raw ones, each with lower-case addresses and a decimal
    amount that the finder's match predicate reads without throwing.  The
    fetch stops as soon as one block fails: an error it ends with is the
    answer of the bucket for a requested block at one of the four
    attempts, or the missing-data error, and an error that the retry
    policy retries (Timeout, HTTP 503, 500 or 429) only at the fourth.  The
    outcome depends on no other answer of the bucket, and an empty request
    is answered with no blocks without asking. *)
Theorem s3_fetchBlocks_returns_every_requested_block :
  forall (computeTxHashes : S3.TxFields -> string -> option (string * string))
         (s3Get : nat -> string -> nat -> S3.Response)
         (blockNumbers : list Z),
    S3.fetchBlocks computeTxHashes s3Get [] = S3.Blocks [] /\
    (forall s3Get',
       (forall i n attempt, blockNumbers !! i = Some n -> (attempt <= 3)%nat ->
          s3Get i ("/" ++ S3.blockToS3Key n) attempt
          = s3Get' i ("/" ++ S3.blockToS3Key n) attempt) ->
       S3.fetchBlocks computeTxHashes s3Get blockNumbers
       = S3.fetchBlocks computeTxHashes s3Get' blockNumbers) /\
    (forall blocks,
       S3.fetchBlocks computeTxHashes s3Get blockNumbers = S3.Blocks blocks ->
       map BlockData.number blocks ≡ₚ blockNumbers /\
       length blocks = length blockNumbers /\
       FetcherFacts.ascending (map BlockData.number blocks) /\
       (FetcherFacts.ascending blockNumbers -> map BlockData.number blocks = blockNumbers) /\
       forall b, b ∈ blocks ->
         (exists i attempt raw,
            blockNumbers !! i = Some (BlockData.number b) /\ (attempt <= 3)%nat /\
            s3Get i ("/" ++ S3.blockToS3Key (BlockData.number b)) attempt = S3.Data raw /\
            BlockData.hash b = S3.toHex (S3.hash raw) /\
            BlockData.timestamp b = FetcherFacts.bigEndian (S3.timestamp raw) * 1000 /\
            Numeral.isSafeInteger (BlockData.timestamp b) = true /\
            S3.parseSystemTxs computeTxHashes (S3.system_txs raw)
            = Utils.Returns (BlockData.systemTxs b)) /\
         forall stx, stx ∈ BlockData.systemTxs b ->
           FetcherFacts.wellFormed stx /\
           forall user systemAddress expectedAmount,
             Finder.matchesTx stx user systemAddress expectedAmount <> None) /\
    (forall causes,
       S3.fetchBlocks computeTxHashes s3Get blockNumbers = S3.Stopped causes ->
       causes <> [] /\
       forall e, S3.Failed e ∈ causes ->
         exists i n attempt,
           blockNumbers !! i = Some n /\ (attempt <= 3)%nat /\
           (s3Get i ("/" ++ S3.blockToS3Key n) attempt = S3.FetchFails e \/
            s3Get i ("/" ++ S3.blockToS3Key n) attempt = S3.NoData /\
            e = Finder.mkFetchError
                  ("Invalid data for block " ++ JS.BigInt_toString n) "s3") /\
           (S3.retryable e = true -> attempt = 3%nat)).
Proof.
  intros computeTxHashes s3Get blockNumbers.
  split; [reflexivity|]. split; [|split].
  - intros s3Get' Hagree. rewrite !s3_fetchBlocks_outcomes.
    now rewrite (fetchFrom_ext computeTxHashes s3Get s3Get' blockNumbers 0 Hagree).
  - intros blocks. rewrite s3_fetchBlocks_outcomes. cbn zeta.
    destruct (filter _ _) as [|cause causes]; [|discriminate].
    destruct (S3.blocksOf _) as [results|] eqn:Hresults; [|discriminate].
    intros [= <-]. apply blocksOf_spec in Hresults.
    destruct (fetchFrom_blocks _ _ _ _ _ Hresults) as [Hnumbers Hall].
    destruct (sortByNumber_spec results) as [Hperm Hsorted].
    split; [now rewrite Hperm, Hnumbers|].
    split; [now rewrite Hperm, <- Hnumbers, length_map|].
    split; [exact Hsorted|].
    split.
    + intros Hasc. rewrite <- Hnumbers in Hasc.
      now rewrite (sortByNumber_ascending results Hasc).
    + intros b Hb. rewrite Hperm in Hb.
      destruct (Hall b Hb) as (i & attempt & raw & Hi & Hattempt & Hget & Hparse).
      destruct (parseS3Block_spec _ _ _ _ Hparse) as (_ & Hhash & Htime & Hsafe & Htxs).
      split; [exists i, attempt, raw; auto 10|].
      intros stx Hstx.
      destruct (parseSystemTxs_spec _ _ _ Htxs) as [_ Hstxs].
      destruct (Hstxs stx Hstx) as (sysTx & _ & Hone).
      destruct (parseSystemTx_returns _ _ _ Hone) as (Hwf & Hread & _). auto.
  - intros causes. rewrite s3_fetchBlocks_outcomes. cbn zeta.
    destruct (filter _ _) as [|cause others] eqn:Hfilter.
    { destruct (S3.blocksOf _); discriminate. }
    intros [= <-]. split; [discriminate|].
    intros e He. rewrite <- Hfilter in He.
    apply list_elem_of_filter in He as [_ He].
    apply list_elem_of_lookup in He as [i Hi].
    destruct (fetchFrom_spec computeTxHashes s3Get blockNumbers 0) as [_ Hall].
    destruct (Hall i _ Hi) as (n & Hn & Hout).
    pose proof (s3_fetchBlock_spec computeTxHashes s3Get (0 + i) n 3 0) as Hspec.
    rewrite <- Hout in Hspec. destruct Hspec as (k & Hk & Hwhat & Hretry).
    exists i, n, k. split; [exact Hn|]. split; [lia|]. split; [exact Hwhat|].
    intros H. specialize (Hretry H). lia.
Qed.

Lemma s3_fetchBlocks_returns_every_requested_block_witness :
  exists blocks,
    S3.fetchBlocks Samples.s3Hashes Samples.coldBucket [12; 11] = S3.Blocks blocks /\
    map BlockData.number blocks = [11; 12] /\
    map BlockData.timestamp blocks = [1710268864000; 1710268864000] /\
    map BlockData.number blocks ≡ₚ [12; 11] /\
    FetcherFacts.ascending (map BlockData.number blocks).
Proof.
  eexists. split; [vm_compute; reflexivity|]. split; [reflexivity|].
  split; [reflexivity|].
  destruct (s3_fetchBlocks_returns_every_requested_block Samples.s3Hashes
              Samples.coldBucket [12; 11]) as (_ & _ & Hblocks & _).
  destruct (Hblocks _ ltac:(vm_compute; reflexivity)) as (Hperm & _ & Hasc & _).
  split; [exact Hperm | exact Hasc].
Defined.

(** ** Keys of the bucket *)

Lemma split_at_char (c : ascii) (a a' b b' : string) :
  Forall (fun x => x <> c) (list_ascii_of_string a) ->
  Forall (fun x => x <> c) (list_ascii_of_string a') ->
  (a ++ String c b = a' ++ String c b')%string -> a = a' /\ b = b'.
Proof.
  revert a'. induction a as [|x a IH]; intros [|x' a'] Ha Ha'.
  - now intros [= ->].
  - intros [= <- _]. inversion Ha'; congruence.
  - intros [= -> _]. inversion Ha; congruence.
  - intros H.
    change (String x (a ++ String c b) = String x' (a' ++ String c b'))%string in H.
    injection H as -> Hrest.
    inversion Ha; inversion Ha'; subst.
    destruct (IH a') as [-> ->]; auto.
Qed.

Lemma string_of_uint_plain d :
  Forall (fun x => x <> "/"%char /\ x <> "."%char)
    (list_ascii_of_string (NilZero.string_of_uint d)).
Proof.
  assert (Hdigits : forall u,
            Forall (fun x => x <> "/"%char /\ x <> "."%char)
              (list_ascii_of_string (NilEmpty.string_of_uint u))).
  { induction u as [|u IH|u IH|u IH|u IH|u IH|u IH|u IH|u IH|u IH|u IH]; simpl;
      [constructor | (constructor; [split; discriminate | exact IH])..]. }
  destruct d; try apply Hdigits.
  simpl. constructor; [split; discriminate | constructor].
Qed.

Lemma BigInt_toString_plain n :
  Forall (fun x => x <> "/"%char /\ x <> "."%char)
    (list_ascii_of_string (JS.BigInt_toString n)).
Proof.
  unfold JS.BigInt_toString.
  destruct (Z.to_int n) as [d|d]; cbn [NilZero.string_of_int list_ascii_of_string].
  - apply string_of_uint_plain.
  - constructor; [split; discriminate | apply string_of_uint_plain].
Qed.

Lemma BigInt_toString_inj n m : JS.BigInt_toString n = JS.BigInt_toString m -> n = m.
Proof.
  intros H. apply (f_equal JS.BigInt) in H. rewrite !BigInt_toString_inv in H. congruence.
Qed.

(** X24: where the S3 fetcher looks for a block.  The key of a block is its
    million folder, its thousand folder and its number: the thousand folder
    is the multiple of 1000 just below the number, so that folder N holds
    the blocks N+1 to N+1000, and two blocks share it exactly when they lie
    in the same such range; the million folder is the multiple of 1000000
    just below the number and contains the thousand folder.  Distinct block
    numbers have distinct keys. *)
Theorem blockToS3Key_folders :
  forall (blockNum : Z),
    S3.blockToS3Key blockNum
    = (JS.BigInt_toString (S3.million blockNum) ++ "/"
       ++ JS.BigInt_toString (S3.thousand blockNum) ++ "/"
       ++ JS.BigInt_toString blockNum ++ ".rmp.lz4")%string /\
    (exists k, S3.thousand blockNum = 1000 * k) /\
    S3.thousand blockNum + 1 <= blockNum <= S3.thousand blockNum + 1000 /\
    (exists k, S3.million blockNum = 1000000 * k) /\
    S3.million blockNum + 1 <= blockNum <= S3.million blockNum + 1000000 /\
    S3.million blockNum <= S3.thousand blockNum <= S3.million blockNum + 999000 /\
    (forall other,
       S3.thousand other = S3.thousand blockNum <->
       S3.thousand blockNum + 1 <= other <= S3.thousand blockNum + 1000) /\
    (forall other, S3.blockToS3Key other = S3.blockToS3Key blockNum -> other = blockNum).
Proof.
  intros blockNum. unfold S3.thousand, S3.million.
  pose proof (Z.div_mod (blockNum - 1) 1000 ltac:(lia)) as Hk.
  pose proof (Z.mod_pos_bound (blockNum - 1) 1000 ltac:(lia)) as Hr.
  pose proof (Z.div_mod (blockNum - 1) 1000000 ltac:(lia)) as Hm.
  pose proof (Z.mod_pos_bound (blockNum - 1) 1000000 ltac:(lia)) as Hs.
  split; [reflexivity|].
  split; [exists ((blockNum - 1) / 1000); lia|]. split; [lia|].
  split; [exists ((blockNum - 1) / 1000000); lia|]. split; [lia|].
  split; [|split].
  - assert ((blockNum - 1) / 1000000 = (blockNum - 1) / 1000 / 1000) as Hnested
      by (rewrite Z.div_div by lia; reflexivity).
    pose proof (Z.div_mod ((blockNum - 1) / 1000) 1000 ltac:(lia)) as Hq.
    pose proof (Z.mod_pos_bound ((blockNum - 1) / 1000) 1000 ltac:(lia)) as Ht.
    lia.
  - intros other.
    pose proof (Z.div_mod (other - 1) 1000 ltac:(lia)) as Hk'.
    pose proof (Z.mod_pos_bound (other - 1) 1000 ltac:(lia)) as Hr'.
    split; [lia|]. intros Hrange.
    assert ((other - 1) / 1000 = (blockNum - 1) / 1000) as ->; [|reflexivity].
    symmetry.
    apply Z.div_unique_pos with (r := other - 1 - 1000 * ((blockNum - 1) / 1000)); lia.
  - intros other. unfold S3.blockToS3Key. intros Hkey.
    apply split_at_char in Hkey as [_ Hkey];
      [|eapply Forall_impl; [apply BigInt_toString_plain | now intros x [? ?]]..].
    apply split_at_char in Hkey as [_ Hkey];
      [|eapply Forall_impl; [apply BigInt_toString_plain | now intros x [? ?]]..].
    change (JS.BigInt_toString other ++ String "." "rmp.lz4"
            = JS.BigInt_toString blockNum ++ String "." "rmp.lz4")%string in Hkey.
    apply split_at_char in Hkey as [Hkey _];
      [|eapply Forall_impl; [apply BigInt_toString_plain | now intros x [? ?]]..].
    now apply BigInt_toString_inj.
Qed.
